(** * Two-point-difference jump detection (stcal/jump/twopoint_difference.py)

    A shallow embedding of the cosmic-ray jump detector [find_crs] and of
    the robust median estimator [calc_med_first_diffs] it relies on,
    followed by the properties proved of them.

    Conventions of the embedding.
    - A NumPy float is a binary64 value: Rocq's primitive [float], whose
      operations are the IEEE 754 ones.  The missing sentinel [np.nan] is
      [nan]; [np.isnan] is [PrimFloat.is_nan].
    - Flag words and Python integers are [Z]; [np.bitwise_and] and
      [np.bitwise_or] are [Z.land] and [Z.lor].  Flag words are taken to
      fit the dtype of the quality array; the one explicit cast of the
      source, [np.uint8], is written out.
    - An n-dimensional array is a nested list in C (row-major) order; a
      flattened view is the concatenation of the rows.  Arrays are taken
      rectangular and of the shapes the docstring of [find_crs] gives
      ([group_dq] shaped like [dataa], [read_noise] one value per pixel):
      whole-array operations are written elementwise by position and the
      shape-mismatch errors of NumPy are not modelled.  Subscripts that
      the code computes ([group - 1], the extents handed to [np.zeros])
      keep their Python meaning, exceptions included.
    - A masked array ([np.ma]) is represented by its data with NaN at the
      masked positions: a masked element and a NaN both make every
      comparison of the code false.
    - A Python exception is the [Raise] outcome of the [result] type.
    - [astropy.stats] is outside the package and enters as a parameter. *)

From Stdlib Require Import ZArith Floats Lia.
From stdpp Require Import base option list.

Local Open Scope Z_scope.

(** ** Outcomes of fallible code *)

Inductive exn : Type :=
  | ValueError   (* NumPy: all-NaN slice, empty sequence, negative dimension *)
  | IndexError   (* subscript out of range *)
  | NameError.   (* a name bound neither locally nor at module level *)

Inductive result (A : Type) : Type :=
  | Ok (a : A)
  | Raise (e : exn).
Arguments Ok {A} a.
Arguments Raise {A} e.

#[global] Instance result_ret : MRet result := fun A a => Ok a.
#[global] Instance result_bind : MBind result := fun A B f m =>
  match m with
  | Ok a => f a
  | Raise e => Raise e
  end.

(** ** NumPy primitives on flattened float data *)

Module Np.

Definition isnan (x : float) : bool := PrimFloat.is_nan x.

Definition neg_infinity : float := PrimFloat.neg_infinity.
Definition infinity : float := PrimFloat.infinity.

(** [np.sum(np.isnan(a))] *)
Definition count_nan (a : list float) : nat := length (filter (fun x => isnan x = true) a).

(** The scan of NumPy's [argmax] for floating types: the running maximum
    is replaced when [not (x <= max)], and a NaN ends the scan (a NaN is
    maximal).  [i] is the index of [x]'s successor in the array. *)
Fixpoint argmax_scan (mp : float) (mi : nat) (i : nat) (a : list float) : nat :=
  if isnan mp then mi
  else match a with
       | [] => mi
       | x :: t => if negb (PrimFloat.leb x mp) then argmax_scan x i (S i) t
                   else argmax_scan mp mi (S i) t
       end.

(** [a.argmax()] on the flattened array; empty input raises. *)
Definition argmax (a : list float) : result nat :=
  match a with
  | [] => Raise ValueError
  | x :: t => Ok (argmax_scan x 0%nat 1%nat t)
  end.

(** The mirror scan of [argmin]: replaced when [not (x >= min)]. *)
Fixpoint argmin_scan (mp : float) (mi : nat) (i : nat) (a : list float) : nat :=
  if isnan mp then mi
  else match a with
       | [] => mi
       | x :: t => if negb (PrimFloat.leb mp x) then argmin_scan x i (S i) t
                   else argmin_scan mp mi (S i) t
       end.

Definition argmin (a : list float) : result nat :=
  match a with
  | [] => Raise ValueError
  | x :: t => Ok (argmin_scan x 0%nat 1%nat t)
  end.

Definition all_nan (a : list float) : bool := forallb isnan a.

Definition replace_nan (v : float) (a : list float) : list float :=
  map (fun x => if isnan x then v else x) a.

(** [np.nanargmax]: NaNs are replaced by -inf, an all-NaN input raises
    ValueError, otherwise [argmax] of the replaced data. *)
Definition nanargmax (a : list float) : result nat :=
  if all_nan a then Raise ValueError else argmax (replace_nan neg_infinity a).

(** [np.nanargmin]: NaNs are replaced by +inf. *)
Definition nanargmin (a : list float) : result nat :=
  if all_nan a then Raise ValueError else argmin (replace_nan infinity a).

Definition drop_nan (a : list float) : list float :=
  filter (fun x => isnan x = false) a.

Fixpoint insert_sorted (x : float) (l : list float) : list float :=
  match l with
  | [] => [x]
  | y :: t => if PrimFloat.leb x y then x :: l else y :: insert_sorted x t
  end.

Definition sort (l : list float) : list float := foldr insert_sorted [] l.

(** Median of NaN-free data: the middle element, or the mean of the two
    middle elements ([np.mean] of two values: their sum divided by 2). *)
Definition median_sorted (v : list float) : float :=
  let n := length v in
  match n with
  | O => PrimFloat.nan
  | _ => if Nat.odd n then nth (n / 2)%nat v PrimFloat.nan
         else PrimFloat.div
                (PrimFloat.add (nth (n / 2 - 1)%nat v PrimFloat.nan)
                               (nth (n / 2)%nat v PrimFloat.nan)) 2%float
  end.

(** [np.nanmedian] (and [np.ma.median] of data masked at its NaNs): the
    median of the non-NaN values, NaN when there is none. *)
Definition nanmedian (a : list float) : float := median_sorted (sort (drop_nan a)).

(** [np.fmin], the reduction step of [np.nanmin]. *)
Definition fmin (a b : float) : float :=
  if isnan a then b else if isnan b then a
  else if PrimFloat.leb a b then a else b.

(** [np.nanmin]: NaN when every value is NaN. *)
Definition nanmin (a : list float) : float := foldr fmin PrimFloat.nan a.

(** [np.nanmax] *)
Definition fmax (a b : float) : float :=
  if isnan a then b else if isnan b then a
  else if PrimFloat.leb b a then a else b.

Definition nanmax (a : list float) : float := foldr fmax PrimFloat.nan a.

(** [a[mask]] where [mask] is all True except at index [i]. *)
Definition remove_at {A} (i : nat) (a : list A) : list A := take i a ++ drop (S i) a.

End Np.

(** ** The robust median estimator *)

(** [calc_med_first_diffs_dim1]: a single pixel's vector of differences. *)
Definition calc_med_first_diffs_dim1 (first_diffs : list float) : result float :=
  let num_usable_groups := (Z.of_nat (length first_diffs) - Z.of_nat (Np.count_nan first_diffs)) in
  if 4 <=? num_usable_groups then
    i ← Np.nanargmax (map PrimFloat.abs first_diffs);
    Ok (Np.nanmedian (Np.remove_at i first_diffs))
  else if num_usable_groups =? 3 then
    Ok (Np.nanmedian first_diffs)
  else if num_usable_groups =? 2 then
    i ← Np.nanargmin (map PrimFloat.abs first_diffs);
    Ok (nth i first_diffs PrimFloat.nan)
  else Ok PrimFloat.nan.

(** [calc_med_first_diffs_dim2]: a 2-D slab.  [argmax], [nanargmin] and
    [unravel_index] address the flattened slab, so the slab is flattened
    once and indexed directly.  The value bound to [TEST] in the source
    is computed and not used. *)
Definition calc_med_first_diffs_dim2 (first_diffs : list (list float)) : result float :=
  let flat := concat first_diffs in
  let num_usable_diffs := (Z.of_nat (length flat) - Z.of_nat (Np.count_nan flat)) in
  if 4 <=? num_usable_diffs then
    location ← Np.argmax flat;
    Ok (Np.nanmedian (Np.remove_at location flat))
  else if num_usable_diffs =? 3 then
    Ok (Np.nanmedian flat)
  else if num_usable_diffs =? 2 then
    _ ← Np.nanargmin (map PrimFloat.abs flat);
    diff_min_idx ← Np.nanargmin flat;
    Ok (nth diff_min_idx flat PrimFloat.nan)
  else Ok PrimFloat.nan.

(** ** Arrays *)

Abbreviation arr2 T := (list (list T)).
Abbreviation arr3 T := (list (list (list T))).
Abbreviation arr4 T := (list (list (list (list T)))).

Definition get2 {T} (a : arr2 T) (r c : nat) : option T :=
  a !! r ≫= fun row => row !! c.
Definition get3 {T} (a : arr3 T) (g r c : nat) : option T :=
  a !! g ≫= fun pl => get2 pl r c.
Definition get4 {T} (a : arr4 T) (i g r c : nat) : option T :=
  a !! i ≫= fun x => get3 x g r c.

Definition set2 {T} (a : arr2 T) (r c : nat) (v : T) : arr2 T :=
  alter (fun row => <[c := v]> row) r a.
Definition set3 {T} (a : arr3 T) (g r c : nat) (v : T) : arr3 T :=
  alter (fun pl => set2 pl r c v) g a.
Definition set4 {T} (a : arr4 T) (i g r c : nat) (v : T) : arr4 T :=
  alter (fun x => set3 x g r c v) i a.

(** Reads of positions that exist in every well-shaped input. *)
Definition getf2 (a : arr2 float) r c : float := default PrimFloat.nan (get2 a r c).
Definition getf4 (a : arr4 float) i g r c : float := default PrimFloat.nan (get4 a i g r c).
Definition getz4 (a : arr4 Z) i g r c : Z := default 0 (get4 a i g r c).
Definition getb4 (a : arr4 bool) i g r c : bool := default false (get4 a i g r c).

(** Elementwise construction that knows the position of each element. *)
Definition imap2 {T U} (f : nat -> nat -> T -> U) (a : arr2 T) : arr2 U :=
  imap (fun r row => imap (fun c x => f r c x) row) a.
Definition imap3 {T U} (f : nat -> nat -> nat -> T -> U) (a : arr3 T) : arr3 U :=
  imap (fun g pl => imap2 (f g) pl) a.
Definition imap4 {T U} (f : nat -> nat -> nat -> nat -> T -> U) (a : arr4 T) : arr4 U :=
  imap (fun i x => imap3 (f i) x) a.

(** [a.shape] of a 4-D array, read off the leading elements. *)
Definition shape4 {T} (a : arr4 T) : nat * nat * nat * nat :=
  let x := default [] (head a) in
  let y := default [] (head x) in
  let z := default [] (head y) in
  (length a, length x, length y, length z).

(** The array is rectangular with the given extents. *)
Definition has_shape4 {T} (a : arr4 T) (ni ng nr nc : nat) : Prop :=
  length a = ni /\
  Forall (fun x => length x = ng /\
    Forall (fun y => length y = nr /\
      Forall (fun z => length z = nc) y) x) a.

(** [np.zeros] *)
Definition zeros2 {T} (z : T) (n1 n2 : nat) : arr2 T := replicate n1 (replicate n2 z).
Definition zeros3 {T} (z : T) (n0 n1 n2 : nat) : arr3 T := replicate n0 (zeros2 z n1 n2).

(** [np.zeros((n0, n1, n2))] with a computed leading extent: a negative
    dimension raises ValueError. *)
Definition np_zeros3 (n0 : Z) (n1 n2 : nat) : result (arr3 float) :=
  if n0 <? 0 then Raise ValueError else Ok (zeros3 0%float (Z.to_nat n0) n1 n2).

(** [np.where(cond)] on a 4-D array: the positions where the condition
    holds, in C order. *)
Definition where4 {T} (P : T -> bool) (a : arr4 T) : list (nat * nat * nat * nat) :=
  ix ← imap pair a;
  gy ← imap pair ix.2;
  rz ← imap pair gy.2;
  cv ← imap pair rz.2;
  if P cv.2 then [(ix.1, gy.1, rz.1, cv.1)] else [].

(** [a[:, :, r, c]]: the slab of one pixel, and its flattening. *)
Definition pixel_slab (a : arr4 float) (r c : nat) : arr2 float :=
  map (map (fun pl => getf2 pl r c)) a.
Definition pixel_vec (a : arr4 float) (r c : nat) : list float :=
  concat (pixel_slab a r c).

(** [np.reshape(flat, (n, w))] *)
Definition reshape2 {T} (n w : nat) (flat : list T) : arr2 T :=
  map (fun i => take w (drop (i * w) flat)) (seq 0 n).

(** Python subscript on an axis of length [len]: a negative subscript
    counts from the end, anything else out of range raises IndexError. *)
Definition py_index (len : nat) (k : Z) : result nat :=
  if (0 <=? k) && (k <? Z.of_nat len) then Ok (Z.to_nat k)
  else if (- Z.of_nat len <=? k) && (k <? 0) then Ok (Z.to_nat (Z.of_nat len + k))
  else Raise IndexError.

Definition of_option {A} (o : option A) : result A :=
  match o with Some a => Ok a | None => Raise IndexError end.

(** [a[i, k, r, c]] with a computed subscript [k] on the group axis. *)
Definition py_get4 {T} (a : arr4 T) (i : nat) (k : Z) (r c : nat) : result T :=
  x ← of_option (a !! i);
  g ← py_index (length x) k;
  of_option (get3 x g r c).

(** [calc_med_first_diffs_dim4], for one pixel: the column
    [shaped_diffs[:, row, col]] of the reshaped cube.  The source selects
    the pixels of each tier with [np.where] on the usable count taken
    before any value is clipped, so the tiers are disjoint and a pixel is
    handled by exactly one of the four blocks. *)
Definition calc_med_first_diffs_dim4_pixel (column : list float) : result float :=
  let num_usable_diffs := Z.of_nat (length column) - Z.of_nat (Np.count_nan column) in
  if 4 <=? num_usable_diffs then
    loc0 ← Np.nanargmax column;
    Ok (Np.nanmedian (<[loc0 := PrimFloat.nan]> column))
  else if num_usable_diffs =? 3 then
    Ok (Np.nanmedian column)
  else if num_usable_diffs =? 2 then
    i ← Np.nanargmax (map PrimFloat.abs column);
    Ok (Np.nanmin (<[i := PrimFloat.nan]> column))
  else Ok PrimFloat.nan.

(** [calc_med_first_diffs_dim4]: the full cube, one median per pixel. *)
Definition calc_med_first_diffs_dim4 (first_diffs : arr4 float) : result (arr2 float) :=
  let '(nints, ndiffs, nrows, ncols) := shape4 first_diffs in
  mapM (fun r => mapM (fun c => calc_med_first_diffs_dim4_pixel (pixel_vec first_diffs r c))
                      (seq 0 ncols)) (seq 0 nrows).

(** The argument of [calc_med_first_diffs], by its number of dimensions,
    and the value returned: a float for a single pixel, a 2-D array for a
    cube, [None] where no branch of the dispatch applies. *)
Inductive first_diffs_arg : Type :=
  | Diffs1 (a : list float)
  | Diffs2 (a : arr2 float)
  | Diffs3 (a : arr3 float)
  | Diffs4 (a : arr4 float).

Inductive median_value : Type :=
  | MedianFloat (m : float)
  | MedianArray (a : arr2 float)
  | MedianNone.

(** [calc_med_first_diffs]: the dispatch on [ndim].  In [find_crs] the
    call on the cube of absolute differences takes the 4-D branch and the
    call inside the refinement loop, on the slab of one pixel, the 2-D
    branch. *)
Definition calc_med_first_diffs (in_first_diffs : first_diffs_arg) : result median_value :=
  match in_first_diffs with
  | Diffs1 a => m ← calc_med_first_diffs_dim1 a; Ok (MedianFloat m)
  | Diffs2 a => m ← calc_med_first_diffs_dim2 a; Ok (MedianFloat m)
  | Diffs4 a => m ← calc_med_first_diffs_dim4 a; Ok (MedianArray m)
  | Diffs3 _ => Ok MedianNone
  end.

(** ** The parameter bundle *)

(** [TwoPointParams].  [nframes] only ever divides float arrays and is
    held as the float it is converted to (the constructor stores it in a
    one-element tuple, which NumPy broadcasts as that one value); the
    thresholds are floats, the flag constants and the counts are Python
    integers. *)
Record TwoPointParams : Type := {
  normal_rej_thresh : float;
  two_diff_rej_thresh : float;
  three_diff_rej_thresh : float;
  nframes : float;
  flag_4_neighbors : bool;
  max_jump_to_flag_neighbors : float;
  min_jump_to_flag_neighbors : float;
  fl_good : Z;
  fl_sat : Z;
  fl_jump : Z;
  fl_ngv : Z;
  fl_dnu : Z;
  fl_ref : Z;
  after_jump_flag_e1 : float;
  after_jump_flag_n1 : Z;
  after_jump_flag_e2 : float;
  after_jump_flag_n2 : Z;
  minimum_groups : Z;
  minimum_sigclip_groups : Z;
  only_use_ints : bool;
  min_diffs_single_pass : Z;
  copy_arrs : bool
}.

(** A flag word carries (some bit of) the given flag. *)
Definition has_flag (x fl : Z) : bool := negb (Z.land x fl =? 0).

(** The guard of the neighbour and after-jump writes:
    [(x & fl_sat) == 0 and (x & fl_dnu) == 0]. *)
Definition not_sat_dnu (p : TwoPointParams) (x : Z) : bool :=
  (Z.land x (fl_sat p) =? 0) && (Z.land x (fl_dnu p) =? 0).

(** [np.uint8(v)]: the value modulo 256. *)
Definition np_uint8 (v : Z) : Z := v mod 256.

(** ** Eligibility gate *)

(** [np.all] over a plane of flag words masked with a flag. *)
Definition plane_all (P : Z -> bool) (pl : arr2 Z) : bool :=
  forallb (forallb P) pl.

(** [compute_nflagged_groups]: the number of (integration, group) planes
    in which every pixel carries do-not-use. *)
Definition compute_nflagged_groups (gdq : arr4 Z) (p : TwoPointParams) : Z :=
  foldl (fun n integ =>
           foldl (fun n pl =>
                    if plane_all (fun x => has_flag x (fl_dnu p)) pl then n + 1 else n)
                 n integ)
        0 gdq.

(** [compute_totals] *)
Definition compute_totals (nints ngroups : Z) (gdq : arr4 Z) (p : TwoPointParams)
  : Z * Z * Z :=
  let num_flagged_grps := compute_nflagged_groups gdq p in
  let total_groups := nints * (ngroups - num_flagged_grps) in
  let total_diffs := nints * (ngroups - 1 - num_flagged_grps) in
  let total_usable_diffs := total_diffs - num_flagged_grps in
  (total_groups, total_diffs, total_usable_diffs).

(** [too_few_groups] *)
Definition too_few_groups (nints ngrps total_groups : Z) (p : TwoPointParams) : bool :=
  let test1 := (ngrps <? minimum_groups p) && only_use_ints p
               && (nints <? minimum_sigclip_groups p) in
  let test2 := negb (only_use_ints p)
               && (nints * ngrps <? minimum_sigclip_groups p)
               && (total_groups <? minimum_groups p) in
  test1 || test2.

(** [enough_sigclip_groups] *)
Definition enough_sigclip_groups (nints total_groups : Z) (p : TwoPointParams) : bool :=
  let test1 := only_use_ints p && (minimum_sigclip_groups p <=? nints) in
  let test2 := negb (only_use_ints p) && (minimum_sigclip_groups p <=? total_groups) in
  test1 || test2.

(** ** Preprocessing *)

(** [dat[np.where(np.bitwise_and(gdq, fl))] = np.nan] *)
Definition nan_where (fl : Z) (gdq : arr4 Z) (dat : arr4 float) : arr4 float :=
  imap4 (fun i g r c x => if has_flag (getz4 gdq i g r c) fl then PrimFloat.nan else x) dat.

(** [nan_invalid_data] *)
Definition nan_invalid_data (dat : arr4 float) (gdq : arr4 Z) (p : TwoPointParams)
  : arr4 float :=
  let dat := nan_where (fl_sat p) gdq dat in
  let dat := nan_where (fl_dnu p) gdq dat in
  let dat := nan_where (fl_dnu p + fl_sat p) gdq dat in
  dat.

(** [possibly_copy].  With [copy_arrs] false the returned arrays are the
    caller's own objects, so the overwrite of [nan_invalid_data] is seen by
    the caller; the third component is the caller's ramp array after the
    call to [possibly_copy]. *)
Definition possibly_copy (dataa : arr4 float) (group_dq : arr4 Z) (p : TwoPointParams)
  : arr4 float * arr4 Z * arr4 float :=
  let dat := nan_invalid_data dataa group_dq p in
  (dat, group_dq, if copy_arrs p then dataa else dat).

(** ** Group-difference engine *)

(** [np.diff(dat, axis=1)] *)
Definition np_diff (dat : arr4 float) : arr4 float :=
  imap (fun i x =>
          imap (fun g pl => imap2 (fun r c v => PrimFloat.sub v (getf4 dat i g r c)) pl)
               (tail x))
       dat.

(** A per-pixel reduction over the axes (0, 1), as a 2-D array. *)
Definition reduce01 (f : list float -> float) (a : arr4 float) (nrows ncols : nat)
  : arr2 float :=
  map (fun r => map (fun c => f (pixel_vec a r c)) (seq 0 ncols)) (seq 0 nrows).

(** [np.sqrt(np.abs(median_diffs) + read_noise_2 / nframes)] for one pixel *)
Definition sigma_of (p : TwoPointParams) (median_diff rn2 : float) : float :=
  PrimFloat.sqrt (PrimFloat.add (PrimFloat.abs median_diff) (PrimFloat.div rn2 (nframes p))).

(** [sigma[np.where(sigma == 0.)] = np.nan] for one pixel *)
Definition reset_zero_sigma (sigma : float) : float :=
  if PrimFloat.eqb sigma 0%float then PrimFloat.nan else sigma.

(** The per-pixel sigma array, zero entries already reset. *)
Definition sigma_array (p : TwoPointParams) (median_diffs read_noise_2 : arr2 float)
  : arr2 float :=
  imap2 (fun r c m => reset_zero_sigma (sigma_of p m (getf2 read_noise_2 r c))) median_diffs.

(** [first_diffs - median_diffs[np.newaxis, np.newaxis, :, :]] *)
Definition sub_median (first_diffs : arr4 float) (median_diffs : arr2 float) : arr4 float :=
  imap4 (fun i g r c d => PrimFloat.sub d (getf2 median_diffs r c)) first_diffs.

(** [np.abs(e_jump) / sigma[np.newaxis, np.newaxis, :, :]] *)
Definition ratio_of (e_jump : arr4 float) (sigma : arr2 float) : arr4 float :=
  imap4 (fun i g r c e => PrimFloat.div (PrimFloat.abs e) (getf2 sigma r c)) e_jump.

(** [gdq[:, 1:, :, :] = np.bitwise_or(gdq[:, 1:, :, :], add)], where
    [add] has one group fewer than [gdq]. *)
Definition or_into_later_groups (gdq : arr4 Z) (add : nat -> nat -> nat -> nat -> Z) : arr4 Z :=
  imap4 (fun i g r c x =>
           match g with
           | O => x
           | S g' => Z.lor x (add i g' r c)
           end) gdq.

(** A [for] loop whose body may raise: the state is threaded through the
    items in order and the first exception ends the loop. *)
Fixpoint for_each {S B} (body : S -> B -> result S) (s : S) (items : list B) : result S :=
  match items with
  | [] => Ok s
  | x :: rest => s' ← body s x; for_each body s' rest
  end.

(** [range(a, b)] for a start that is an index. *)
Definition py_range (a : nat) (b : Z) : list nat := seq a (Z.to_nat (b - Z.of_nat a)).

(** ** Sigma-clip path *)

(** The statistics array returned fifth: 2-D or 3-D. *)
Inductive statistic : Type :=
  | Stat2 (a : arr2 float)
  | Stat3 (a : arr3 float).

(** The binding of the name [gdq] at module level.  The module assigns no
    such name, and [mask_gdq] has neither a parameter nor a local of that
    name, so the name is looked up here when [mask_gdq] runs. *)
Definition module_level_gdq : option (arr4 Z) := None.

Definition lookup_name (binding : option (arr4 Z)) : result (arr4 Z) :=
  match binding with
  | Some v => Ok v
  | None => Raise NameError
  end.

(** [mask_gdq].  [gdq_binding] is what the free name [gdq] of the body
    resolves to; the two masks are [clipped_diffs.mask] and
    [first_diffs_masked.mask]. *)
Definition mask_gdq (gdq_binding : option (arr4 Z)) (clipped_mask first_diffs_mask : arr4 bool)
                    (p : TwoPointParams) : result (arr4 Z) :=
  let jump_mask :=
    imap4 (fun i g r c m => m && negb (getb4 first_diffs_mask i g r c)) clipped_mask in
  gdq ← lookup_name gdq_binding;
  let unless v (jm : arr4 bool) :=
    imap4 (fun i g r c m => if m && (getz4 gdq i (S g) r c =? v) then false else m) jm in
  let jump_mask := unless (fl_sat p) jump_mask in
  let jump_mask := unless (fl_dnu p) jump_mask in
  let jump_mask := unless (fl_dnu p + fl_sat p) jump_mask in
  let gdq := or_into_later_groups gdq
               (fun i g r c => if getb4 jump_mask i g r c then np_uint8 (fl_jump p) else 0) in
  (* if grp is all jump set to do not use *)
  let gdq :=
    map (map (fun pl =>
                if plane_all (fun x => negb (Z.lor (Z.land x (fl_jump p))
                                                   (Z.land x (fl_dnu p)) =? 0)) pl
                then imap2 (fun r c x => if x =? fl_jump p then 0 else x) pl
                else pl)) gdq in
  Ok gdq.

(** ** Single-pass path *)

(** The single-pass block: one median, sigma and ratio per pixel, and a
    jump flag OR'd into every sample after the first group whose ratio
    exceeds the normal threshold and whose difference, as first taken
    ([first_diffs_masked]), is not NaN. *)
Definition single_pass (p : TwoPointParams) (read_noise_2 : arr2 float) (nrows ncols : nat)
                       (first_diffs first_diffs_masked : arr4 float) (gdq : arr4 Z) : arr4 Z :=
  let median_diffs := reduce01 Np.nanmedian first_diffs nrows ncols in
  let sigma := sigma_array p median_diffs read_noise_2 in
  let e_jump := sub_median first_diffs median_diffs in
  let ratio := ratio_of e_jump sigma in
  let jump_mask i g r c :=
    PrimFloat.ltb (normal_rej_thresh p) (getf4 ratio i g r c)
    && negb (Np.isnan (getf4 first_diffs_masked i g r c)) in
  or_into_later_groups gdq
    (fun i g r c => if jump_mask i g r c then np_uint8 (fl_jump p) else 0).

(** ** Iterative per-pixel path *)

(** The state of the refinement loop of one pixel.  The 2-D views
    [pix_first_diffs] and [pix_cr_mask] are held flattened in C order. *)
Record pix_state : Type := {
  pix_first_diffs : list float;
  pix_cr_mask : list bool;
  new_CR_found : bool
}.

(** [ndiffs - np.sum(np.isnan(pix_first_diffs))] *)
Definition usable_diffs (ndiffs : Z) (d : list float) : Z :=
  ndiffs - Z.of_nat (Np.count_nan d).

(** The [while] condition. *)
Definition loop_guard (ndiffs : Z) (st : pix_state) : bool :=
  new_CR_found st && (2 <? usable_diffs ndiffs (pix_first_diffs st)).

(** [pix_first_diffs[~pix_cr_mask] = np.nan] *)
Definition clip_marked (d : list float) (mask : list bool) : list float :=
  imap (fun k x => if default true (mask !! k) then x else PrimFloat.nan) d.

(** The threshold for the number of remaining usable differences. *)
Definition rej_thresh_for (p : TwoPointParams) (n : Z) : float :=
  let rej_thresh := normal_rej_thresh p in
  let rej_thresh := if n =? 3 then three_diff_rej_thresh p else rej_thresh in
  let rej_thresh := if n =? 2 then two_diff_rej_thresh p else rej_thresh in
  rej_thresh.

(** [np.abs(pix_first_diffs - new_pix_median_diffs) / new_pix_sigma] *)
Definition pix_ratio_of (median sigma : float) (d : list float) : list float :=
  map (fun x => PrimFloat.div (PrimFloat.abs (PrimFloat.sub x median)) sigma) d.

(** One pass through the body of the [while] loop.  The slab has [nints]
    rows of [nd] differences. *)
Definition loop_body (p : TwoPointParams) (pix_rn2 : float) (ndiffs : Z) (nints nd : nat)
                     (st : pix_state) : result pix_state :=
  let diffs := clip_marked (pix_first_diffs st) (pix_cr_mask st) in
  new_pix_median_diffs ← calc_med_first_diffs_dim2 (reshape2 nints nd diffs);
  let new_pix_sigma := sigma_of p new_pix_median_diffs pix_rn2 in
  let new_pix_ratio := pix_ratio_of new_pix_median_diffs new_pix_sigma diffs in
  let rej_thresh := rej_thresh_for p (usable_diffs ndiffs diffs) in
  max_idx ← Np.nanargmax new_pix_ratio;
  if PrimFloat.ltb rej_thresh (nth max_idx new_pix_ratio PrimFloat.nan) then
    Ok {| pix_first_diffs := diffs;
          pix_cr_mask := <[max_idx := false]> (pix_cr_mask st);
          new_CR_found := true |}
  else
    Ok {| pix_first_diffs := diffs;
          pix_cr_mask := pix_cr_mask st;
          new_CR_found := false |}.

(** The [while] loop, run for at most [fuel] passes. *)
Fixpoint refine_loop (p : TwoPointParams) (pix_rn2 : float) (ndiffs : Z) (nints nd : nat)
                     (fuel : nat) (st : pix_state) : result pix_state :=
  if loop_guard ndiffs st then
    match fuel with
    | O => Ok st
    | S fuel' =>
        st' ← loop_body p pix_rn2 ndiffs nints nd st;
        refine_loop p pix_rn2 ndiffs nints nd fuel' st'
    end
  else Ok st.

(** The executions of the [while] loop that end, with their outcome. *)
Inductive refine_exec (p : TwoPointParams) (pix_rn2 : float) (ndiffs : Z) (nints nd : nat)
  : pix_state -> result pix_state -> Prop :=
  | refine_exit st :
      loop_guard ndiffs st = false ->
      refine_exec p pix_rn2 ndiffs nints nd st (Ok st)
  | refine_raise st e :
      loop_guard ndiffs st = true ->
      loop_body p pix_rn2 ndiffs nints nd st = Raise e ->
      refine_exec p pix_rn2 ndiffs nints nd st (Raise e)
  | refine_pass st st' r :
      loop_guard ndiffs st = true ->
      loop_body p pix_rn2 ndiffs nints nd st = Ok st' ->
      refine_exec p pix_rn2 ndiffs nints nd st' r ->
      refine_exec p pix_rn2 ndiffs nints nd st r.

(** The number of differences not yet marked as jumps. *)
Definition unmarked (st : pix_state) : nat :=
  length (filter (fun b => b = true) (pix_cr_mask st)).

(** The pixels entered into refinement: [np.where] over the
    (integration, row, column) array of each tier, the three tiers
    concatenated; a pixel is listed once per integration that qualifies. *)
Definition candidates (p : TwoPointParams) (ndiffs : Z) (first_diffs ratio : arr4 float)
                      (nints nrows ncols : nat) : list (nat * nat) :=
  let max_ratio i r c :=
    Np.nanmax (map (fun pl => getf2 pl r c) (default [] (ratio !! i))) in
  let num_unusable_groups r c := Z.of_nat (Np.count_nan (pixel_vec first_diffs r c)) in
  let tier (count_ok : Z -> bool) (thresh : float) : list (nat * nat) :=
    i ← seq 0 nints; r ← seq 0 nrows; c ← seq 0 ncols;
    if count_ok (ndiffs - num_unusable_groups r c) && PrimFloat.ltb thresh (max_ratio i r c)
    then [(r, c)] else [] in
  tier (fun n => 4 <=? n) (normal_rej_thresh p)
  ++ tier (fun n => n =? 3) (three_diff_rej_thresh p)
  ++ tier (fun n => n =? 2) (two_diff_rej_thresh p).

(** One pass of the loop over the candidate pixels.  [pix_first_diffs] is a
    view of [first_diffs], so the values clipped by the refinement stay
    clipped in [first_diffs]; the jump flags of the pixel are committed
    when its refinement is over. *)
Definition refine_pixel (p : TwoPointParams) (read_noise_2 : arr2 float) (ndiffs : Z)
                        (nints nd : nat) (ratio : arr4 float)
                        (st : arr4 float * arr4 Z) (rc : nat * nat)
  : result (arr4 float * arr4 Z) :=
  let '(first_diffs, gdq) := st in
  let '(row, col) := rc in
  let pix_first_diffs0 := pixel_vec first_diffs row col in
  let pix_ratio := pixel_vec ratio row col in
  let pix_rn2 := getf2 read_noise_2 row col in
  let pix_cr_mask0 := replicate (length pix_first_diffs0) true in
  location ← Np.nanargmax pix_ratio;
  let pix_cr_mask0 := <[location := false]> pix_cr_mask0 in
  fin ← refine_loop p pix_rn2 ndiffs nints nd (S (length pix_cr_mask0))
         {| pix_first_diffs := pix_first_diffs0;
            pix_cr_mask := pix_cr_mask0;
            new_CR_found := true |};
  let here (r c : nat) := (r =? row)%nat && (c =? col)%nat in
  let first_diffs :=
    imap4 (fun i g r c x =>
             if here r c then nth (i * nd + g)%nat (pix_first_diffs fin) PrimFloat.nan else x)
          first_diffs in
  let gdq :=
    imap4 (fun i g r c x =>
             match g with
             | S g' => if here r c
                       then Z.lor x (if nth (i * nd + g')%nat (pix_cr_mask fin) true
                                     then 0 else fl_jump p)
                       else x
             | O => x
             end) gdq in
  Ok (first_diffs, gdq).

Definition iterative_path (p : TwoPointParams) (read_noise_2 : arr2 float)
                          (nints ngroups nrows ncols : nat) (dat : arr4 float) (gdq : arr4 Z)
  : result (arr4 Z) :=
  let ndiffs := (Z.of_nat ngroups - 1) * Z.of_nat nints in
  let first_diffs := imap4 (fun _ _ _ _ x => PrimFloat.abs x) (np_diff dat) in
  median_diffs ← calc_med_first_diffs_dim4 first_diffs;
  let sigma := sigma_array p median_diffs read_noise_2 in
  let e_jump := sub_median first_diffs median_diffs in
  let ratio := ratio_of e_jump sigma in
  st ← for_each (refine_pixel p read_noise_2 ndiffs nints (ngroups - 1) ratio)
                (first_diffs, gdq)
                (candidates p ndiffs first_diffs ratio nints nrows ncols);
  Ok st.2.

(** ** Neighbour flag propagation *)

(** The write shared by neighbour and after-jump flagging: the sample is
    OR'd with the jump flag unless it carries saturated or do-not-use. *)
Definition flag_if_clear (p : TwoPointParams) (gdq : arr4 Z) (i g r c : nat)
  : result (arr4 Z) :=
  x ← of_option (get4 gdq i g r c);
  if not_sat_dnu p x then Ok (set4 gdq i g r c (Z.lor x (fl_jump p))) else Ok gdq.

(** [ratio < max_jump_to_flag_neighbors and ratio > min_jump_to_flag_neighbors] *)
Definition in_window (p : TwoPointParams) (ratio_this_pix : float) : bool :=
  PrimFloat.ltb ratio_this_pix (max_jump_to_flag_neighbors p)
  && PrimFloat.ltb (min_jump_to_flag_neighbors p) ratio_this_pix.

(** The body of the loop over the jump samples. *)
Definition flag_neighbors_step (p : TwoPointParams) (ratio_all : arr4 float)
                               (nrows ncols : nat)
                               (st : arr4 Z * arr3 Z * arr3 Z)
                               (cr : nat * nat * nat * nat)
  : result (arr4 Z * arr3 Z * arr3 Z) :=
  let '(gdq, row_below_gdq, row_above_gdq) := st in
  let '(integ, group, row, col) := cr in
  ratio_this_pix ← py_get4 ratio_all integ (Z.of_nat group - 1) row col;
  if in_window p ratio_this_pix then
    gb ← (if negb (row =? 0)%nat
          then gdq' ← flag_if_clear p gdq integ group (row - 1) col; Ok (gdq', row_below_gdq)
          else Ok (gdq, set3 row_below_gdq integ group col (fl_jump p)));
    let '(gdq, row_below_gdq) := gb in
    ga ← (if negb (Z.of_nat row =? Z.of_nat nrows - 1)
          then gdq' ← flag_if_clear p gdq integ group (row + 1) col; Ok (gdq', row_above_gdq)
          else Ok (gdq, set3 row_above_gdq integ group col (fl_jump p)));
    let '(gdq, row_above_gdq) := ga in
    gdq ← (if negb (col =? 0)%nat
           then flag_if_clear p gdq integ group row (col - 1) else Ok gdq);
    gdq ← (if negb (Z.of_nat col =? Z.of_nat ncols - 1)
           then flag_if_clear p gdq integ group row (col + 1) else Ok gdq);
    Ok (gdq, row_below_gdq, row_above_gdq)
  else Ok st.

(** The neighbour propagator: the jump samples are listed once, before the
    loop, and the loop writes into the same quality array. *)
Definition flag_neighbors (p : TwoPointParams) (ratio_all : arr4 float) (nrows ncols : nat)
                          (gdq : arr4 Z) (row_below_gdq row_above_gdq : arr3 Z)
  : result (arr4 Z * arr3 Z * arr3 Z) :=
  let crs := where4 (fun x => has_flag x (fl_jump p)) gdq in
  if flag_4_neighbors p
  then for_each (flag_neighbors_step p ratio_all nrows ncols)
                (gdq, row_below_gdq, row_above_gdq) crs
  else Ok (gdq, row_below_gdq, row_above_gdq).

(** ** After-jump flagging *)

(** The groups [range(group, min(group + cgroup + 1, ngroups))]. *)
Definition after_groups (ngroups : nat) (group : nat) (cgroup : Z) : list nat :=
  py_range group (Z.min (Z.of_nat group + cgroup + 1) (Z.of_nat ngroups)).

Definition after_jump_step (p : TwoPointParams) (e_jump_4d : arr4 float) (ngroups : nat)
                           (cthres : float) (cgroup : Z)
                           (gdq : arr4 Z) (cr : nat * nat * nat * nat) : result (arr4 Z) :=
  let '(intg, group, row, col) := cr in
  e ← py_get4 e_jump_4d intg (Z.of_nat group - 1) row col;
  if PrimFloat.leb cthres e then
    for_each (fun gdq kk => flag_if_clear p gdq intg kk row col) gdq
             (after_groups ngroups group cgroup)
  else Ok gdq.

(** One (energy threshold, group count) tier. *)
Definition after_jump_tier (p : TwoPointParams) (e_jump_4d : arr4 float) (ngroups : nat)
                           (gdq : arr4 Z) (tier : float * Z) : result (arr4 Z) :=
  let '(cthres, cgroup) := tier in
  if 0 <? cgroup then
    for_each (after_jump_step p e_jump_4d ngroups cthres cgroup) gdq
             (where4 (fun x => has_flag x (fl_jump p)) gdq)
  else Ok gdq.

Definition flag_after_jumps (p : TwoPointParams) (e_jump_4d : arr4 float) (ngroups : nat)
                            (gdq : arr4 Z) : result (arr4 Z) :=
  let flag_e_threshold := [after_jump_flag_e1 p; after_jump_flag_e2 p] in
  let flag_groups := [after_jump_flag_n1 p; after_jump_flag_n2 p] in
  for_each (after_jump_tier p e_jump_4d ngroups) gdq (zip flag_e_threshold flag_groups).

(** ** The detector *)

(** The three detection strategies. *)
Inductive detection_path : Type :=
  | SigmaClip
  | SinglePass
  | Iterative.

(** The five values returned by [find_crs]. *)
Record find_crs_return : Type := {
  ret_gdq : arr4 Z;
  ret_row_below_gdq : arr3 Z;
  ret_row_above_gdq : arr3 Z;
  ret_num_primary_crs : Z;
  ret_stat : statistic
}.

(** A call that returns: the returned values, and the caller's two input
    arrays as the call leaves them. *)
Record find_crs_outcome : Type := {
  returned : find_crs_return;
  caller_dataa : arr4 float;
  caller_group_dq : arr4 Z
}.

Section Detector.

(** [astropy.stats.sigma_clipped_stats] and [astropy.stats.sigma_clip],
    which are not part of this package: given the clip multiplier, whether
    the clip axis is 0 alone (rather than (0, 1)) and the first
    differences, the first yields (mean, median, stddev) and the second
    the mask of the clipped array. *)
Variable sigma_clipped_stats :
  float -> bool -> arr4 float -> result (statistic * statistic * statistic).
Variable sigma_clip : float -> bool -> arr4 float -> result (arr4 bool).

(** [run_sigma_clipping]; the two branches differ in the axis only. *)
Definition run_sigma_clipping (first_diffs_masked : arr4 float) (p : TwoPointParams)
  : result (statistic * statistic * statistic * arr4 bool) :=
  if only_use_ints p then
    s ← sigma_clipped_stats (normal_rej_thresh p) true first_diffs_masked;
    clipped_diffs ← sigma_clip (normal_rej_thresh p) true first_diffs_masked;
    Ok (s, clipped_diffs)
  else
    s ← sigma_clipped_stats (normal_rej_thresh p) false first_diffs_masked;
    clipped_diffs ← sigma_clip (normal_rej_thresh p) false first_diffs_masked;
    Ok (s, clipped_diffs).

(** The sigma-clip branch of [find_crs]. *)
Definition sigma_clip_path (p : TwoPointParams) (first_diffs_masked : arr4 float)
                           (dat : arr4 float)
  : result (arr4 float * arr4 Z * option statistic) :=
  sc ← run_sigma_clipping first_diffs_masked p;
  let '(_, _, stddev, clipped_mask) := sc in
  gdq ← mask_gdq module_level_gdq clipped_mask
          (imap4 (fun _ _ _ _ x => Np.isnan x) first_diffs_masked) p;
  Ok (dat, gdq, Some stddev).

(** The statements ahead of the inner test of the other branch: saturated
    and do-not-use samples are set to NaN again and the first differences
    are taken again. *)
Definition remask (p : TwoPointParams) (dat : arr4 float) (gdq : arr4 Z) : arr4 float :=
  let dat := nan_where (fl_sat p) gdq dat in
  let dat := nan_where (fl_dnu p) gdq dat in
  dat.

Definition single_pass_path (p : TwoPointParams) (read_noise_2 : arr2 float)
                            (nrows ncols : nat) (first_diffs_masked : arr4 float)
                            (dat : arr4 float) (gdq : arr4 Z)
  : result (arr4 float * arr4 Z * option statistic) :=
  let dat := remask p dat gdq in
  let first_diffs := np_diff dat in
  Ok (dat, single_pass p read_noise_2 nrows ncols first_diffs first_diffs_masked gdq, None).

Definition iterative_path_branch (p : TwoPointParams) (read_noise_2 : arr2 float)
                                 (nints ngroups nrows ncols : nat)
                                 (dat : arr4 float) (gdq : arr4 Z)
  : result (arr4 float * arr4 Z * option statistic) :=
  let dat := remask p dat gdq in
  gdq ← iterative_path p read_noise_2 nints ngroups nrows ncols dat gdq;
  Ok (dat, gdq, None).

(** The detection block of [find_crs], lines 158-296, with the nesting of
    the source. *)
Definition detect (p : TwoPointParams) (read_noise_2 : arr2 float)
                  (nints ngroups nrows ncols : nat) (total_groups total_usable_diffs : Z)
                  (first_diffs_masked : arr4 float) (dat : arr4 float) (gdq : arr4 Z)
  : result (arr4 float * arr4 Z * option statistic) :=
  if enough_sigclip_groups (Z.of_nat nints) total_groups p then
    sigma_clip_path p first_diffs_masked dat
  else
    if min_diffs_single_pass p <=? total_usable_diffs then
      single_pass_path p read_noise_2 nrows ncols first_diffs_masked dat gdq
    else
      iterative_path_branch p read_noise_2 nints ngroups nrows ncols dat gdq.

(** [find_crs] *)
Definition find_crs (dataa : arr4 float) (group_dq : arr4 Z) (read_noise : arr2 float)
                    (twopt_p : TwoPointParams) : result find_crs_outcome :=
  let '(dat, gdq, dataa_now) := possibly_copy dataa group_dq twopt_p in
  let '(nints, ngroups, nrows, ncols) := shape4 dataa in
  let read_noise_2 := imap2 (fun _ _ x => PrimFloat.mul x x) read_noise in
  let row_above_gdq := zeros3 0 nints ngroups ncols in
  let row_below_gdq := zeros3 0 nints ngroups ncols in
  let '(total_groups, total_diffs, total_usable_diffs) :=
    compute_totals (Z.of_nat nints) (Z.of_nat ngroups) gdq twopt_p in
  if too_few_groups (Z.of_nat nints) (Z.of_nat ngroups) total_groups twopt_p then
    dummy ← np_zeros3 (Z.of_nat ngroups - 1) nrows ncols;
    Ok {| returned := {| ret_gdq := gdq;
                         ret_row_below_gdq := row_below_gdq;
                         ret_row_above_gdq := row_above_gdq;
                         ret_num_primary_crs := 0;
                         ret_stat := Stat3 dummy |};
          caller_dataa := dataa_now;
          caller_group_dq := group_dq |}
  else
    let first_diffs := np_diff dat in
    let median_diffs := reduce01 Np.nanmedian first_diffs nrows ncols in
    let sigma := sigma_array twopt_p median_diffs read_noise_2 in
    let e_jump_4d := sub_median first_diffs median_diffs in
    let ratio_all := ratio_of e_jump_4d sigma in
    d ← detect twopt_p read_noise_2 nints ngroups nrows ncols total_groups
               total_usable_diffs first_diffs dat gdq;
    let '(dat, gdq, stddev) := d in
    let num_primary_crs :=
      Z.of_nat (length (where4 (fun x => has_flag x (fl_jump twopt_p)) gdq)) in
    n ← flag_neighbors twopt_p ratio_all nrows ncols gdq row_below_gdq row_above_gdq;
    let '(gdq, row_below_gdq, row_above_gdq) := n in
    gdq ← flag_after_jumps twopt_p e_jump_4d ngroups gdq;
    stat ← match stddev with
           | Some s => Ok s
           | None =>
               if only_use_ints twopt_p
               then dummy ← np_zeros3 (Z.of_nat ngroups - 1) nrows ncols; Ok (Stat3 dummy)
               else Ok (Stat2 (zeros2 0%float nrows ncols))
           end;
    Ok {| returned := {| ret_gdq := gdq;
                         ret_row_below_gdq := row_below_gdq;
                         ret_row_above_gdq := row_above_gdq;
                         ret_num_primary_crs := num_primary_crs;
                         ret_stat := stat |};
          caller_dataa := if copy_arrs twopt_p then dataa else dat;
          caller_group_dq := if copy_arrs twopt_p then group_dq else gdq |}.

(** The code of one detection path, and of no other. *)
Definition run_path (path : detection_path) (p : TwoPointParams) (read_noise_2 : arr2 float)
                    (nints ngroups nrows ncols : nat)
                    (first_diffs_masked : arr4 float) (dat : arr4 float) (gdq : arr4 Z)
  : result (arr4 float * arr4 Z * option statistic) :=
  match path with
  | SigmaClip => sigma_clip_path p first_diffs_masked dat
  | SinglePass => single_pass_path p read_noise_2 nrows ncols first_diffs_masked dat gdq
  | Iterative => iterative_path_branch p read_noise_2 nints ngroups nrows ncols dat gdq
  end.

End Detector.

(** ** The specification's conditions, in its own words *)

(** Section 4.1, the skip condition ("too few groups"). *)
Definition spec_skip_condition (p : TwoPointParams) (nints ngroups total_groups : Z) : Prop :=
  (only_use_ints p = true /\ ngroups < minimum_groups p /\ nints < minimum_sigclip_groups p)
  \/ (only_use_ints p = false /\ nints * ngroups < minimum_sigclip_groups p
      /\ total_groups < minimum_groups p).

(** Section 4.1, the total of usable groups. *)
Definition usable_groups (p : TwoPointParams) (nints ngroups : nat) (gdq : arr4 Z) : Z :=
  Z.of_nat nints * (Z.of_nat ngroups - compute_nflagged_groups gdq p).

(** Section 4.3 (a), eligibility of the sigma-clip path. *)
Definition spec_sigma_clip_eligible (p : TwoPointParams) (nints total_groups : Z) : Prop :=
  (only_use_ints p = true /\ minimum_sigclip_groups p <= nints)
  \/ (only_use_ints p = false /\ minimum_sigclip_groups p <= total_groups).

(** Section 4.3, the path chosen from the totals and the parameters. *)
Definition spec_detection_path (p : TwoPointParams) (nints total_groups total_usable_diffs : Z)
  : detection_path :=
  if decide (spec_sigma_clip_eligible p nints total_groups) then SigmaClip
  else if decide (min_diffs_single_pass p <= total_usable_diffs) then SinglePass
  else Iterative.

(** ** Vocabulary of the flagging theorems *)

(** A flag word after a neighbour or after-jump write: OR'd with the jump
    flag, unless it carries saturated or do-not-use. *)
Definition or_jump_if_clear (p : TwoPointParams) (x : Z) : Z :=
  if not_sat_dnu p x then Z.lor x (fl_jump p) else x.

(** [cur] is [gdq0] with exactly the samples selected by [cov] written. *)
Definition flagged_where (p : TwoPointParams) (cov : nat * nat * nat * nat -> bool)
                         (gdq0 cur : arr4 Z) : Prop :=
  forall i g r c,
    get4 cur i g r c
    = (fun x => if cov (i, g, r, c) then or_jump_if_clear p x else x) <$> get4 gdq0 i g r c.

(** [cur] is the spillover buffer [buf0] with the jump flag stored at
    exactly the positions selected by [cov]. *)
Definition spilled_where (p : TwoPointParams) (cov : nat * nat * nat -> bool)
                         (buf0 cur : arr3 Z) : Prop :=
  forall i g c,
    get3 cur i g c = (fun v => if cov (i, g, c) then fl_jump p else v) <$> get3 buf0 i g c.

(** *** After-jump flagging *)

(** The test [e_jump_4d[intg, group - 1, row, col] >= cthres] of a jump. *)
Definition energy_ok (e_jump_4d : arr4 float) (cthres : float) (cr : nat * nat * nat * nat) : bool :=
  let '(i, g, r, c) := cr in
  match py_get4 e_jump_4d i (Z.of_nat g - 1) r c with
  | Ok e => PrimFloat.leb cthres e
  | Raise _ => false
  end.

(** The jump [cr] makes the loop write the sample [idx]. *)
Definition after_jump_covers (e_jump_4d : arr4 float) (ngroups : nat) (cthres : float)
                             (cgroup : Z) (cr idx : nat * nat * nat * nat) : bool :=
  let '(i, g, r, c) := cr in
  energy_ok e_jump_4d cthres cr
  && existsb (fun kk => bool_decide ((i, kk, r, c) = idx)) (after_groups ngroups g cgroup).

(** Group [k] of pixel (r, c) in integration [i] lies within [cgroup]
    groups after a sample [g] that is jump-flagged in [gdq] and whose
    preceding difference from the median reaches [cthres]; [k] is a group
    of the array. *)
Definition after_jump_trigger (p : TwoPointParams) (e_jump_4d : arr4 float) (ngroups : nat)
                              (cthres : float) (cgroup : Z) (gdq : arr4 Z)
                              (i k r c : nat) : Prop :=
  exists g xg e,
    get4 gdq i g r c = Some xg /\ has_flag xg (fl_jump p) = true
    /\ py_get4 e_jump_4d i (Z.of_nat g - 1) r c = Ok e /\ PrimFloat.leb cthres e = true
    /\ (g <= k)%nat /\ Z.of_nat k <= Z.of_nat g + cgroup /\ (k < ngroups)%nat.

(** What one tier does to the quality array: with a positive group count
    every triggered sample is written and no other sample changes;
    otherwise the array is left as it is. *)
Definition after_jump_tier_post (p : TwoPointParams) (e_jump_4d : arr4 float) (ngroups : nat)
                                (tier : float * Z) (gdq gdq' : arr4 Z) : Prop :=
  if decide (0 < tier.2) then
    forall i k r c,
      match get4 gdq i k r c with
      | Some x =>
          (after_jump_trigger p e_jump_4d ngroups tier.1 tier.2 gdq i k r c ->
           get4 gdq' i k r c = Some (or_jump_if_clear p x))
          /\ (~ after_jump_trigger p e_jump_4d ngroups tier.1 tier.2 gdq i k r c ->
              get4 gdq' i k r c = Some x)
      | None => get4 gdq' i k r c = None
      end
  else gdq' = gdq.

(** *** Neighbour propagation *)

(** The window test on [ratio_all[integ, group - 1, row, col]] of a jump. *)
Definition window_ok (p : TwoPointParams) (ratio_all : arr4 float)
                     (cr : nat * nat * nat * nat) : bool :=
  let '(i, g, r, c) := cr in
  match py_get4 ratio_all i (Z.of_nat g - 1) r c with
  | Ok ratio => in_window p ratio
  | Raise _ => false
  end.

(** The jump [cr] makes the loop write the neighbour [idx]. *)
Definition neighbor_covers (p : TwoPointParams) (ratio_all : arr4 float) (nrows ncols : nat)
                           (cr idx : nat * nat * nat * nat) : bool :=
  let '(i, g, r, c) := cr in
  window_ok p ratio_all cr
  && ((negb (r =? 0)%nat && bool_decide ((i, g, (r - 1)%nat, c) = idx))
      || (negb (Z.of_nat r =? Z.of_nat nrows - 1) && bool_decide ((i, g, (r + 1)%nat, c) = idx))
      || (negb (c =? 0)%nat && bool_decide ((i, g, r, (c - 1)%nat) = idx))
      || (negb (Z.of_nat c =? Z.of_nat ncols - 1) && bool_decide ((i, g, r, (c + 1)%nat) = idx))).

(** The jump [cr] makes the loop store into the row-below buffer at [idx]. *)
Definition spill_below_covers (p : TwoPointParams) (ratio_all : arr4 float)
                              (cr : nat * nat * nat * nat) (idx : nat * nat * nat) : bool :=
  let '(i, g, r, c) := cr in
  window_ok p ratio_all cr && (r =? 0)%nat && bool_decide ((i, g, c) = idx).

(** The same for the row-above buffer. *)
Definition spill_above_covers (p : TwoPointParams) (ratio_all : arr4 float) (nrows : nat)
                              (cr : nat * nat * nat * nat) (idx : nat * nat * nat) : bool :=
  let '(i, g, r, c) := cr in
  window_ok p ratio_all cr && (Z.of_nat r =? Z.of_nat nrows - 1) && bool_decide ((i, g, c) = idx).

(** The loop invariant of the propagator after the jumps [seen]. *)
Definition neighbors_inv (p : TwoPointParams) (ratio_all : arr4 float) (nrows ncols : nat)
                         (gdq0 : arr4 Z) (below0 above0 : arr3 Z)
                         (seen : list (nat * nat * nat * nat))
                         (st : arr4 Z * arr3 Z * arr3 Z) : Prop :=
  flagged_where p (fun idx => existsb (fun cr => neighbor_covers p ratio_all nrows ncols cr idx) seen)
                gdq0 st.1.1
  /\ spilled_where p (fun idx => existsb (fun cr => spill_below_covers p ratio_all cr idx) seen)
                   below0 st.1.2
  /\ spilled_where p (fun idx => existsb (fun cr => spill_above_covers p ratio_all nrows cr idx) seen)
                   above0 st.2.

(** The sample (i, g, r0, c0) is jump-flagged in [gdq] and the ratio read
    for it, [ratio_all[i, g - 1, r0, c0]], lies strictly between the two
    neighbour thresholds. *)
Definition neighbor_trigger (p : TwoPointParams) (ratio_all : arr4 float) (gdq : arr4 Z)
                            (i g r0 c0 : nat) : Prop :=
  exists x ratio,
    get4 gdq i g r0 c0 = Some x /\ has_flag x (fl_jump p) = true
    /\ py_get4 ratio_all i (Z.of_nat g - 1) r0 c0 = Ok ratio
    /\ PrimFloat.ltb ratio (max_jump_to_flag_neighbors p) = true
    /\ PrimFloat.ltb (min_jump_to_flag_neighbors p) ratio = true.

(** (r0, c0) is one of the four spatial neighbours of (r, c). *)
Definition adjacent (r c r0 c0 : nat) : Prop :=
  (c0 = c /\ (r0 = S r \/ r = S r0)) \/ (r0 = r /\ (c0 = S c \/ c = S c0)).

(** *** Rectangular inputs *)

(** [cur] has a sample exactly where [gdq] has one. *)
Definition same_cells (gdq cur : arr4 Z) : Prop :=
  forall i g r c, is_Some (get4 cur i g r c) <-> is_Some (get4 gdq i g r c).

(** The arrays are rectangular enough for the after-jump loop: the
    difference read for every sample exists, and every pixel that has a
    sample has one in each of the [ngroups] groups. *)
Definition after_jump_ready (e_jump_4d : arr4 float) (ngroups : nat) (gdq : arr4 Z) : Prop :=
  (forall i g r c, is_Some (get4 gdq i g r c) ->
                   exists e, py_get4 e_jump_4d i (Z.of_nat g - 1) r c = Ok e)
  /\ (forall i g r c k, is_Some (get4 gdq i g r c) -> (k < ngroups)%nat ->
                        is_Some (get4 gdq i k r c)).

(** The arrays are rectangular enough for the neighbour loop: the ratio
    read for every sample exists, and the samples of each plane are those
    of an [nrows] x [ncols] grid. *)
Definition neighbors_ready (ratio_all : arr4 float) (nrows ncols : nat) (gdq : arr4 Z) : Prop :=
  (forall i g r c, is_Some (get4 gdq i g r c) ->
                   exists ratio, py_get4 ratio_all i (Z.of_nat g - 1) r c = Ok ratio)
  /\ (forall i g r c, is_Some (get4 gdq i g r c) -> (r < nrows)%nat /\ (c < ncols)%nat)
  /\ (forall i g r c r' c', is_Some (get4 gdq i g r c) -> (r' < nrows)%nat -> (c' < ncols)%nat ->
                            is_Some (get4 gdq i g r' c')).

(** *** Refinement loop *)

(** What one pass of the loop body does to the state: the marked
    differences are clipped, and either no jump is found, or one
    difference that was unmarked and is usable gets marked. *)
Definition pass_effect (st st' : pix_state) : Prop :=
  pix_first_diffs st' = clip_marked (pix_first_diffs st) (pix_cr_mask st)
  /\ ((new_CR_found st' = false /\ pix_cr_mask st' = pix_cr_mask st)
      \/ (new_CR_found st' = true
          /\ exists k d,
               pix_cr_mask st !! k = Some true
               /\ pix_cr_mask st' = <[k := false]> (pix_cr_mask st)
               /\ pix_first_diffs st' !! k = Some d /\ Np.isnan d = false)).

(** ** Vocabulary of the estimator theorems *)

(** The number of usable values of a vector of differences:
    [len(first_diffs) - np.sum(np.isnan(first_diffs))]. *)
Definition num_usable (d : list float) : Z :=
  Z.of_nat (length d) - Z.of_nat (Np.count_nan d).

(** The value is plus or minus infinity. *)
Definition is_infinite (x : float) : bool := PrimFloat.eqb (PrimFloat.abs x) Np.infinity.

(** [v] is a usable value of [d], and no usable value of [d] has a
    smaller magnitude. *)
Definition smallest_magnitude (d : list float) (v : float) : Prop :=
  v ∈ d /\ Np.isnan v = false
  /\ forall x, x ∈ d -> Np.isnan x = false ->
       PrimFloat.leb (PrimFloat.abs v) (PrimFloat.abs x) = true.

(** Every element of a 4-D array passes the test [P]. *)
Definition all4 {T} (P : T -> bool) (a : arr4 T) : bool :=
  forallb (forallb (forallb (forallb P))) a.

(** The place of a float that is not NaN in the order that [<=] decides:
    its class (minus infinity, negative, zero, positive, plus infinity),
    then exponent and mantissa, negated for a negative value. *)
Definition SFrank (f : spec_float) : Z * Z * Z :=
  match f with
  | S754_infinity true => (-2, 0, 0)
  | S754_finite true m e => (-1, - e, - Z.pos m)
  | S754_zero _ => (0, 0, 0)
  | S754_nan => (0, 0, 0)
  | S754_finite false m e => (1, e, Z.pos m)
  | S754_infinity false => (2, 0, 0)
  end.

Definition lex_le (a b : Z * Z * Z) : Prop :=
  a.1.1 < b.1.1
  \/ (a.1.1 = b.1.1 /\ (a.1.2 < b.1.2 \/ (a.1.2 = b.1.2 /\ a.2 <= b.2))).

(** ** Vocabulary of the detector theorems *)

(** [y] is [x] with bits of the jump flag OR'd into it, or [x] itself. *)
Definition jump_added (p : TwoPointParams) (x y : Z) : Prop :=
  exists k, y = Z.lor x k /\ Z.land k (fl_jump p) = k.

(** No sample of the first group of any integration carries the jump
    flag. *)
Definition no_jump_in_group0 (p : TwoPointParams) (gdq : arr4 Z) : bool :=
  forallb (fun integ => plane_all (fun x => negb (has_flag x (fl_jump p)))
                                  (default [] (head integ))) gdq.

(** The difference at this position of [first_diffs] is usable. *)
Definition usable_at (first_diffs : arr4 float) (i g r c : nat) : Prop :=
  exists v, get4 first_diffs i g r c = Some v /\ Np.isnan v = false.

(** The invariant of the loop over the candidate pixels of the iterative
    path.  [D0] is the cube of difference magnitudes and [gdq0] the
    quality array when the loop starts: the cube keeps its shape, a
    difference still usable has kept its value, and a quality word is as
    it was or has the jump flag OR'd in, the latter only after a
    difference that was usable. *)
Definition refine_inv (p : TwoPointParams) (ni nd nr nc : nat) (D0 : arr4 float)
                      (gdq0 : arr4 Z) (st : arr4 float * arr4 Z) : Prop :=
  has_shape4 st.1 ni nd nr nc
  /\ (forall i g r c v, get4 st.1 i g r c = Some v -> Np.isnan v = false ->
        get4 D0 i g r c = Some v)
  /\ (forall i g r c x, get4 gdq0 i g r c = Some x ->
        get4 st.2 i g r c = Some x
        \/ exists g', g = S g' /\ get4 st.2 i g r c = Some (Z.lor x (fl_jump p))
                       /\ usable_at D0 i g' r c).

(** ** Concrete inputs *)

Module Examples.

(** A parameter bundle with the flag values of the JWST pipeline
    (DO_NOT_USE 1, SATURATED 2, JUMP_DET 4), rejection thresholds 3, one
    frame per group and a neighbour window of (10, 1000). *)
Definition params (min_groups sigclip_groups single_pass_diffs : Z) (two_diff : float)
                  (e1 : float) (n1 : Z) (copy : bool) : TwoPointParams :=
  {| normal_rej_thresh := 3; two_diff_rej_thresh := two_diff; three_diff_rej_thresh := 3;
     nframes := 1; flag_4_neighbors := true;
     max_jump_to_flag_neighbors := 1000; min_jump_to_flag_neighbors := 10;
     fl_good := 0; fl_sat := 2; fl_jump := 4; fl_ngv := 8; fl_dnu := 1; fl_ref := 16;
     after_jump_flag_e1 := e1; after_jump_flag_n1 := n1;
     after_jump_flag_e2 := 0; after_jump_flag_n2 := 0;
     minimum_groups := min_groups; minimum_sigclip_groups := sigclip_groups;
     only_use_ints := false; min_diffs_single_pass := single_pass_diffs;
     copy_arrs := copy |}.

(** Stand-ins for the two astropy functions: nothing is clipped. *)
Definition no_stats : float -> bool -> arr4 float -> result (statistic * statistic * statistic) :=
  fun _ _ _ => Ok (Stat2 [], Stat2 [], Stat2 []).
Definition no_clip : float -> bool -> arr4 float -> result (arr4 bool) :=
  fun _ _ a => Ok (imap4 (fun _ _ _ _ _ => false) a).

(** One pixel, four signed differences, as a (1, 4, 1, 1) cube and as a
    vector. *)
Definition signed_cube : arr4 float :=
  [[ [[(-100)%float]]; [[1%float]]; [[2%float]]; [[3%float]] ]].
Definition signed_vector : list float := [(-100)%float; 1%float; 2%float; 3%float].

(** One pixel with two usable differences, -5 and 1, in the three shapes. *)
Definition two_vector : list float := [(-5)%float; 1%float].
Definition two_slab : arr2 float := [[(-5)%float; 1%float]].
Definition two_cube : arr4 float := [[ [[(-5)%float]]; [[1%float]] ]].

(** One integration of three groups of a single pixel, the middle sample
    saturated. *)
Definition short_ramp : arr4 float := [[ [[1%float]]; [[2%float]]; [[3%float]] ]].
Definition short_gdq : arr4 Z := [[ [[0]]; [[2]]; [[0]] ]].
Definition short_noise : arr2 float := [[5%float]].
(** minimum-groups 4 and minimum-sigma-clip-groups 10: the call is skipped. *)
Definition skip_params : TwoPointParams := params 4 10 10 3 0 0 false.

(** One integration of five groups of 1 x 2 pixels, a jump of 1000 in the
    first column at group 2. *)
Definition jump_ramp : arr4 float :=
  [[ [[0%float; 0%float]]; [[10%float; 10%float]]; [[1020%float; 20%float]];
     [[1030%float; 30%float]]; [[1040%float; 40%float]] ]].
Definition jump_gdq : arr4 Z := [[ [[0; 0]]; [[0; 0]]; [[0; 0]]; [[0; 0]]; [[0; 0]] ]].
Definition jump_noise : arr2 float := [[5%float; 5%float]].
(** minimum-sigma-clip-groups 1: the sigma-clip path is selected. *)
Definition sigclip_params : TwoPointParams := params 3 1 4 3 0 0 true.

(** One integration of four groups of a single pixel with zero read noise,
    first differences 20, 0 and 5. *)
Definition zero_noise_ramp : arr4 float := [[ [[0%float]]; [[20%float]]; [[20%float]]; [[25%float]] ]].
Definition zero_noise_gdq : arr4 Z := [[ [[0]]; [[0]]; [[0]]; [[0]] ]].
Definition zero_noise : arr2 float := [[0%float]].
(** Few differences, so the iterative path; two-difference threshold 1000. *)
Definition iterative_params : TwoPointParams := params 3 100 10 1000 0 0 false.

(** The refinement state of that pixel after its first jump was marked. *)
Definition zero_noise_state : pix_state :=
  {| pix_first_diffs := [20%float; 0%float; 5%float];
     pix_cr_mask := [false; true; true];
     new_CR_found := true |}.


(** Four groups of one pixel: a jump at group 1 of energy 100, the last
    group do-not-use; one tier of threshold 50 and two groups. *)
Definition after_gdq : arr4 Z := [[ [[0]]; [[4]]; [[0]]; [[1]] ]].
Definition after_e_jump : arr4 float := [[ [[100%float]]; [[0%float]]; [[0%float]] ]].
Definition after_params : TwoPointParams := params 3 100 10 3 50 2 false.

(** A vector with one usable difference. *)
Definition few_vector : list float := [PrimFloat.nan; 1%float].

(** A 1 x 5 slab with a clipped difference and four usable ones. *)
Definition nan_slab : arr2 float :=
  [[PrimFloat.nan; 1%float; 2%float; 3%float; 100%float]].


(** Four usable differences reach the single-pass minimum. *)
Definition single_pass_params : TwoPointParams := params 3 100 4 3 0 0 false.

(** A pixel of five differences, the first already marked as a jump. *)
Definition marked_diffs : list float := [20%float; 0%float; 5%float; 1%float; 2%float].
Definition marked_mask : list bool := [false; true; true; true; true].

(** The ramp with a jump, its last sample of the first column saturated. *)
Definition sat_ramp : arr4 float :=
  [[ [[0%float; 0%float]]; [[10%float; 10%float]]; [[1020%float; 20%float]];
     [[1030%float; 30%float]]; [[60000%float; 40%float]] ]].
Definition sat_gdq : arr4 Z := [[ [[0; 0]]; [[0; 0]]; [[0; 0]]; [[0; 0]]; [[2; 0]] ]].

(** One pixel with three difference magnitudes and their ratios, the
    first ratio the largest. *)
Definition pixel_diffs : arr4 float := [[ [[20%float]]; [[0%float]]; [[5%float]] ]].
Definition pixel_ratio : arr4 float := [[ [[50%float]]; [[0%float]]; [[1%float]] ]].

End Examples.

(** * Properties *)

(** ** Outcomes *)

Lemma bind_Ok {A B} (m : result A) (f : A -> result B) (b : B) :
  (m ≫= f) = Ok b -> exists a, m = Ok a /\ f a = Ok b.
Proof. destruct m as [a|e]; simpl; [eauto | discriminate]. Qed.


(** ** Floating-point facts: NaN propagates and compares false *)

Section FloatFacts.

Lemma SFcompare_refl f : f <> S754_nan -> SFcompare f f = Some Eq.
Proof.
  destruct f as [s|s| |s m e]; simpl; try congruence; intros _.
  - destruct s; reflexivity.
  - rewrite Z.compare_refl, Pos.compare_cont_refl. destruct s; reflexivity.
Qed.

Lemma isnan_spec x : Np.isnan x = true <-> Prim2SF x = S754_nan.
Proof.
  unfold Np.isnan, PrimFloat.is_nan. rewrite FloatAxioms.eqb_spec. unfold SFeqb. split.
  - intros H. destruct (Prim2SF x) eqn:E; try reflexivity;
      rewrite SFcompare_refl in H by congruence; discriminate.
  - intros ->. reflexivity.
Qed.

Lemma isnan_nan : Np.isnan PrimFloat.nan = true.
Proof. reflexivity. Qed.

Lemma isnan_sub_l x y : Np.isnan x = true -> Np.isnan (PrimFloat.sub x y) = true.
Proof.
  rewrite !isnan_spec, sub_spec. intros ->. reflexivity.
Qed.

Lemma isnan_abs x : Np.isnan x = true -> Np.isnan (PrimFloat.abs x) = true.
Proof.
  rewrite !isnan_spec, abs_spec. intros ->. reflexivity.
Qed.

Lemma isnan_div_l x y : Np.isnan x = true -> Np.isnan (PrimFloat.div x y) = true.
Proof.
  rewrite !isnan_spec, div_spec. intros ->. reflexivity.
Qed.

Lemma isnan_div_r x y : Np.isnan y = true -> Np.isnan (PrimFloat.div x y) = true.
Proof.
  rewrite !isnan_spec, div_spec. intros ->. unfold SF64div, SFdiv.
  destruct (Prim2SF x); reflexivity.
Qed.

Lemma ltb_nan_r x y : Np.isnan y = true -> PrimFloat.ltb x y = false.
Proof.
  rewrite isnan_spec, ltb_spec. intros ->. unfold SFltb, SFcompare.
  destruct (Prim2SF x); reflexivity.
Qed.

End FloatFacts.

(** ** Array reads after elementwise construction and after writes *)

Section ArrayFacts.
Context {T U : Type}.

Lemma get2_imap2 (f : nat -> nat -> T -> U) (a : arr2 T) r c :
  get2 (imap2 f a) r c = f r c <$> get2 a r c.
Proof.
  unfold get2, imap2. rewrite list_lookup_imap.
  destruct (a !! r) as [row|]; simpl; [|reflexivity].
  apply list_lookup_imap.
Qed.

Lemma get3_imap3 (f : nat -> nat -> nat -> T -> U) (a : arr3 T) g r c :
  get3 (imap3 f a) g r c = f g r c <$> get3 a g r c.
Proof.
  unfold get3, imap3. rewrite list_lookup_imap.
  destruct (a !! g) as [pl|]; simpl; [|reflexivity].
  apply get2_imap2.
Qed.

Lemma get4_imap4 (f : nat -> nat -> nat -> nat -> T -> U) (a : arr4 T) i g r c :
  get4 (imap4 f a) i g r c = f i g r c <$> get4 a i g r c.
Proof.
  unfold get4, imap4. rewrite list_lookup_imap.
  destruct (a !! i) as [x|]; simpl; [|reflexivity].
  apply get3_imap3.
Qed.

End ArrayFacts.

Lemma get4_nan_where fl gdq dat i g r c :
  get4 (nan_where fl gdq dat) i g r c
  = (fun x => if has_flag (getz4 gdq i g r c) fl then PrimFloat.nan else x) <$> get4 dat i g r c.
Proof. apply get4_imap4. Qed.


Lemma elem_of_imap_pair {A} (l : list A) (y : nat * A) :
  y ∈ imap pair l <-> l !! y.1 = Some y.2.
Proof.
  rewrite list_elem_of_lookup. split.
  - intros [k Hk]. rewrite list_lookup_imap in Hk.
    destruct (l !! k) eqn:E; simplify_eq/=. done.
  - intros H. exists y.1. rewrite list_lookup_imap, H. by destruct y.
Qed.

Section ArraySetFacts.
Context {T : Type}.

Lemma get2_set2 (a : arr2 T) r c v r' c' :
  get2 (set2 a r c v) r' c'
  = (fun x => if bool_decide ((r, c) = (r', c')) then v else x) <$> get2 a r' c'.
Proof.
  unfold get2, set2. destruct (decide (r = r')) as [<-|Hr].
  - rewrite list_lookup_alter_eq. destruct (a !! r) as [row|]; simpl; [|reflexivity].
    destruct (decide (c = c')) as [<-|Hc].
    + rewrite bool_decide_eq_true_2 by reflexivity.
      destruct (row !! c) eqn:E; simpl.
      * apply list_lookup_insert_eq. eapply lookup_lt_Some; eauto.
      * apply lookup_ge_None. rewrite length_insert. apply lookup_ge_None; auto.
    + rewrite bool_decide_eq_false_2 by congruence.
      rewrite list_lookup_insert_ne by auto. destruct (row !! c'); reflexivity.
  - rewrite list_lookup_alter_ne by auto. rewrite bool_decide_eq_false_2 by congruence.
    destruct (a !! r') as [row|]; simpl; [|reflexivity]. destruct (row !! c'); reflexivity.
Qed.

Lemma get3_set3 (a : arr3 T) g r c v g' r' c' :
  get3 (set3 a g r c v) g' r' c'
  = (fun x => if bool_decide ((g, r, c) = (g', r', c')) then v else x) <$> get3 a g' r' c'.
Proof.
  unfold get3, set3. destruct (decide (g = g')) as [<-|Hg].
  - rewrite list_lookup_alter_eq. destruct (a !! g) as [pl|]; simpl; [|reflexivity].
    rewrite get2_set2. destruct (get2 pl r' c'); simpl; [|reflexivity].
    f_equal. destruct (decide ((r, c) = (r', c'))) as [E|E].
    + rewrite !bool_decide_eq_true_2; congruence.
    + rewrite !bool_decide_eq_false_2; congruence.
  - rewrite list_lookup_alter_ne by auto. rewrite bool_decide_eq_false_2 by congruence.
    destruct (a !! g') as [pl|]; simpl; [|reflexivity]. destruct (get2 pl r' c'); reflexivity.
Qed.

Lemma get4_set4 (a : arr4 T) i g r c v i' g' r' c' :
  get4 (set4 a i g r c v) i' g' r' c'
  = (fun x => if bool_decide ((i, g, r, c) = (i', g', r', c')) then v else x)
      <$> get4 a i' g' r' c'.
Proof.
  unfold get4, set4. destruct (decide (i = i')) as [<-|Hi].
  - rewrite list_lookup_alter_eq. destruct (a !! i) as [x|]; simpl; [|reflexivity].
    rewrite get3_set3. destruct (get3 x g' r' c'); simpl; [|reflexivity].
    f_equal. destruct (decide ((g, r, c) = (g', r', c'))) as [E|E].
    + rewrite !bool_decide_eq_true_2; congruence.
    + rewrite !bool_decide_eq_false_2; congruence.
  - rewrite list_lookup_alter_ne by auto. rewrite bool_decide_eq_false_2 by congruence.
    destruct (a !! i') as [x|]; simpl; [|reflexivity]. destruct (get3 x g' r' c'); reflexivity.
Qed.

Lemma elem_of_where4 (P : T -> bool) (a : arr4 T) i g r c :
  (i, g, r, c) ∈ where4 P a <-> exists x, get4 a i g r c = Some x /\ P x = true.
Proof.
  unfold where4, get4, get3, get2. split.
  - intros H.
    apply list_elem_of_bind in H as ([i0 x] & H & Hi%elem_of_imap_pair).
    apply list_elem_of_bind in H as ([g0 y] & H & Hg%elem_of_imap_pair).
    apply list_elem_of_bind in H as ([r0 z] & H & Hr%elem_of_imap_pair).
    apply list_elem_of_bind in H as ([c0 v] & H & Hc%elem_of_imap_pair).
    simpl in *. destruct (P v) eqn:HP; [|by apply elem_of_nil in H].
    apply list_elem_of_singleton in H. simplify_eq.
    exists v. rewrite Hi; simpl. rewrite Hg; simpl. rewrite Hr; simpl. auto.
  - intros (v & H & HP).
    destruct (a !! i) as [x|] eqn:Hi; simpl in H; [|done].
    destruct (x !! g) as [y|] eqn:Hg; simpl in H; [|done].
    destruct (y !! r) as [z|] eqn:Hr; simpl in H; [|done].
    apply list_elem_of_bind. exists (i, x). split; [|by apply elem_of_imap_pair].
    apply list_elem_of_bind. exists (g, y). split; [|by apply elem_of_imap_pair].
    apply list_elem_of_bind. exists (r, z). split; [|by apply elem_of_imap_pair].
    apply list_elem_of_bind. exists (c, v). split; [|by apply elem_of_imap_pair].
    simpl. rewrite HP. by apply list_elem_of_singleton.
Qed.

End ArraySetFacts.

(** ** Loops with an invariant, and the guarded flag write *)

Lemma for_each_invariant {S B} (body : S -> B -> result S) (Inv : list B -> S -> Prop) :
  (forall seen x s s', Inv seen s -> body s x = Ok s' -> Inv (seen ++ [x]) s') ->
  forall items seen s fin,
    Inv seen s -> for_each body s items = Ok fin -> Inv (seen ++ items) fin.
Proof.
  intros Hstep items. induction items as [|x rest IH]; intros seen s fin Hinv Hrun.
  - simpl in Hrun. injection Hrun as <-. by rewrite app_nil_r.
  - simpl in Hrun. apply bind_Ok in Hrun as (s' & Hb & Hrest).
    replace (seen ++ x :: rest) with ((seen ++ [x]) ++ rest) by (by rewrite <- app_assoc).
    eapply IH; eauto.
Qed.

Lemma or_jump_if_clear_idem p x :
  or_jump_if_clear p (or_jump_if_clear p x) = or_jump_if_clear p x.
Proof.
  unfold or_jump_if_clear. destruct (not_sat_dnu p x) eqn:E; [|by rewrite E].
  destruct (not_sat_dnu p (Z.lor x (fl_jump p))); [|done].
  rewrite <- Z.lor_assoc. f_equal. apply Z.lor_diag.
Qed.

Lemma flag_if_clear_get p gdq i g r c gdq' :
  flag_if_clear p gdq i g r c = Ok gdq' ->
  forall i' g' r' c',
    get4 gdq' i' g' r' c'
    = (fun x => if bool_decide ((i, g, r, c) = (i', g', r', c')) then or_jump_if_clear p x else x)
        <$> get4 gdq i' g' r' c'.
Proof.
  unfold flag_if_clear. intros H i' g' r' c'.
  apply bind_Ok in H as (x & Hx & H).
  destruct (get4 gdq i g r c) as [x0|] eqn:Hget; simpl in Hx; [|discriminate].
  injection Hx as ->.
  destruct (decide ((i, g, r, c) = (i', g', r', c'))) as [E|E].
  - injection E as <- <- <- <-. rewrite Hget. simpl.
    rewrite bool_decide_eq_true_2 by done. unfold or_jump_if_clear.
    destruct (not_sat_dnu p x); injection H as <-.
    + rewrite get4_set4, Hget. simpl. by rewrite bool_decide_eq_true_2.
    + done.
  - rewrite bool_decide_eq_false_2 by done.
    destruct (not_sat_dnu p x); injection H as <-.
    + rewrite get4_set4. rewrite bool_decide_eq_false_2 by done.
      by destruct (get4 gdq i' g' r' c').
    + by destruct (get4 gdq i' g' r' c').
Qed.

Lemma flagged_where_refl p gdq : flagged_where p (fun _ => false) gdq gdq.
Proof. intros i g r c. by destruct (get4 gdq i g r c). Qed.

Lemma flagged_where_ext p cov cov' gdq0 cur :
  (forall idx, cov idx = cov' idx) -> flagged_where p cov gdq0 cur -> flagged_where p cov' gdq0 cur.
Proof. intros E H i g r c. rewrite H. by rewrite E. Qed.

Lemma flagged_where_step p cov gdq0 cur i g r c cur' :
  flagged_where p cov gdq0 cur ->
  flag_if_clear p cur i g r c = Ok cur' ->
  flagged_where p (fun idx => cov idx || bool_decide ((i, g, r, c) = idx)) gdq0 cur'.
Proof.
  intros H Hf i' g' r' c'. rewrite (flag_if_clear_get _ _ _ _ _ _ _ Hf), H.
  destruct (get4 gdq0 i' g' r' c') as [x|]; simpl; [|done]. f_equal.
  destruct (cov (i', g', r', c')), (bool_decide _); simpl; try done.
  apply or_jump_if_clear_idem.
Qed.

Lemma flagged_where_run p i r c kks : forall cov gdq0 cur cur',
  flagged_where p cov gdq0 cur ->
  for_each (fun gdq kk => flag_if_clear p gdq i kk r c) cur kks = Ok cur' ->
  flagged_where p
    (fun idx => cov idx || existsb (fun kk => bool_decide ((i, kk, r, c) = idx)) kks) gdq0 cur'.
Proof.
  induction kks as [|kk rest IH]; intros cov gdq0 cur cur' H Hrun; simpl in Hrun.
  - injection Hrun as <-. eapply flagged_where_ext; [|exact H].
    intros idx. simpl. by rewrite orb_false_r.
  - apply bind_Ok in Hrun as (mid & Hf & Hrest).
    eapply flagged_where_ext; [|eapply IH; [eapply flagged_where_step; eauto|exact Hrest]].
    intros idx. simpl. by rewrite orb_assoc.
Qed.

Lemma after_jump_step_covers p e_jump_4d ngroups cthres cgroup gdq0 cur cr cur' cov :
  flagged_where p cov gdq0 cur ->
  after_jump_step p e_jump_4d ngroups cthres cgroup cur cr = Ok cur' ->
  flagged_where p
    (fun idx => cov idx || after_jump_covers e_jump_4d ngroups cthres cgroup cr idx) gdq0 cur'.
Proof.
  intros H Hs. destruct cr as [[[i g] r] c]. unfold after_jump_step in Hs.
  apply bind_Ok in Hs as (e & He & Hs).
  unfold after_jump_covers, energy_ok. rewrite He.
  destruct (PrimFloat.leb cthres e).
  - eapply flagged_where_run in Hs; eauto.
  - injection Hs as <-. eapply flagged_where_ext; [|exact H].
    intros idx. simpl. by rewrite orb_false_r.
Qed.

Lemma after_jump_tier_covers p e_jump_4d ngroups cthres cgroup gdq gdq' :
  0 < cgroup ->
  after_jump_tier p e_jump_4d ngroups gdq (cthres, cgroup) = Ok gdq' ->
  flagged_where p
    (fun idx => existsb (fun cr => after_jump_covers e_jump_4d ngroups cthres cgroup cr idx)
                        (where4 (fun x => has_flag x (fl_jump p)) gdq)) gdq gdq'.
Proof.
  intros Hc H. unfold after_jump_tier in H.
  replace (0 <? cgroup) with true in H by lia.
  set (Inv := fun (seen : list (nat * nat * nat * nat)) (cur : arr4 Z) =>
    flagged_where p
      (fun idx => existsb (fun cr => after_jump_covers e_jump_4d ngroups cthres cgroup cr idx) seen)
      gdq cur).
  assert (Hstep : forall seen x s s', Inv seen s ->
            after_jump_step p e_jump_4d ngroups cthres cgroup s x = Ok s' -> Inv (seen ++ [x]) s').
  { intros seen x s s' Hd Hb. eapply flagged_where_ext; [|eapply after_jump_step_covers; eauto].
    intros idx. simpl. rewrite existsb_app. simpl. by rewrite orb_false_r. }
  exact (for_each_invariant _ Inv Hstep _ [] _ _ (flagged_where_refl p gdq) H).
Qed.

(** ** After-jump flagging *)

Lemma existsb_true_iff {A} (f : A -> bool) (l : list A) :
  existsb f l = true <-> exists x, x ∈ l /\ f x = true.
Proof.
  rewrite existsb_exists. split; intros (x & H1 & H2); exists x; split; auto;
    by apply list_elem_of_In.
Qed.

Lemma elem_of_after_groups ngroups g cgroup k :
  k ∈ after_groups ngroups g cgroup
  <-> (g <= k)%nat /\ Z.of_nat k <= Z.of_nat g + cgroup /\ (k < ngroups)%nat.
Proof.
  unfold after_groups, py_range. rewrite elem_of_seq. lia.
Qed.

Lemma after_jump_covers_spec p e_jump_4d ngroups cthres cgroup gdq i k r c :
  existsb (fun cr => after_jump_covers e_jump_4d ngroups cthres cgroup cr (i, k, r, c))
          (where4 (fun x => has_flag x (fl_jump p)) gdq) = true
  <-> after_jump_trigger p e_jump_4d ngroups cthres cgroup gdq i k r c.
Proof.
  rewrite existsb_true_iff. unfold after_jump_trigger. split.
  - intros ([[[i0 g] r0] c0] & Hin & Hc).
    apply elem_of_where4 in Hin as (xg & Hget & Hfl).
    unfold after_jump_covers, energy_ok in Hc. apply andb_true_iff in Hc as [He Hk].
    apply existsb_true_iff in Hk as (kk & Hkk & Heq).
    apply bool_decide_eq_true in Heq. injection Heq as -> -> -> ->.
    apply elem_of_after_groups in Hkk.
    destruct (py_get4 e_jump_4d i (Z.of_nat g - 1) r c) as [e|] eqn:E; [|discriminate].
    exists g, xg, e. tauto.
  - intros (g & xg & e & Hget & Hfl & He & Hle & Hk).
    exists (i, g, r, c). split; [apply elem_of_where4; eauto|].
    unfold after_jump_covers, energy_ok. rewrite He, Hle. simpl.
    apply existsb_true_iff. exists k. split; [by apply elem_of_after_groups|].
    by apply bool_decide_eq_true.
Qed.

Lemma after_jump_tier_meets_post p e_jump_4d ngroups gdq tier gdq' :
  after_jump_tier p e_jump_4d ngroups gdq tier = Ok gdq' ->
  after_jump_tier_post p e_jump_4d ngroups tier gdq gdq'.
Proof.
  destruct tier as [cthres cgroup]. intros H. unfold after_jump_tier_post. simpl.
  destruct (decide (0 < cgroup)) as [Hc|Hc].
  - pose proof (after_jump_tier_covers _ _ _ _ _ _ _ Hc H) as Hcov.
    intros i k r c. rewrite (Hcov i k r c).
    destruct (get4 gdq i k r c) as [x|]; simpl; [|done].
    pose proof (after_jump_covers_spec p e_jump_4d ngroups cthres cgroup gdq i k r c) as Hs.
    destruct (existsb _ _); split; intros Ht; try done.
    + exfalso. apply Ht. by apply Hs.
    + apply Hs in Ht. discriminate.
  - unfold after_jump_tier in H. replace (0 <? cgroup) with false in H by lia.
    by injection H.
Qed.

(** The effect of the two tiers on a run that returns. *)
Lemma flag_after_jumps_effect p e_jump_4d ngroups gdq gdq2 :
  flag_after_jumps p e_jump_4d ngroups gdq = Ok gdq2 ->
  exists gdq1,
    after_jump_tier_post p e_jump_4d ngroups
      (after_jump_flag_e1 p, after_jump_flag_n1 p) gdq gdq1
    /\ after_jump_tier_post p e_jump_4d ngroups
         (after_jump_flag_e2 p, after_jump_flag_n2 p) gdq1 gdq2.
Proof.
  unfold flag_after_jumps. simpl. intros H.
  apply bind_Ok in H as (gdq1 & H1 & H).
  apply bind_Ok in H as (gdq2' & H2 & H). injection H as ->.
  exists gdq1. split; by apply after_jump_tier_meets_post.
Qed.

(** ** Neighbour propagation *)

Lemma flagged_where_cond_step p cov gdq0 cur (b : bool) i g r c cur' :
  flagged_where p cov gdq0 cur ->
  (if b then flag_if_clear p cur i g r c else Ok cur) = Ok cur' ->
  flagged_where p (fun idx => cov idx || (b && bool_decide ((i, g, r, c) = idx))) gdq0 cur'.
Proof.
  intros H Hs. destruct b; simpl.
  - eapply flagged_where_step; eauto.
  - injection Hs as <-. eapply flagged_where_ext; [|exact H]. intros idx. by rewrite orb_false_r.
Qed.

Lemma spilled_where_refl p buf : spilled_where p (fun _ => false) buf buf.
Proof. intros i g c. by destruct (get3 buf i g c). Qed.

Lemma spilled_where_ext p cov cov' buf0 cur :
  (forall idx, cov idx = cov' idx) -> spilled_where p cov buf0 cur -> spilled_where p cov' buf0 cur.
Proof. intros E H i g c. rewrite H. by rewrite E. Qed.

Lemma spilled_where_set p cov buf0 cur i g c :
  spilled_where p cov buf0 cur ->
  spilled_where p (fun idx => cov idx || bool_decide ((i, g, c) = idx)) buf0
                (set3 cur i g c (fl_jump p)).
Proof.
  intros H i' g' c'. rewrite get3_set3, H.
  destruct (get3 buf0 i' g' c') as [v|]; simpl; [|done]. f_equal.
  destruct (bool_decide _), (cov _); done.
Qed.

Lemma existsb_snoc {A} (f : A -> bool) (l : list A) (x : A) :
  existsb f (l ++ [x]) = existsb f l || f x.
Proof. rewrite existsb_app. simpl. by rewrite orb_false_r. Qed.

Lemma neighbor_covers_unfold p ratio_all nrows ncols i g r c idx :
  neighbor_covers p ratio_all nrows ncols (i, g, r, c) idx
  = window_ok p ratio_all (i, g, r, c)
    && ((negb (r =? 0)%nat && bool_decide ((i, g, (r - 1)%nat, c) = idx))
        || (negb (Z.of_nat r =? Z.of_nat nrows - 1) && bool_decide ((i, g, (r + 1)%nat, c) = idx))
        || (negb (c =? 0)%nat && bool_decide ((i, g, r, (c - 1)%nat) = idx))
        || (negb (Z.of_nat c =? Z.of_nat ncols - 1) && bool_decide ((i, g, r, (c + 1)%nat) = idx))).
Proof. reflexivity. Qed.

Lemma spill_below_covers_unfold p ratio_all i g r c idx :
  spill_below_covers p ratio_all (i, g, r, c) idx
  = window_ok p ratio_all (i, g, r, c) && (r =? 0)%nat && bool_decide ((i, g, c) = idx).
Proof. reflexivity. Qed.

Lemma spill_above_covers_unfold p ratio_all nrows i g r c idx :
  spill_above_covers p ratio_all nrows (i, g, r, c) idx
  = window_ok p ratio_all (i, g, r, c) && (Z.of_nat r =? Z.of_nat nrows - 1)
    && bool_decide ((i, g, c) = idx).
Proof. reflexivity. Qed.

Lemma flag_neighbors_step_inv p ratio_all nrows ncols gdq0 below0 above0 seen cr st st' :
  neighbors_inv p ratio_all nrows ncols gdq0 below0 above0 seen st ->
  flag_neighbors_step p ratio_all nrows ncols st cr = Ok st' ->
  neighbors_inv p ratio_all nrows ncols gdq0 below0 above0 (seen ++ [cr]) st'.
Proof.
  destruct st as [[gdq below] above]. destruct cr as [[[i g] r] c].
  intros (Hg & Hb & Ha) Hs. simpl in Hg, Hb, Ha.
  unfold flag_neighbors_step in Hs.
  apply bind_Ok in Hs as (ratio & Hr & Hs).
  assert (Hw : window_ok p ratio_all (i, g, r, c) = in_window p ratio).
  { unfold window_ok. by rewrite Hr. }
  unfold neighbors_inv.
  destruct (in_window p ratio) eqn:Hin.
  - apply bind_Ok in Hs as ([gdq1 below1] & H1 & Hs).
    apply bind_Ok in Hs as ([gdq2 above2] & H2 & Hs).
    apply bind_Ok in Hs as (gdq3 & H3 & Hs).
    apply bind_Ok in Hs as (gdq4 & H4 & Hs).
    injection Hs as <-. simpl.
    (* row - 1 or the row-below buffer *)
    assert (Hg1 : flagged_where p (fun idx =>
              existsb (fun cr => neighbor_covers p ratio_all nrows ncols cr idx) seen
              || (negb (r =? 0)%nat && bool_decide ((i, g, (r - 1)%nat, c) = idx))) gdq0 gdq1
            /\ spilled_where p (fun idx =>
                 existsb (fun cr => spill_below_covers p ratio_all cr idx) seen
                 || ((r =? 0)%nat && bool_decide ((i, g, c) = idx))) below0 below1).
    { destruct (r =? 0)%nat; simpl in H1.
      - injection H1 as <- <-. split.
        + eapply flagged_where_ext; [|exact Hg]. intros idx. by rewrite orb_false_r.
        + by apply spilled_where_set.
      - apply bind_Ok in H1 as (gdq' & Hf & H1). injection H1 as <- <-. split.
        + eapply flagged_where_step; eauto.
        + eapply spilled_where_ext; [|exact Hb]. intros idx. by rewrite orb_false_r. }
    destruct Hg1 as [Hg1 Hb1].
    assert (Hg2 : flagged_where p (fun idx =>
              (existsb (fun cr => neighbor_covers p ratio_all nrows ncols cr idx) seen
               || (negb (r =? 0)%nat && bool_decide ((i, g, (r - 1)%nat, c) = idx)))
              || (negb (Z.of_nat r =? Z.of_nat nrows - 1)
                  && bool_decide ((i, g, (r + 1)%nat, c) = idx))) gdq0 gdq2
            /\ spilled_where p (fun idx =>
                 existsb (fun cr => spill_above_covers p ratio_all nrows cr idx) seen
                 || ((Z.of_nat r =? Z.of_nat nrows - 1) && bool_decide ((i, g, c) = idx)))
                 above0 above2).
    { destruct (Z.of_nat r =? Z.of_nat nrows - 1); simpl in H2.
      - injection H2 as <- <-. split.
        + eapply flagged_where_ext; [|exact Hg1]. intros idx. by rewrite orb_false_r.
        + by apply spilled_where_set.
      - apply bind_Ok in H2 as (gdq' & Hf & H2). injection H2 as <- <-. split.
        + eapply flagged_where_step; eauto.
        + eapply spilled_where_ext; [|exact Ha]. intros idx. by rewrite orb_false_r. }
    destruct Hg2 as [Hg2 Ha2].
    pose proof (flagged_where_cond_step _ _ _ _ _ _ _ _ _ _ Hg2 H3) as Hg3.
    pose proof (flagged_where_cond_step _ _ _ _ _ _ _ _ _ _ Hg3 H4) as Hg4.
    split; [|split].
    + eapply flagged_where_ext; [|exact Hg4]. intros idx.
      rewrite existsb_snoc, neighbor_covers_unfold, Hw. simpl. by rewrite !orb_assoc.
    + eapply spilled_where_ext; [|exact Hb1]. intros idx.
      rewrite existsb_snoc, spill_below_covers_unfold, Hw. done.
    + eapply spilled_where_ext; [|exact Ha2]. intros idx.
      rewrite existsb_snoc, spill_above_covers_unfold, Hw. done.
  - injection Hs as <-. simpl. split; [|split].
    + eapply flagged_where_ext; [|exact Hg]. intros idx.
      rewrite existsb_snoc, neighbor_covers_unfold, Hw. simpl. by rewrite orb_false_r.
    + eapply spilled_where_ext; [|exact Hb]. intros idx.
      rewrite existsb_snoc, spill_below_covers_unfold, Hw. simpl. by rewrite orb_false_r.
    + eapply spilled_where_ext; [|exact Ha]. intros idx.
      rewrite existsb_snoc, spill_above_covers_unfold, Hw. simpl. by rewrite orb_false_r.
Qed.

Lemma window_ok_trigger p ratio_all gdq i g r c :
  (i, g, r, c) ∈ where4 (fun x => has_flag x (fl_jump p)) gdq ->
  window_ok p ratio_all (i, g, r, c) = true ->
  neighbor_trigger p ratio_all gdq i g r c.
Proof.
  intros (x & Hx & Hf)%elem_of_where4 Hw. unfold window_ok in Hw.
  destruct (py_get4 ratio_all i (Z.of_nat g - 1) r c) as [ratio|] eqn:E; [|discriminate].
  unfold in_window in Hw. apply andb_true_iff in Hw as [H1 H2].
  exists x, ratio. auto.
Qed.

Lemma trigger_window_ok p ratio_all gdq i g r c :
  neighbor_trigger p ratio_all gdq i g r c ->
  (i, g, r, c) ∈ where4 (fun x => has_flag x (fl_jump p)) gdq
  /\ window_ok p ratio_all (i, g, r, c) = true.
Proof.
  intros (x & ratio & Hx & Hf & Hr & H1 & H2). split.
  - apply elem_of_where4. eauto.
  - unfold window_ok, in_window. by rewrite Hr, H1, H2.
Qed.

Lemma neighbor_covers_adjacent p ratio_all nrows ncols gdq i g r c :
  existsb (fun cr => neighbor_covers p ratio_all nrows ncols cr (i, g, r, c))
          (where4 (fun x => has_flag x (fl_jump p)) gdq) = true ->
  exists r0 c0, adjacent r c r0 c0 /\ neighbor_trigger p ratio_all gdq i g r0 c0.
Proof.
  intros ([[[i0 g0] r0] c0] & Hin & Hc)%existsb_true_iff.
  rewrite neighbor_covers_unfold in Hc. apply andb_true_iff in Hc as [Hw Hc].
  pose proof (window_ok_trigger _ _ _ _ _ _ _ Hin Hw) as Ht.
  rewrite !orb_true_iff, !andb_true_iff, !negb_true_iff, !bool_decide_eq_true in Hc.
  exists r0, c0.
  destruct Hc as [[[[Hn E]|[Hn E]]|[Hn E]]|[Hn E]]; injection E as -> -> <- <-.
  - apply Nat.eqb_neq in Hn. split; [left; split; [done|left; lia]|done].
  - split; [left; split; [done|right; lia]|done].
  - apply Nat.eqb_neq in Hn. split; [right; split; [done|left; lia]|done].
  - split; [right; split; [done|right; lia]|done].
Qed.

Lemma spill_below_covers_spec p ratio_all gdq i g c :
  existsb (fun cr => spill_below_covers p ratio_all cr (i, g, c))
          (where4 (fun x => has_flag x (fl_jump p)) gdq) = true
  <-> neighbor_trigger p ratio_all gdq i g 0 c.
Proof.
  rewrite existsb_true_iff. split.
  - intros ([[[i0 g0] r0] c0] & Hin & Hc).
    rewrite spill_below_covers_unfold in Hc.
    rewrite !andb_true_iff, bool_decide_eq_true in Hc. destruct Hc as [[Hw Hr] E].
    injection E as -> -> ->. apply Nat.eqb_eq in Hr as ->.
    by apply window_ok_trigger.
  - intros [Hin Hw]%trigger_window_ok. exists (i, g, 0%nat, c). split; [done|].
    rewrite spill_below_covers_unfold, Hw. simpl. by apply bool_decide_eq_true.
Qed.

Lemma spill_above_covers_spec p ratio_all nrows gdq i g c :
  existsb (fun cr => spill_above_covers p ratio_all nrows cr (i, g, c))
          (where4 (fun x => has_flag x (fl_jump p)) gdq) = true
  <-> exists r0, Z.of_nat r0 = Z.of_nat nrows - 1 /\ neighbor_trigger p ratio_all gdq i g r0 c.
Proof.
  rewrite existsb_true_iff. split.
  - intros ([[[i0 g0] r0] c0] & Hin & Hc).
    rewrite spill_above_covers_unfold in Hc.
    rewrite !andb_true_iff, bool_decide_eq_true in Hc. destruct Hc as [[Hw Hr] E].
    injection E as -> -> ->. exists r0. split; [lia|]. by apply window_ok_trigger.
  - intros (r0 & Hr & [Hin Hw]%trigger_window_ok). exists (i, g, r0, c). split; [done|].
    rewrite spill_above_covers_unfold, Hw. simpl.
    apply andb_true_iff. split; [lia|by apply bool_decide_eq_true].
Qed.

Lemma flag_neighbors_inv p ratio_all nrows ncols gdq below above st :
  flag_4_neighbors p = true ->
  flag_neighbors p ratio_all nrows ncols gdq below above = Ok st ->
  neighbors_inv p ratio_all nrows ncols gdq below above
                (where4 (fun x => has_flag x (fl_jump p)) gdq) st.
Proof.
  intros Hf H. unfold flag_neighbors in H. rewrite Hf in H.
  assert (Hstep : forall seen x s s',
            neighbors_inv p ratio_all nrows ncols gdq below above seen s ->
            flag_neighbors_step p ratio_all nrows ncols s x = Ok s' ->
            neighbors_inv p ratio_all nrows ncols gdq below above (seen ++ [x]) s').
  { intros. eapply flag_neighbors_step_inv; eauto. }
  refine (for_each_invariant _ _ Hstep _ [] _ _ _ H).
  split; [|split]; simpl.
  - apply flagged_where_refl.
  - apply spilled_where_refl.
  - apply spilled_where_refl.
Qed.

(** The effect of the propagator on a run that returns. *)
Lemma flag_neighbors_effect p ratio_all nrows ncols gdq below above gdq' below' above' :
  flag_neighbors p ratio_all nrows ncols gdq below above = Ok (gdq', below', above') ->
  (forall i g r c x, get4 gdq i g r c = Some x ->
     get4 gdq' i g r c = Some x
     \/ (get4 gdq' i g r c = Some (Z.lor x (fl_jump p))
         /\ not_sat_dnu p x = true
         /\ exists r0 c0, adjacent r c r0 c0 /\ neighbor_trigger p ratio_all gdq i g r0 c0))
  /\ (forall i g r c x, get4 gdq i g r c = Some x -> not_sat_dnu p x = false ->
        get4 gdq' i g r c = Some x)
  /\ (forall i g c v, get3 below i g c = Some v ->
        get3 below' i g c = Some v
        \/ (get3 below' i g c = Some (fl_jump p)
            /\ neighbor_trigger p ratio_all gdq i g 0 c))
  /\ (forall i g c v, get3 above i g c = Some v ->
        get3 above' i g c = Some v
        \/ (get3 above' i g c = Some (fl_jump p)
            /\ exists r0, Z.of_nat r0 = Z.of_nat nrows - 1
                          /\ neighbor_trigger p ratio_all gdq i g r0 c))
  /\ (flag_4_neighbors p = true ->
      forall i g c, is_Some (get3 below i g c) ->
        neighbor_trigger p ratio_all gdq i g 0 c -> get3 below' i g c = Some (fl_jump p))
  /\ (flag_4_neighbors p = true ->
      forall i g c r0, is_Some (get3 above i g c) ->
        Z.of_nat r0 = Z.of_nat nrows - 1 ->
        neighbor_trigger p ratio_all gdq i g r0 c -> get3 above' i g c = Some (fl_jump p)).
Proof.
  intros H. destruct (flag_4_neighbors p) eqn:Hf.
  - destruct (flag_neighbors_inv _ _ _ _ _ _ _ _ Hf H) as (Hg & Hb & Ha). simpl in Hg, Hb, Ha.
    repeat split.
    + intros i g r c x Hx. rewrite Hg, Hx. simpl.
      destruct (existsb _ _) eqn:E; [|by left].
      unfold or_jump_if_clear. destruct (not_sat_dnu p x) eqn:Hc; [|by left].
      right. split; [done|]. split; [done|]. by eapply neighbor_covers_adjacent.
    + intros i g r c x Hx Hc. rewrite Hg, Hx. simpl.
      unfold or_jump_if_clear. rewrite Hc. by destruct (existsb _ _).
    + intros i g c v Hv. rewrite Hb, Hv. simpl.
      destruct (existsb _ _) eqn:E; [|by left].
      right. split; [done|]. by apply spill_below_covers_spec.
    + intros i g c v Hv. rewrite Ha, Hv. simpl.
      destruct (existsb _ _) eqn:E; [|by left].
      right. split; [done|]. by apply (spill_above_covers_spec p ratio_all nrows gdq).
    + intros _ i g c [v Hv] Ht. rewrite Hb, Hv. simpl.
      apply spill_below_covers_spec in Ht. by rewrite Ht.
    + intros _ i g c r0 [v Hv] Hr Ht. rewrite Ha, Hv. simpl.
      assert (E : existsb (fun cr => spill_above_covers p ratio_all nrows cr (i, g, c))
                (where4 (fun x => has_flag x (fl_jump p)) gdq) = true).
      { apply spill_above_covers_spec. eauto. }
      by rewrite E.
  - unfold flag_neighbors in H. rewrite Hf in H. injection H as <- <- <-.
    repeat split; try discriminate; intros; auto.
Qed.

(** ** The flagging loops return on rectangular arrays *)

Lemma same_cells_refl gdq : same_cells gdq gdq.
Proof. by intros i g r c. Qed.

Lemma same_cells_trans a b c : same_cells a b -> same_cells b c -> same_cells a c.
Proof. intros H1 H2 i g r k. etrans; [apply H2|apply H1]. Qed.

Lemma flag_if_clear_returns p gdq i g r c :
  is_Some (get4 gdq i g r c) ->
  exists gdq', flag_if_clear p gdq i g r c = Ok gdq' /\ same_cells gdq gdq'.
Proof.
  intros [x Hx]. unfold flag_if_clear. rewrite Hx. simpl.
  destruct (not_sat_dnu p x); eexists; (split; [reflexivity|]).
  - intros i' g' r' c'. rewrite get4_set4. by rewrite fmap_is_Some.
  - apply same_cells_refl.
Qed.

Lemma flag_group_run_returns p i r c kks : forall gdq,
  (forall kk, kk ∈ kks -> is_Some (get4 gdq i kk r c)) ->
  exists gdq', for_each (fun gdq kk => flag_if_clear p gdq i kk r c) gdq kks = Ok gdq'
               /\ same_cells gdq gdq'.
Proof.
  induction kks as [|kk rest IH]; intros gdq Hk; simpl.
  - eexists. split; [reflexivity|apply same_cells_refl].
  - destruct (flag_if_clear_returns p gdq i kk r c) as (g1 & H1 & Hc1).
    { apply Hk. by left. }
    rewrite H1. simpl.
    destruct (IH g1) as (g2 & H2 & Hc2).
    { intros k Hin. apply Hc1. apply Hk. by right. }
    exists g2. split; [done|]. by eapply same_cells_trans.
Qed.

Lemma after_jump_ready_same_cells e_jump_4d ngroups gdq cur :
  same_cells gdq cur -> after_jump_ready e_jump_4d ngroups gdq ->
  after_jump_ready e_jump_4d ngroups cur.
Proof.
  intros Hc [HA HB]. split.
  - intros i g r c Hs. apply HA. by apply Hc.
  - intros i g r c k Hs Hk. apply Hc. eapply HB; [|done]. apply Hc. exact Hs.
Qed.

Lemma after_jump_step_returns p e_jump_4d ngroups cthres cgroup gdq cr :
  after_jump_ready e_jump_4d ngroups gdq ->
  is_Some (get4 gdq cr.1.1.1 cr.1.1.2 cr.1.2 cr.2) ->
  exists gdq', after_jump_step p e_jump_4d ngroups cthres cgroup gdq cr = Ok gdq'
               /\ same_cells gdq gdq'.
Proof.
  destruct cr as [[[i g] r] c]. simpl. intros [HA HB] Hs. unfold after_jump_step.
  destruct (HA i g r c Hs) as [e He]. rewrite He. simpl.
  destruct (PrimFloat.leb cthres e).
  - apply flag_group_run_returns. intros kk Hkk.
    apply elem_of_after_groups in Hkk. eapply HB; [exact Hs|lia].
  - eexists. split; [reflexivity|apply same_cells_refl].
Qed.

Lemma after_jump_crs_returns p e_jump_4d ngroups cthres cgroup gdq0 crs : forall gdq,
  same_cells gdq0 gdq ->
  after_jump_ready e_jump_4d ngroups gdq0 ->
  (forall cr, cr ∈ crs -> is_Some (get4 gdq0 cr.1.1.1 cr.1.1.2 cr.1.2 cr.2)) ->
  exists gdq', for_each (after_jump_step p e_jump_4d ngroups cthres cgroup) gdq crs = Ok gdq'
               /\ same_cells gdq0 gdq'.
Proof.
  induction crs as [|cr rest IH]; intros gdq Hc Hr Hin; simpl.
  - eexists. split; [reflexivity|done].
  - destruct (after_jump_step_returns p e_jump_4d ngroups cthres cgroup gdq cr)
      as (g1 & H1 & Hc1).
    { by eapply after_jump_ready_same_cells. }
    { apply Hc. apply Hin. by left. }
    rewrite H1. simpl. apply IH; [by eapply same_cells_trans|done|].
    intros cr' Hcr'. apply Hin. by right.
Qed.

Lemma after_jump_tier_returns p e_jump_4d ngroups gdq tier :
  after_jump_ready e_jump_4d ngroups gdq ->
  exists gdq', after_jump_tier p e_jump_4d ngroups gdq tier = Ok gdq' /\ same_cells gdq gdq'.
Proof.
  destruct tier as [cthres cgroup]. intros Hr. unfold after_jump_tier.
  destruct (0 <? cgroup).
  - apply after_jump_crs_returns; [apply same_cells_refl|done|].
    intros [[[i g] r] c] (x & Hx & _)%elem_of_where4. simpl. by rewrite Hx.
  - eexists. split; [reflexivity|apply same_cells_refl].
Qed.

Lemma flag_after_jumps_unfold p e_jump_4d ngroups gdq :
  flag_after_jumps p e_jump_4d ngroups gdq
  = (g1 ← after_jump_tier p e_jump_4d ngroups gdq (after_jump_flag_e1 p, after_jump_flag_n1 p);
     g2 ← after_jump_tier p e_jump_4d ngroups g1 (after_jump_flag_e2 p, after_jump_flag_n2 p);
     Ok g2).
Proof. reflexivity. Qed.

(** After-jump flagging returns whenever the arrays are rectangular. *)
Lemma flag_after_jumps_returns p e_jump_4d ngroups gdq :
  after_jump_ready e_jump_4d ngroups gdq ->
  exists gdq', flag_after_jumps p e_jump_4d ngroups gdq = Ok gdq'.
Proof.
  intros Hr. rewrite flag_after_jumps_unfold.
  destruct (after_jump_tier_returns p e_jump_4d ngroups gdq
              (after_jump_flag_e1 p, after_jump_flag_n1 p) Hr) as (g1 & H1 & Hc1).
  rewrite H1. cbn [mbind result_bind].
  destruct (after_jump_tier_returns p e_jump_4d ngroups g1
              (after_jump_flag_e2 p, after_jump_flag_n2 p)) as (g2 & H2 & Hc2).
  { by eapply after_jump_ready_same_cells. }
  rewrite H2. cbn [mbind result_bind]. eauto.
Qed.

(** What [has_shape4] says about reads. *)
Lemma has_shape4_get {T} (a : arr4 T) ni ng nr nc i g r c :
  has_shape4 a ni ng nr nc ->
  is_Some (get4 a i g r c) <-> (i < ni /\ g < ng /\ r < nr /\ c < nc)%nat.
Proof.
  intros [Hi Ha]. unfold get4, get3, get2. split.
  - intros [v Hv].
    destruct (a !! i) as [x|] eqn:Ex; simpl in Hv; [|done].
    destruct (x !! g) as [y|] eqn:Ey; simpl in Hv; [|done].
    destruct (y !! r) as [z|] eqn:Ez; simpl in Hv; [|done].
    pose proof (Forall_lookup_1 _ _ _ _ Ha Ex) as [Hg Hx].
    pose proof (Forall_lookup_1 _ _ _ _ Hx Ey) as [Hr Hy].
    pose proof (Forall_lookup_1 _ _ _ _ Hy Ez) as Hc. simpl in Hc.
    apply lookup_lt_Some in Ex. apply lookup_lt_Some in Ey.
    apply lookup_lt_Some in Ez. apply lookup_lt_Some in Hv. lia.
  - intros (H1 & H2 & H3 & H4).
    destruct (lookup_lt_is_Some_2 a i) as [x Ex]; [lia|].
    pose proof (Forall_lookup_1 _ _ _ _ Ha Ex) as [Hg Hx].
    destruct (lookup_lt_is_Some_2 x g) as [y Ey]; [lia|].
    pose proof (Forall_lookup_1 _ _ _ _ Hx Ey) as [Hr Hy].
    destruct (lookup_lt_is_Some_2 y r) as [z Ez]; [lia|].
    pose proof (Forall_lookup_1 _ _ _ _ Hy Ez) as Hc. simpl in Hc.
    destruct (lookup_lt_is_Some_2 z c) as [v Ev]; [lia|].
    rewrite Ex. simpl. rewrite Ey. simpl. rewrite Ez. simpl. eauto.
Qed.

(** A difference array with one group fewer than a quality array of at
    least two groups has every difference the loops read. *)
Lemma diffs_read_exist {T} (d : arr4 T) (gdq : arr4 Z) ni ng nr nc i g r c :
  (2 <= ng)%nat ->
  has_shape4 d ni (ng - 1) nr nc -> has_shape4 gdq ni ng nr nc ->
  is_Some (get4 gdq i g r c) ->
  exists e, py_get4 d i (Z.of_nat g - 1) r c = Ok e.
Proof.
  intros Hng Hd Hq Hs. apply (has_shape4_get _ _ _ _ _ _ _ _ _ Hq) in Hs as (H1 & H2 & H3 & H4).
  unfold py_get4. destruct Hd as [Hi Ha].
  destruct (lookup_lt_is_Some_2 d i) as [x Ex]; [lia|].
  rewrite Ex. simpl.
  pose proof (Forall_lookup_1 _ _ _ _ Ha Ex) as [Hg Hx].
  assert (Hcell : forall k, (k < ng - 1)%nat -> exists e, of_option (get3 x k r c) = Ok e).
  { intros k Hk.
    assert (Hsome : is_Some (get4 d i k r c)).
    { apply (has_shape4_get d ni (ng - 1) nr nc); [by split|lia]. }
    destruct Hsome as [e He]. unfold get4 in He. rewrite Ex in He. simpl in He.
    rewrite He. simpl. eauto. }
  unfold py_index. rewrite Hg.
  destruct g as [|g'].
  - assert ((0 <=? Z.of_nat 0 - 1) = false) as -> by (apply Z.leb_gt; lia).
    assert ((- Z.of_nat (ng - 1) <=? Z.of_nat 0 - 1) = true) as -> by (apply Z.leb_le; lia).
    assert ((Z.of_nat 0 - 1 <? 0) = true) as -> by (apply Z.ltb_lt; lia).
    simpl. apply Hcell. lia.
  - assert ((0 <=? Z.of_nat (S g') - 1) = true) as -> by (apply Z.leb_le; lia).
    assert ((Z.of_nat (S g') - 1 <? Z.of_nat (ng - 1)) = true) as -> by (apply Z.ltb_lt; lia).
    simpl. replace (Z.to_nat (Z.of_nat (S g') - 1)) with g' by lia. apply Hcell. lia.
Qed.

Lemma after_jump_ready_shapes e_jump_4d gdq ni ng nr nc :
  (2 <= ng)%nat ->
  has_shape4 e_jump_4d ni (ng - 1) nr nc -> has_shape4 gdq ni ng nr nc ->
  after_jump_ready e_jump_4d ng gdq.
Proof.
  intros Hng Hd Hq. split.
  - intros i g r c Hs. by eapply diffs_read_exist.
  - intros i g r c k Hs Hk.
    apply (has_shape4_get _ _ _ _ _ _ _ _ _ Hq) in Hs.
    apply (has_shape4_get _ _ _ _ _ _ _ _ _ Hq). lia.
Qed.

Lemma neighbors_ready_same_cells ratio_all nrows ncols gdq cur :
  same_cells gdq cur -> neighbors_ready ratio_all nrows ncols gdq ->
  neighbors_ready ratio_all nrows ncols cur.
Proof.
  intros Hc (HA & HB & HC). split; [|split].
  - intros i g r c Hs. apply HA. by apply Hc.
  - intros i g r c Hs. apply (HB i g). by apply Hc.
  - intros i g r c r' c' Hs Hr Hk. apply Hc. eapply HC; [|done|done]. apply Hc. exact Hs.
Qed.

Lemma flag_neighbors_step_returns p ratio_all nrows ncols gdq below above cr :
  neighbors_ready ratio_all nrows ncols gdq ->
  is_Some (get4 gdq cr.1.1.1 cr.1.1.2 cr.1.2 cr.2) ->
  exists st', flag_neighbors_step p ratio_all nrows ncols (gdq, below, above) cr = Ok st'
              /\ same_cells gdq st'.1.1.
Proof.
  destruct cr as [[[i g] r] c]. simpl. intros (HA & HB & HC) Hs.
  unfold flag_neighbors_step.
  destruct (HA i g r c Hs) as [ratio Hr]. rewrite Hr. cbn [mbind result_bind].
  destruct (HB i g r c Hs) as [Hrow Hcol].
  destruct (in_window p ratio); [|eexists; split; [reflexivity|apply same_cells_refl]].
  (* row - 1 *)
  assert (H1 : exists g1 b1,
            (if negb (r =? 0)%nat
             then gdq' ← flag_if_clear p gdq i g (r - 1) c; Ok (gdq', below)
             else Ok (gdq, set3 below i g c (fl_jump p))) = Ok (g1, b1)
            /\ same_cells gdq g1).
  { destruct (r =? 0)%nat eqn:E; simpl.
    - do 2 eexists. split; [reflexivity|apply same_cells_refl].
    - destruct (flag_if_clear_returns p gdq i g (r - 1) c) as (g1 & Hf & Hc).
      { eapply HC; [exact Hs|lia|done]. }
      rewrite Hf. simpl. eauto. }
  destruct H1 as (g1 & b1 & -> & Hc1). cbn [mbind result_bind].
  (* row + 1 *)
  assert (H2 : exists g2 a2,
            (if negb (Z.of_nat r =? Z.of_nat nrows - 1)
             then gdq' ← flag_if_clear p g1 i g (r + 1) c; Ok (gdq', above)
             else Ok (g1, set3 above i g c (fl_jump p))) = Ok (g2, a2)
            /\ same_cells gdq g2).
  { destruct (Z.of_nat r =? Z.of_nat nrows - 1) eqn:E; simpl.
    - do 2 eexists. split; [reflexivity|done].
    - destruct (flag_if_clear_returns p g1 i g (r + 1) c) as (g2 & Hf & Hc).
      { apply Hc1. eapply HC; [exact Hs| |done]. apply Z.eqb_neq in E. lia. }
      rewrite Hf. simpl. do 2 eexists. split; [reflexivity|]. by eapply same_cells_trans. }
  destruct H2 as (g2 & a2 & -> & Hc2). cbn [mbind result_bind].
  (* col - 1 *)
  assert (H3 : exists g3,
            (if negb (c =? 0)%nat then flag_if_clear p g2 i g r (c - 1) else Ok g2) = Ok g3
            /\ same_cells gdq g3).
  { destruct (c =? 0)%nat eqn:E; simpl.
    - eexists. split; [reflexivity|done].
    - destruct (flag_if_clear_returns p g2 i g r (c - 1)) as (g3 & Hf & Hc).
      { apply Hc2. eapply HC; [exact Hs|done|lia]. }
      rewrite Hf. eexists. split; [reflexivity|]. by eapply same_cells_trans. }
  destruct H3 as (g3 & -> & Hc3). cbn [mbind result_bind].
  (* col + 1 *)
  assert (H4 : exists g4,
            (if negb (Z.of_nat c =? Z.of_nat ncols - 1)
             then flag_if_clear p g3 i g r (c + 1) else Ok g3) = Ok g4
            /\ same_cells gdq g4).
  { destruct (Z.of_nat c =? Z.of_nat ncols - 1) eqn:E; simpl.
    - eexists. split; [reflexivity|done].
    - destruct (flag_if_clear_returns p g3 i g r (c + 1)) as (g4 & Hf & Hc).
      { apply Hc3. eapply HC; [exact Hs|done|]. apply Z.eqb_neq in E. lia. }
      rewrite Hf. eexists. split; [reflexivity|]. by eapply same_cells_trans. }
  destruct H4 as (g4 & -> & Hc4). cbn [mbind result_bind].
  eexists. split; [reflexivity|done].
Qed.

Lemma flag_neighbors_crs_returns p ratio_all nrows ncols gdq0 crs : forall st,
  same_cells gdq0 st.1.1 ->
  neighbors_ready ratio_all nrows ncols gdq0 ->
  (forall cr, cr ∈ crs -> is_Some (get4 gdq0 cr.1.1.1 cr.1.1.2 cr.1.2 cr.2)) ->
  exists st', for_each (flag_neighbors_step p ratio_all nrows ncols) st crs = Ok st'.
Proof.
  induction crs as [|cr rest IH]; intros [[gdq below] above] Hc Hr Hin; cbn [for_each].
  - eauto.
  - simpl in Hc.
    destruct (flag_neighbors_step_returns p ratio_all nrows ncols gdq below above cr)
      as (st1 & H1 & Hc1).
    { by eapply neighbors_ready_same_cells. }
    { apply Hc. apply Hin. by left. }
    rewrite H1. cbn [mbind result_bind]. apply IH; [by eapply same_cells_trans|done|].
    intros cr' Hcr'. apply Hin. by right.
Qed.

(** Neighbour propagation returns whenever the arrays are rectangular. *)
Lemma flag_neighbors_returns p ratio_all nrows ncols gdq below above :
  neighbors_ready ratio_all nrows ncols gdq ->
  exists st', flag_neighbors p ratio_all nrows ncols gdq below above = Ok st'.
Proof.
  intros Hr. unfold flag_neighbors. destruct (flag_4_neighbors p); [|eauto].
  apply (flag_neighbors_crs_returns p ratio_all nrows ncols gdq); [apply same_cells_refl|done|].
  intros [[[i g] r] c] (x & Hx & _)%elem_of_where4. simpl. by rewrite Hx.
Qed.

Lemma neighbors_ready_shapes ratio_all gdq ni ng nr nc :
  (2 <= ng)%nat ->
  has_shape4 ratio_all ni (ng - 1) nr nc -> has_shape4 gdq ni ng nr nc ->
  neighbors_ready ratio_all nr nc gdq.
Proof.
  intros Hng Hd Hq. split; [|split].
  - intros i g r c Hs. by eapply diffs_read_exist.
  - intros i g r c Hs. apply (has_shape4_get _ _ _ _ _ _ _ _ _ Hq) in Hs. lia.
  - intros i g r c r' c' Hs Hr Hc.
    apply (has_shape4_get _ _ _ _ _ _ _ _ _ Hq) in Hs.
    apply (has_shape4_get _ _ _ _ _ _ _ _ _ Hq). lia.
Qed.


(** C8.  After-jump flagging.  On rectangular arrays with at least two
    groups the flagger returns.  The two tiers run in order, the second on
    the quality array left by the first.  A tier with a positive group
    count writes every sample that lies within that many groups after a
    sample jump-flagged when the tier starts, in the same pixel and
    integration and inside the array, provided the difference from the
    median read at [group - 1] is at least the tier's energy threshold:
    the sample is OR'd with the jump flag unless it carries saturated or
    do-not-use.  No other sample changes, and a tier without a positive
    group count changes nothing. *)
Theorem flag_after_jumps_tiers p e_jump_4d gdq nints ngroups nrows ncols :
  (2 <= ngroups)%nat ->
  has_shape4 e_jump_4d nints (ngroups - 1) nrows ncols ->
  has_shape4 gdq nints ngroups nrows ncols ->
  exists gdq1 gdq2,
    flag_after_jumps p e_jump_4d ngroups gdq = Ok gdq2
    /\ after_jump_tier_post p e_jump_4d ngroups
         (after_jump_flag_e1 p, after_jump_flag_n1 p) gdq gdq1
    /\ after_jump_tier_post p e_jump_4d ngroups
         (after_jump_flag_e2 p, after_jump_flag_n2 p) gdq1 gdq2.
Proof.
  intros Hng He Hq.
  destruct (flag_after_jumps_returns p e_jump_4d ngroups gdq) as [gdq2 H].
  { by eapply after_jump_ready_shapes. }
  destruct (flag_after_jumps_effect _ _ _ _ _ H) as (gdq1 & H1 & H2).
  by exists gdq1, gdq2.
Qed.

(** ** The refinement loop *)

Lemma ltb_true_not_nan x y : PrimFloat.ltb x y = true -> Np.isnan y = false.
Proof.
  intros H. destruct (Np.isnan y) eqn:E; [|done].
  by rewrite (ltb_nan_r x y E) in H.
Qed.

Lemma pix_ratio_not_nan median sigma x :
  Np.isnan (PrimFloat.div (PrimFloat.abs (PrimFloat.sub x median)) sigma) = false ->
  Np.isnan x = false.
Proof.
  intros H. destruct (Np.isnan x) eqn:E; [|done].
  rewrite isnan_div_l in H; [done|]. apply isnan_abs. by apply isnan_sub_l.
Qed.

Lemma clip_marked_lookup d m j :
  clip_marked d m !! j
  = (fun x => if default true (m !! j) then x else PrimFloat.nan) <$> d !! j.
Proof. unfold clip_marked. apply list_lookup_imap. Qed.

Lemma length_clip_marked d m : length (clip_marked d m) = length d.
Proof. unfold clip_marked. apply length_imap. Qed.

Lemma unmarked_insert (m : list bool) k :
  m !! k = Some true ->
  (length (filter (fun b => b = true) (<[k := false]> m)) + 1
   = length (filter (fun b => b = true) m))%nat.
Proof.
  revert k. induction m as [|b m IH]; intros [|k] H; simpl in *; try done.
  - injection H as ->. rewrite !filter_cons.
    repeat case_decide; try done. simpl. lia.
  - specialize (IH _ H). rewrite !filter_cons.
    case_decide; simpl; lia.
Qed.

Lemma count_nan_insert (l : list float) k d :
  l !! k = Some d -> Np.isnan d = false ->
  Np.count_nan (<[k := PrimFloat.nan]> l) = S (Np.count_nan l).
Proof.
  unfold Np.count_nan. revert k. induction l as [|x l IH]; intros [|k] H Hd; simpl in *; try done.
  - injection H as ->. rewrite !filter_cons.
    repeat case_decide; try done; try congruence.
  - specialize (IH _ H Hd). rewrite !filter_cons.
    case_decide; simpl; by rewrite IH.
Qed.

(** Clipping again after one more difference has been marked replaces
    exactly that difference. *)
Lemma clip_marked_again d m k :
  length m = length d ->
  clip_marked (clip_marked d m) (<[k := false]> m) = <[k := PrimFloat.nan]> (clip_marked d m).
Proof.
  intros Hlen. apply list_eq. intros j.
  rewrite clip_marked_lookup, clip_marked_lookup.
  destruct (decide (k = j)) as [<-|Hne].
  - destruct (d !! k) as [x|] eqn:Hx; simpl.
    + assert (Hk : (k < length m)%nat) by (rewrite Hlen; by eapply lookup_lt_Some).
      rewrite list_lookup_insert_eq by done. simpl.
      rewrite list_lookup_insert_eq by (rewrite length_clip_marked; lia). done.
    + symmetry. apply lookup_ge_None. rewrite length_insert, length_clip_marked.
      by apply lookup_ge_None.
  - rewrite !list_lookup_insert_ne by done. rewrite clip_marked_lookup.
    destruct (d !! j) as [x|]; simpl; [|done].
    by destruct (default true (m !! j)).
Qed.

Lemma loop_body_effect p pix_rn2 ndiffs nints nd st st' :
  length (pix_cr_mask st) = length (pix_first_diffs st) ->
  loop_body p pix_rn2 ndiffs nints nd st = Ok st' ->
  pass_effect st st'.
Proof.
  intros Hlen H. unfold loop_body in H.
  apply bind_Ok in H as (med & _ & H).
  apply bind_Ok in H as (k & _ & H).
  set (diffs := clip_marked (pix_first_diffs st) (pix_cr_mask st)) in *.
  set (sigma := sigma_of p med pix_rn2) in *.
  destruct (PrimFloat.ltb _ _) eqn:Hlt; injection H as <-; split; simpl; try done.
  - right. split; [done|].
    apply ltb_true_not_nan in Hlt. rewrite nth_lookup in Hlt.
    unfold pix_ratio_of in Hlt. rewrite list_lookup_fmap in Hlt.
    destruct (diffs !! k) as [d|] eqn:Hd; simpl in Hlt; [|done].
    apply pix_ratio_not_nan in Hlt.
    exists k, d. repeat split; try done.
    subst diffs. rewrite clip_marked_lookup in Hd.
    destruct (pix_first_diffs st !! k) as [x|] eqn:Hx; simpl in Hd; [|done].
    assert (Hk : (k < length (pix_cr_mask st))%nat) by (rewrite Hlen; by eapply lookup_lt_Some).
    apply lookup_lt_is_Some in Hk as [b Hb]. rewrite Hb in Hd. simpl in Hd.
    destruct b; [done|]. injection Hd as <-. done.
  - by left.
Qed.

Lemma pass_effect_lengths st st' :
  length (pix_cr_mask st) = length (pix_first_diffs st) ->
  pass_effect st st' ->
  length (pix_cr_mask st') = length (pix_first_diffs st').
Proof.
  intros Hlen [Hd [[_ Hm]|[_ (k & d & _ & Hm & _)]]];
    rewrite Hd, Hm, length_clip_marked, ?length_insert; done.
Qed.

Lemma refine_loop_exit p pix_rn2 ndiffs nints nd fuel st :
  loop_guard ndiffs st = false -> refine_loop p pix_rn2 ndiffs nints nd fuel st = Ok st.
Proof. intros H. destruct fuel; simpl; by rewrite H. Qed.

Lemma refine_loop_total p pix_rn2 ndiffs nints nd n : forall st,
  (unmarked st <= n)%nat ->
  length (pix_cr_mask st) = length (pix_first_diffs st) ->
  exists r, refine_exec p pix_rn2 ndiffs nints nd st r
            /\ forall fuel, (unmarked st < fuel)%nat ->
                            refine_loop p pix_rn2 ndiffs nints nd fuel st = r.
Proof.
  induction n as [|n IH]; intros st Hn Hlen.
  all: destruct (loop_guard ndiffs st) eqn:Hg;
    [|exists (Ok st); split; [by constructor|intros; by apply refine_loop_exit]].
  all: destruct (loop_body p pix_rn2 ndiffs nints nd st) as [st'|e] eqn:Hb;
    [|exists (Raise e); split; [by apply refine_raise|];
      intros [|fuel] Hf; [lia|]; simpl; by rewrite Hg, Hb].
  all: pose proof (loop_body_effect _ _ _ _ _ _ _ Hlen Hb) as Heff;
    pose proof (pass_effect_lengths _ _ Hlen Heff) as Hlen';
    destruct Heff as [Hd [[Hnf Hm]|[Hf (k & d & Hk & Hm & _)]]].
  1,3: assert (Hg' : loop_guard ndiffs st' = false) by (unfold loop_guard; by rewrite Hnf);
    exists (Ok st'); split; [eapply refine_pass; eauto; by constructor|];
    intros [|fuel] Hfu; [lia|]; simpl; rewrite Hg, Hb; simpl; by apply refine_loop_exit.
  - exfalso. pose proof (unmarked_insert _ _ Hk) as Hu. unfold unmarked in Hn. lia.
  - pose proof (unmarked_insert _ _ Hk) as Hu.
    assert (Hu' : (unmarked st' + 1 = unmarked st)%nat) by (unfold unmarked; by rewrite Hm).
    destruct (IH st') as (r & Hex & Hfuel); [lia|done|].
    exists r. split; [eapply refine_pass; eauto|].
    intros [|fuel] Hfu; [lia|]. simpl. rewrite Hg, Hb. simpl. apply Hfuel. lia.
Qed.

(** The loop as [refine_pixel] enters it, with the fuel it is given, runs
    to its end. *)
Lemma refine_loop_entry_terminates p pix_rn2 ndiffs nints nd (d : list float) location :
  let entry := {| pix_first_diffs := d;
                  pix_cr_mask := <[location := false]> (replicate (length d) true);
                  new_CR_found := true |} in
  exists r, refine_exec p pix_rn2 ndiffs nints nd entry r
            /\ refine_loop p pix_rn2 ndiffs nints nd (S (length (pix_cr_mask entry))) entry = r.
Proof.
  intros entry.
  assert (Hlen : length (pix_cr_mask entry) = length (pix_first_diffs entry)).
  { simpl. by rewrite length_insert, length_replicate. }
  destruct (refine_loop_total p pix_rn2 ndiffs nints nd (unmarked entry) entry)
    as (r & Hex & Hfuel); [lia|done|].
  exists r. split; [done|]. apply Hfuel.
  unfold unmarked. pose proof (length_filter (fun b => b = true) (pix_cr_mask entry)). lia.
Qed.

(** C9.  Termination of the per-pixel refinement.  From every state whose
    mask has the shape of the differences, as at loop entry, a pass of the
    loop body that returns either finds no new jump, and the loop guard
    then fails, or marks one difference that was unmarked, so that the
    next clip leaves one usable difference fewer; and the loop ends,
    within as many passes as there are unmarked differences, by a failed
    guard or by an exception of the body. *)
Theorem refine_loop_terminates p pix_rn2 ndiffs nints nd st :
  length (pix_cr_mask st) = length (pix_first_diffs st) ->
  (forall st',
     loop_guard ndiffs st = true ->
     loop_body p pix_rn2 ndiffs nints nd st = Ok st' ->
     (new_CR_found st' = false /\ loop_guard ndiffs st' = false)
     \/ (new_CR_found st' = true
         /\ (unmarked st' + 1 = unmarked st)%nat
         /\ usable_diffs ndiffs (clip_marked (pix_first_diffs st') (pix_cr_mask st'))
            = usable_diffs ndiffs (pix_first_diffs st') - 1))
  /\ exists r,
       refine_exec p pix_rn2 ndiffs nints nd st r
       /\ forall fuel, (unmarked st < fuel)%nat ->
                       refine_loop p pix_rn2 ndiffs nints nd fuel st = r.
Proof.
  intros Hlen. split; [|by eapply refine_loop_total].
  intros st' Hg Hb.
  destruct (loop_body_effect _ _ _ _ _ _ _ Hlen Hb) as [Hd [[Hnf Hm]|[Hf (k & d & Hk & Hm & Hdk & Hnan)]]].
  - left. split; [done|]. unfold loop_guard. by rewrite Hnf.
  - right. split; [done|]. split.
    + unfold unmarked. rewrite Hm. by apply unmarked_insert.
    + rewrite Hd, Hm, clip_marked_again by done. unfold usable_diffs.
      rewrite Hd in Hdk. rewrite (count_nan_insert _ _ _ Hdk Hnan). lia.
Qed.

(** ** Path selection *)

Lemma enough_sigclip_groups_spec p nints total_groups :
  enough_sigclip_groups nints total_groups p = true
  <-> spec_sigma_clip_eligible p nints total_groups.
Proof.
  unfold enough_sigclip_groups, spec_sigma_clip_eligible.
  rewrite orb_true_iff, !andb_true_iff, negb_true_iff, !Z.leb_le. tauto.
Qed.

(** C3.  Selection of the detection path.  For every call past the
    eligibility gate the detection block of [find_crs] runs the code of
    exactly one path, the one that the rule of the specification selects
    from the integration count, the total of usable groups, the count of
    usable differences and the parameter bundle: the sigma-clip path when
    it is eligible, otherwise the single-pass path when the usable
    differences reach the single-pass minimum, otherwise the iterative
    path. *)
Theorem detect_runs_selected_path stats clip p read_noise_2 nints ngroups nrows ncols
        total_groups total_usable_diffs first_diffs_masked dat gdq :
  detect stats clip p read_noise_2 nints ngroups nrows ncols total_groups total_usable_diffs
         first_diffs_masked dat gdq
  = run_path stats clip
      (spec_detection_path p (Z.of_nat nints) total_groups total_usable_diffs)
      p read_noise_2 nints ngroups nrows ncols first_diffs_masked dat gdq
  /\ (spec_detection_path p (Z.of_nat nints) total_groups total_usable_diffs = SigmaClip
      <-> spec_sigma_clip_eligible p (Z.of_nat nints) total_groups)
  /\ (spec_detection_path p (Z.of_nat nints) total_groups total_usable_diffs = SinglePass
      <-> ~ spec_sigma_clip_eligible p (Z.of_nat nints) total_groups
          /\ min_diffs_single_pass p <= total_usable_diffs)
  /\ (spec_detection_path p (Z.of_nat nints) total_groups total_usable_diffs = Iterative
      <-> ~ spec_sigma_clip_eligible p (Z.of_nat nints) total_groups
          /\ total_usable_diffs < min_diffs_single_pass p).
Proof.
  unfold detect, spec_detection_path.
  pose proof (enough_sigclip_groups_spec p (Z.of_nat nints) total_groups) as He.
  destruct (decide (spec_sigma_clip_eligible p (Z.of_nat nints) total_groups)) as [Hs|Hs].
  - apply He in Hs as Hb. rewrite Hb. simpl.
    repeat split; try done; try tauto.
  - destruct (enough_sigclip_groups (Z.of_nat nints) total_groups p) eqn:Hb;
      [exfalso; apply Hs, He; reflexivity|].
    destruct (decide (min_diffs_single_pass p <= total_usable_diffs)) as [Hm|Hm].
    + replace (min_diffs_single_pass p <=? total_usable_diffs) with true by lia. simpl.
      repeat split; try done; try tauto; try lia; try (intros [_ ?]; lia).
    + replace (min_diffs_single_pass p <=? total_usable_diffs) with false by lia. simpl.
      repeat split; try done; try tauto; try lia; try (intros [_ ?]; lia).
Qed.

(** ** The skip path and the caller's arrays *)

Lemma too_few_groups_spec p nints ngroups total_groups :
  too_few_groups nints ngroups total_groups p = true <-> spec_skip_condition p nints ngroups total_groups.
Proof.
  unfold too_few_groups, spec_skip_condition.
  rewrite orb_true_iff, !andb_true_iff, negb_true_iff, !Z.ltb_lt. tauto.
Qed.

(** The outcome of a skipped call, in full. *)
Lemma find_crs_skip_outcome stats clip dataa group_dq read_noise p nints ngroups nrows ncols :
  shape4 dataa = (nints, ngroups, nrows, ncols) ->
  (1 <= ngroups)%nat ->
  spec_skip_condition p (Z.of_nat nints) (Z.of_nat ngroups) (usable_groups p nints ngroups group_dq) ->
  find_crs stats clip dataa group_dq read_noise p
  = Ok {| returned := {| ret_gdq := group_dq;
                         ret_row_below_gdq := zeros3 0 nints ngroups ncols;
                         ret_row_above_gdq := zeros3 0 nints ngroups ncols;
                         ret_num_primary_crs := 0;
                         ret_stat := Stat3 (zeros3 0%float (ngroups - 1) nrows ncols) |};
          caller_dataa := if copy_arrs p then dataa else nan_invalid_data dataa group_dq p;
          caller_group_dq := group_dq |}.
Proof.
  intros Hs Hg Hskip. apply too_few_groups_spec in Hskip.
  unfold find_crs, possibly_copy, compute_totals. rewrite Hs.
  unfold usable_groups in Hskip. cbv zeta. rewrite Hskip.
  unfold np_zeros3. replace (Z.of_nat ngroups - 1 <? 0) with false by lia.
  simpl. by replace (Z.to_nat (Z.of_nat ngroups - 1)) with (ngroups - 1)%nat by lia.
Qed.

(** C5.  Skip path.  When the skip condition of the specification holds
    for an input with at least one group, [find_crs] returns without
    raising: the quality array as it was given, two zero-filled spillover
    buffers, a jump count of zero and a zero-filled statistics array with
    one group fewer than the input. *)
Theorem find_crs_skip stats clip dataa group_dq read_noise p nints ngroups nrows ncols :
  shape4 dataa = (nints, ngroups, nrows, ncols) ->
  (1 <= ngroups)%nat ->
  spec_skip_condition p (Z.of_nat nints) (Z.of_nat ngroups) (usable_groups p nints ngroups group_dq) ->
  exists out,
    find_crs stats clip dataa group_dq read_noise p = Ok out
    /\ ret_gdq (returned out) = group_dq
    /\ ret_row_below_gdq (returned out) = zeros3 0 nints ngroups ncols
    /\ ret_row_above_gdq (returned out) = zeros3 0 nints ngroups ncols
    /\ ret_num_primary_crs (returned out) = 0
    /\ ret_stat (returned out) = Stat3 (zeros3 0%float (ngroups - 1) nrows ncols)
    /\ caller_group_dq out = group_dq.
Proof.
  intros Hs Hg Hskip. eexists. split; [by apply find_crs_skip_outcome|].
  repeat split; reflexivity.
Qed.

Lemma getz4_Some gdq i g r c x : get4 gdq i g r c = Some x -> getz4 gdq i g r c = x.
Proof. unfold getz4. by intros ->. Qed.

(** A sample that is NaN stays NaN under [nan_where]. *)
Lemma nan_where_keeps_nan fl gdq dat i g r c :
  get4 dat i g r c = Some PrimFloat.nan ->
  get4 (nan_where fl gdq dat) i g r c = Some PrimFloat.nan.
Proof. intros H. rewrite get4_nan_where, H. simpl. by destruct (has_flag _ _). Qed.

Lemma nan_where_flagged fl gdq dat i g r c x :
  get4 gdq i g r c = Some x -> has_flag x fl = true -> is_Some (get4 dat i g r c) ->
  get4 (nan_where fl gdq dat) i g r c = Some PrimFloat.nan.
Proof.
  intros Hx Hf [d Hd]. rewrite get4_nan_where, Hd. simpl.
  by rewrite (getz4_Some _ _ _ _ _ _ Hx), Hf.
Qed.

Lemma nan_where_is_Some fl gdq dat i g r c :
  is_Some (get4 dat i g r c) -> is_Some (get4 (nan_where fl gdq dat) i g r c).
Proof. intros [d Hd]. rewrite get4_nan_where, Hd. simpl. eauto. Qed.

Lemma nan_invalid_data_flagged dat gdq p i g r c x :
  get4 gdq i g r c = Some x ->
  has_flag x (fl_sat p) = true \/ has_flag x (fl_dnu p) = true ->
  is_Some (get4 dat i g r c) ->
  get4 (nan_invalid_data dat gdq p) i g r c = Some PrimFloat.nan.
Proof.
  intros Hx [Hf|Hf] Hd; unfold nan_invalid_data.
  - apply nan_where_keeps_nan, nan_where_keeps_nan. by eapply nan_where_flagged.
  - apply nan_where_keeps_nan. eapply nan_where_flagged; eauto. by apply nan_where_is_Some.
Qed.

Lemma remask_keeps_nan p dat gdq i g r c :
  get4 dat i g r c = Some PrimFloat.nan -> get4 (remask p dat gdq) i g r c = Some PrimFloat.nan.
Proof. intros H. unfold remask. by apply nan_where_keeps_nan, nan_where_keeps_nan. Qed.

Lemma detect_dat stats clip p rn2 nints ngroups nrows ncols tg tud fdm dat gdq dat' gdq' s :
  detect stats clip p rn2 nints ngroups nrows ncols tg tud fdm dat gdq = Ok (dat', gdq', s) ->
  dat' = dat \/ dat' = remask p dat gdq.
Proof.
  unfold detect, sigma_clip_path, single_pass_path, iterative_path_branch. intros H.
  destruct (enough_sigclip_groups _ _ _).
  - apply bind_Ok in H as ([[[? ?] ?] ?] & _ & H).
    apply bind_Ok in H as (? & _ & H). injection H as <- _ _. by left.
  - destruct (_ <=? _).
    + injection H as <- _ _. by right.
    + apply bind_Ok in H as (? & _ & H). injection H as <- _ _. by right.
Qed.

(** The caller's ramp array after a call that returns, without copying. *)
Lemma find_crs_caller_dataa stats clip dataa group_dq read_noise p out :
  copy_arrs p = false ->
  find_crs stats clip dataa group_dq read_noise p = Ok out ->
  caller_dataa out = nan_invalid_data dataa group_dq p
  \/ caller_dataa out = remask p (nan_invalid_data dataa group_dq p) group_dq.
Proof.
  intros Hc H. unfold find_crs, possibly_copy, compute_totals in H. rewrite Hc in H.
  destruct (shape4 dataa) as [[[nints ngroups] nrows] ncols]. cbv zeta in H.
  destruct (too_few_groups _ _ _ _).
  - apply bind_Ok in H as (dummy & _ & H). injection H as <-. by left.
  - apply bind_Ok in H as ([[dat' gdq'] s] & Hd & H).
    apply bind_Ok in H as ([[gdq2 below] above] & _ & H).
    apply bind_Ok in H as (gdq3 & _ & H).
    apply bind_Ok in H as (stat & _ & H). injection H as <-. simpl.
    apply detect_dat in Hd. done.
Qed.

(** C10.  In-place overwrite of the ramp.  With the copy flag false, every
    call that returns leaves NaN in the caller's ramp array at each sample
    whose quality word carries saturated or do-not-use; in particular a
    call that takes the skip path returns with the caller's ramp array
    overwritten by [nan_invalid_data], while the caller's quality array
    and the returned one are the input quality array. *)
Theorem find_crs_overwrites_in_place stats clip dataa group_dq read_noise p
        nints ngroups nrows ncols :
  copy_arrs p = false ->
  shape4 dataa = (nints, ngroups, nrows, ncols) ->
  (forall out,
     find_crs stats clip dataa group_dq read_noise p = Ok out ->
     forall i g r c x,
       get4 group_dq i g r c = Some x ->
       has_flag x (fl_sat p) = true \/ has_flag x (fl_dnu p) = true ->
       is_Some (get4 dataa i g r c) ->
       get4 (caller_dataa out) i g r c = Some PrimFloat.nan)
  /\ ((1 <= ngroups)%nat ->
      spec_skip_condition p (Z.of_nat nints) (Z.of_nat ngroups)
                          (usable_groups p nints ngroups group_dq) ->
      exists out,
        find_crs stats clip dataa group_dq read_noise p = Ok out
        /\ caller_dataa out = nan_invalid_data dataa group_dq p
        /\ caller_group_dq out = group_dq
        /\ ret_gdq (returned out) = group_dq).
Proof.
  intros Hc Hs. split.
  - intros out H i g r c x Hx Hf Hd.
    pose proof (nan_invalid_data_flagged dataa group_dq p i g r c x Hx Hf Hd) as Hn.
    destruct (find_crs_caller_dataa _ _ _ _ _ _ _ Hc H) as [-> | ->]; [done|].
    by apply remask_keeps_nan.
  - intros Hg Hskip. eexists. split; [by apply find_crs_skip_outcome|].
    simpl. rewrite Hc. repeat split; reflexivity.
Qed.

(** ** The array-level sigma: zero is reset, and a NaN sigma flags nothing *)

Lemma reset_zero_sigma_nonzero s : PrimFloat.eqb (reset_zero_sigma s) 0%float = false.
Proof.
  unfold reset_zero_sigma. destruct (PrimFloat.eqb s 0%float) eqn:E; [reflexivity|exact E].
Qed.

(** No entry of the sigma array that divides the ratio array is zero. *)
Lemma sigma_array_nonzero p median_diffs read_noise_2 r c s :
  get2 (sigma_array p median_diffs read_noise_2) r c = Some s ->
  PrimFloat.eqb s 0%float = false.
Proof.
  unfold sigma_array. rewrite get2_imap2.
  destruct (get2 median_diffs r c) as [m|]; simpl; [|done].
  intros [= <-]. apply reset_zero_sigma_nonzero.
Qed.

(** Every ratio of a pixel whose sigma is NaN is NaN. *)
Lemma ratio_of_nan_sigma e_jump sigma i g r c :
  Np.isnan (getf2 sigma r c) = true ->
  Np.isnan (getf4 (ratio_of e_jump sigma) i g r c) = true.
Proof.
  intros H. unfold getf4, ratio_of. rewrite get4_imap4.
  destruct (get4 e_jump i g r c) as [e|]; simpl; [|reflexivity].
  by apply isnan_div_r.
Qed.

(** Single-pass path: the quality words of a pixel whose sigma is NaN are
    left as they were. *)
Lemma single_pass_nan_sigma p read_noise_2 nrows ncols first_diffs first_diffs_masked gdq r c :
  Np.isnan (getf2 (sigma_array p (reduce01 Np.nanmedian first_diffs nrows ncols) read_noise_2)
                  r c) = true ->
  forall i g,
    get4 (single_pass p read_noise_2 nrows ncols first_diffs first_diffs_masked gdq) i g r c
    = get4 gdq i g r c.
Proof.
  intros H i g. unfold single_pass, or_into_later_groups. rewrite get4_imap4.
  destruct (get4 gdq i g r c) as [x|]; simpl; [|done]. f_equal.
  destruct g as [|g']; [done|].
  rewrite (ltb_nan_r _ _ (ratio_of_nan_sigma _ _ i g' r c H)). simpl. apply Z.lor_0_r.
Qed.

Lemma nanmax_all_nan (l : list float) :
  Forall (fun x => Np.isnan x = true) l -> Np.isnan (Np.nanmax l) = true.
Proof.
  induction 1 as [|x l Hx _ IH]; simpl; [reflexivity|].
  unfold Np.fmax. by rewrite Hx.
Qed.

(** A pixel whose sigma is NaN is not entered into refinement. *)
Lemma candidates_nan_sigma p ndiffs first_diffs e_jump sigma nints nrows ncols r c :
  Np.isnan (getf2 sigma r c) = true ->
  (r, c) ∉ candidates p ndiffs first_diffs (ratio_of e_jump sigma) nints nrows ncols.
Proof.
  intros H Hin. unfold candidates in Hin.
  assert (Hmax : forall i,
            Np.isnan (Np.nanmax (map (fun pl => getf2 pl r c)
                                     (default [] (ratio_of e_jump sigma !! i)))) = true).
  { intros i. apply nanmax_all_nan. apply Forall_forall. intros x Hx.
    apply list_elem_of_fmap in Hx as (pl & -> & Hpl).
    apply list_elem_of_lookup in Hpl as [g Hg].
    pose proof (ratio_of_nan_sigma e_jump sigma i g r c H) as Hr.
    unfold getf4, get4, get3 in Hr.
    destruct (ratio_of e_jump sigma !! i) as [x|]; simpl in *; [|done].
    by rewrite Hg in Hr. }
  assert (Htier : forall count_ok thresh,
            (r, c) ∉ (i ← seq 0 nints; r0 ← seq 0 nrows; c0 ← seq 0 ncols;
                      if count_ok (ndiffs - Z.of_nat (Np.count_nan (pixel_vec first_diffs r0 c0)))
                         && PrimFloat.ltb thresh
                              (Np.nanmax (map (fun pl => getf2 pl r0 c0)
                                              (default [] (ratio_of e_jump sigma !! i))))
                      then [(r0, c0)] else [])).
  { intros count_ok thresh Hi.
    apply list_elem_of_bind in Hi as (i & Hi & _).
    apply list_elem_of_bind in Hi as (r0 & Hi & _).
    apply list_elem_of_bind in Hi as (c0 & Hi & _).
    destruct (count_ok _ && _) eqn:E; [|by apply elem_of_nil in Hi].
    apply list_elem_of_singleton in Hi. injection Hi as <- <-.
    apply andb_true_iff in E as [_ E]. by rewrite (ltb_nan_r _ _ (Hmax i)) in E. }
  cbv zeta in Hin. rewrite !elem_of_app in Hin.
  destruct Hin as [Hin|[Hin|Hin]].
  - exact (Htier (fun n => 4 <=? n) _ Hin).
  - exact (Htier (fun n => n =? 3) _ Hin).
  - exact (Htier (fun n => n =? 2) _ Hin).
Qed.

(** Refining one pixel leaves the quality words of every other pixel. *)
Lemma refine_pixel_other p read_noise_2 ndiffs nints nd ratio fd gdq row col fd' gdq' r c :
  refine_pixel p read_noise_2 ndiffs nints nd ratio (fd, gdq) (row, col) = Ok (fd', gdq') ->
  (r, c) <> (row, col) ->
  forall i g, get4 gdq' i g r c = get4 gdq i g r c.
Proof.
  unfold refine_pixel. intros H Hne i g.
  apply bind_Ok in H as (location & _ & H).
  apply bind_Ok in H as (fin & _ & H). injection H as _ <-.
  rewrite get4_imap4. destruct (get4 gdq i g r c) as [x|]; simpl; [|done]. f_equal.
  destruct g as [|g']; [done|].
  destruct (decide (r = row)) as [->|Hr].
  - assert ((c =? col)%nat = false) as -> by (apply Nat.eqb_neq; congruence).
    by rewrite andb_false_r.
  - assert ((r =? row)%nat = false) as -> by (by apply Nat.eqb_neq). done.
Qed.

(** Iterative path: the quality words of a pixel whose sigma is NaN are
    left as they were. *)
Lemma iterative_path_nan_sigma p read_noise_2 nints ngroups nrows ncols dat gdq gdq' r c :
  iterative_path p read_noise_2 nints ngroups nrows ncols dat gdq = Ok gdq' ->
  (forall median_diffs,
     calc_med_first_diffs_dim4 (imap4 (fun _ _ _ _ x => PrimFloat.abs x) (np_diff dat))
     = Ok median_diffs ->
     Np.isnan (getf2 (sigma_array p median_diffs read_noise_2) r c) = true) ->
  forall i g, get4 gdq' i g r c = get4 gdq i g r c.
Proof.
  unfold iterative_path. intros H Hsig i g.
  apply bind_Ok in H as (median_diffs & Hm & H).
  apply bind_Ok in H as ([fd' gdq2] & Hloop & H). injection H as <-. simpl.
  specialize (Hsig _ Hm).
  pose proof (candidates_nan_sigma p ((Z.of_nat ngroups - 1) * Z.of_nat nints)
                (imap4 (fun _ _ _ _ x => PrimFloat.abs x) (np_diff dat))
                (sub_median (imap4 (fun _ _ _ _ x => PrimFloat.abs x) (np_diff dat)) median_diffs)
                _ nints nrows ncols r c Hsig) as Hnot.
  set (body := refine_pixel p read_noise_2 ((Z.of_nat ngroups - 1) * Z.of_nat nints) nints
                            (ngroups - 1) _) in Hloop.
  set (Inv := fun (seen : list (nat * nat)) (st : arr4 float * arr4 Z) =>
                (r, c) ∉ seen -> get4 st.2 i g r c = get4 gdq i g r c).
  assert (Hstep : forall seen x s s', Inv seen s -> body s x = Ok s' -> Inv (seen ++ [x]) s').
  { intros seen [row col] [fd1 g1] [fd2 g2] Hi Hb Hn. simpl.
    rewrite not_elem_of_app in Hn. destruct Hn as [Hn1 Hn2].
    rewrite (refine_pixel_other _ _ _ _ _ _ _ _ _ _ _ _ r c Hb).
    - by apply Hi.
    - intros E. apply Hn2. rewrite E. by apply list_elem_of_singleton. }
  refine (for_each_invariant body Inv Hstep _ [] _ _ _ Hloop Hnot).
  by intros _.
Qed.

(** * Further properties *)

(** ** The order of the floats that are not NaN *)

Lemma SFleb_rank x y :
  x <> S754_nan -> y <> S754_nan ->
  SFleb x y = true <-> lex_le (SFrank x) (SFrank y).
Proof.
  intros Hx Hy. unfold SFleb, SFcompare, lex_le.
  destruct x as [sx|sx| |sx mx ex], y as [sy|sy| |sy my ey]; try congruence;
    try destruct sx; try destruct sy; simpl; try (split; [intros _; lia | reflexivity]);
    try (split; [discriminate | lia]).
  - rewrite Pos.compare_cont_spec. simpl.
    destruct (Z.compare_spec ex ey); [destruct (Pos.compare_spec mx my)|..]; simpl;
      split; try discriminate; try lia; try reflexivity.
  - rewrite Pos.compare_cont_spec. simpl.
    destruct (Z.compare_spec ex ey); [destruct (Pos.compare_spec mx my)|..]; simpl;
      split; try discriminate; try lia; try reflexivity.
Qed.

Lemma isnan_false_spec x : Np.isnan x = false <-> Prim2SF x <> S754_nan.
Proof.
  rewrite <- isnan_spec. destruct (Np.isnan x); split; congruence.
Qed.

Lemma leb_true_not_nan x y :
  PrimFloat.leb x y = true -> Np.isnan x = false /\ Np.isnan y = false.
Proof.
  rewrite leb_spec, !isnan_false_spec. unfold SFleb, SFcompare.
  destruct (Prim2SF x), (Prim2SF y); try discriminate; split; congruence.
Qed.

Lemma leb_rank x y :
  Np.isnan x = false -> Np.isnan y = false ->
  PrimFloat.leb x y = true <-> lex_le (SFrank (Prim2SF x)) (SFrank (Prim2SF y)).
Proof.
  rewrite !isnan_false_spec, leb_spec. apply SFleb_rank.
Qed.

Lemma leb_refl x : Np.isnan x = false -> PrimFloat.leb x x = true.
Proof. intros H. apply leb_rank; [done..|]. unfold lex_le. lia. Qed.

Lemma leb_total x y :
  Np.isnan x = false -> Np.isnan y = false ->
  PrimFloat.leb x y = true \/ PrimFloat.leb y x = true.
Proof.
  intros Hx Hy. rewrite !leb_rank by done. unfold lex_le. lia.
Qed.

Lemma leb_trans x y z :
  PrimFloat.leb x y = true -> PrimFloat.leb y z = true -> PrimFloat.leb x z = true.
Proof.
  intros H1 H2.
  destruct (leb_true_not_nan _ _ H1) as [Hx Hy].
  destruct (leb_true_not_nan _ _ H2) as [_ Hz].
  rewrite leb_rank in * by done. unfold lex_le in *. lia.
Qed.

Lemma leb_false_flip x y :
  Np.isnan x = false -> Np.isnan y = false ->
  PrimFloat.leb x y = false -> PrimFloat.leb y x = true.
Proof.
  intros Hx Hy H. destruct (leb_total x y Hx Hy) as [E|E]; [congruence|done].
Qed.

(** [abs] *)
Lemma isnan_abs_eq x : Np.isnan (PrimFloat.abs x) = Np.isnan x.
Proof.
  destruct (Np.isnan x) eqn:E; [by apply isnan_abs|].
  apply isnan_false_spec. apply isnan_false_spec in E. rewrite abs_spec.
  destruct (Prim2SF x); simpl; congruence.
Qed.

Lemma abs_abs x : PrimFloat.abs (PrimFloat.abs x) = PrimFloat.abs x.
Proof.
  apply Prim2SF_inj. rewrite !abs_spec. by destruct (Prim2SF x).
Qed.

(** Two values of the same magnitude have the same absolute value. *)
Lemma abs_leb_antisym x y :
  PrimFloat.leb (PrimFloat.abs x) (PrimFloat.abs y) = true ->
  PrimFloat.leb (PrimFloat.abs y) (PrimFloat.abs x) = true ->
  PrimFloat.abs x = PrimFloat.abs y.
Proof.
  intros H1 H2.
  destruct (leb_true_not_nan _ _ H1) as [Hx Hy].
  rewrite leb_rank in H1, H2 by done.
  apply Prim2SF_inj. rewrite !abs_spec in *.
  rewrite isnan_abs_eq in Hx, Hy. apply isnan_false_spec in Hx, Hy.
  unfold lex_le in *.
  destruct (Prim2SF x) as [sx|sx| |sx mx ex], (Prim2SF y) as [sy|sy| |sy my ey];
    simpl in *; try congruence; try lia.
  assert (ex = ey) by lia. assert (mx = my) by lia. congruence.
Qed.

Lemma abs_not_neg_infinity x :
  Np.isnan x = false -> PrimFloat.leb (PrimFloat.abs x) Np.neg_infinity = false.
Proof.
  intros H. apply isnan_false_spec in H. rewrite leb_spec, abs_spec.
  change (Prim2SF Np.neg_infinity) with (S754_infinity true).
  by destruct (Prim2SF x).
Qed.

Lemma leb_neg_infinity x : Np.isnan x = false -> PrimFloat.leb Np.neg_infinity x = true.
Proof.
  intros H. apply isnan_false_spec in H. rewrite leb_spec.
  change (Prim2SF Np.neg_infinity) with (S754_infinity true).
  destruct (Prim2SF x) as [s|s| |s m e]; try congruence; try reflexivity; by destruct s.
Qed.

Lemma leb_infinity x : Np.isnan x = false -> PrimFloat.leb x Np.infinity = true.
Proof.
  intros H. apply isnan_false_spec in H. rewrite leb_spec.
  change (Prim2SF Np.infinity) with (S754_infinity false).
  destruct (Prim2SF x) as [s|s| |s m e]; try congruence; try reflexivity; by destruct s.
Qed.

(** ** The scans of [argmax] and [argmin] *)

Lemma argmax_scan_spec a : forall pre mp mi,
  (pre ++ a) !! mi = Some mp ->
  (Np.isnan mp = true \/ forall x, x ∈ pre -> PrimFloat.leb x mp = true) ->
  exists v, (pre ++ a) !! Np.argmax_scan mp mi (length pre) a = Some v
            /\ (Np.isnan v = true \/ forall x, x ∈ pre ++ a -> PrimFloat.leb x v = true).
Proof.
  induction a as [|x t IH]; intros pre mp mi Hmi Hinv.
  - simpl. exists mp. destruct (Np.isnan mp) eqn:E; (split; [done|]).
    + by left.
    + right. rewrite app_nil_r. by destruct Hinv.
  - simpl. destruct (Np.isnan mp) eqn:E.
    { exists mp. split; [done|by left]. }
    destruct Hinv as [?|Hinv]; [congruence|].
    replace (pre ++ x :: t) with ((pre ++ [x]) ++ t) in * by (by rewrite <- app_assoc).
    replace (S (length pre)) with (length (pre ++ [x])) by (rewrite length_app; simpl; lia).
    destruct (PrimFloat.leb x mp) eqn:Hle; simpl.
    + apply IH; [done|]. right. intros y [Hy|Hy%list_elem_of_singleton]%elem_of_app.
      * by apply Hinv.
      * by subst.
    + apply IH.
      * rewrite lookup_app_l by (rewrite length_app; simpl; lia).
        by rewrite list_lookup_middle.
      * destruct (Np.isnan x) eqn:Ex; [by left|right].
        pose proof (leb_false_flip _ _ Ex E Hle) as Hmx.
        intros y [Hy|Hy%list_elem_of_singleton]%elem_of_app.
        -- eapply leb_trans; [by apply Hinv|done].
        -- subst. by apply leb_refl.
Qed.

Lemma argmin_scan_spec a : forall pre mp mi,
  (pre ++ a) !! mi = Some mp ->
  (Np.isnan mp = true \/ forall x, x ∈ pre -> PrimFloat.leb mp x = true) ->
  exists v, (pre ++ a) !! Np.argmin_scan mp mi (length pre) a = Some v
            /\ (Np.isnan v = true \/ forall x, x ∈ pre ++ a -> PrimFloat.leb v x = true).
Proof.
  induction a as [|x t IH]; intros pre mp mi Hmi Hinv.
  - simpl. exists mp. destruct (Np.isnan mp) eqn:E; (split; [done|]).
    + by left.
    + right. rewrite app_nil_r. by destruct Hinv.
  - simpl. destruct (Np.isnan mp) eqn:E.
    { exists mp. split; [done|by left]. }
    destruct Hinv as [?|Hinv]; [congruence|].
    replace (pre ++ x :: t) with ((pre ++ [x]) ++ t) in * by (by rewrite <- app_assoc).
    replace (S (length pre)) with (length (pre ++ [x])) by (rewrite length_app; simpl; lia).
    destruct (PrimFloat.leb mp x) eqn:Hle; simpl.
    + apply IH; [done|]. right. intros y [Hy|Hy%list_elem_of_singleton]%elem_of_app.
      * by apply Hinv.
      * by subst.
    + apply IH.
      * rewrite lookup_app_l by (rewrite length_app; simpl; lia).
        by rewrite list_lookup_middle.
      * destruct (Np.isnan x) eqn:Ex; [by left|right].
        pose proof (leb_false_flip _ _ E Ex Hle) as Hmx.
        intros y [Hy|Hy%list_elem_of_singleton]%elem_of_app.
        -- eapply leb_trans; [done|by apply Hinv].
        -- subst. by apply leb_refl.
Qed.

(** [a.argmax()]: the index returned holds a NaN, or a value that no
    value of the array exceeds. *)
Lemma argmax_spec a :
  a <> [] ->
  exists i v, Np.argmax a = Ok i /\ a !! i = Some v
              /\ (Np.isnan v = true \/ forall x, x ∈ a -> PrimFloat.leb x v = true).
Proof.
  destruct a as [|x t]; [done|]. intros _. unfold Np.argmax.
  destruct (argmax_scan_spec t [x] x 0%nat) as (v & Hv & Hmax); [done| |].
  - destruct (Np.isnan x) eqn:E; [by left|right].
    intros y ->%list_elem_of_singleton. by apply leb_refl.
  - exists (Np.argmax_scan x 0 1 t), v. done.
Qed.

Lemma argmin_spec a :
  a <> [] ->
  exists i v, Np.argmin a = Ok i /\ a !! i = Some v
              /\ (Np.isnan v = true \/ forall x, x ∈ a -> PrimFloat.leb v x = true).
Proof.
  destruct a as [|x t]; [done|]. intros _. unfold Np.argmin.
  destruct (argmin_scan_spec t [x] x 0%nat) as (v & Hv & Hmax); [done| |].
  - destruct (Np.isnan x) eqn:E; [by left|right].
    intros y ->%list_elem_of_singleton. by apply leb_refl.
  - exists (Np.argmin_scan x 0 1 t), v. done.
Qed.

Lemma all_nan_false a :
  Np.all_nan a = false <-> exists x, x ∈ a /\ Np.isnan x = false.
Proof.
  unfold Np.all_nan. induction a as [|y t IH]; simpl.
  - split; [discriminate|]. intros (x & Hx & _). by apply elem_of_nil in Hx.
  - rewrite andb_false_iff, IH. split.
    + intros [H|(x & Hx & H)]; [exists y|exists x]; split; auto; [by left|by right].
    + intros (x & [->|Hx]%elem_of_cons & H); [by left|right; eauto].
Qed.

Lemma replace_nan_lookup v a i :
  Np.replace_nan v a !! i = (fun x => if Np.isnan x then v else x) <$> a !! i.
Proof. unfold Np.replace_nan. apply list_lookup_fmap. Qed.

Lemma replace_nan_not_nan v a x :
  Np.isnan v = false -> x ∈ Np.replace_nan v a -> Np.isnan x = false.
Proof.
  intros Hv (y & -> & _)%list_elem_of_fmap. by destruct (Np.isnan y) eqn:E.
Qed.

(** [np.nanargmax] of data that is not all NaN: the index returned is
    within the array, and no usable value exceeds the value there, a NaN
    counting as minus infinity. *)
Lemma nanargmax_spec a :
  Np.all_nan a = false ->
  exists i w, Np.nanargmax a = Ok i /\ a !! i = Some w
    /\ forall x, x ∈ a -> Np.isnan x = false ->
         PrimFloat.leb x (if Np.isnan w then Np.neg_infinity else w) = true.
Proof.
  intros Hall. unfold Np.nanargmax. rewrite Hall.
  apply all_nan_false in Hall as (x0 & Hx0 & Hn0).
  destruct (argmax_spec (Np.replace_nan Np.neg_infinity a)) as (i & v & Hi & Hv & Hmax).
  { intros E. apply (f_equal length) in E. unfold Np.replace_nan in E.
    rewrite length_map in E. destruct a; [by apply elem_of_nil in Hx0|done]. }
  rewrite replace_nan_lookup in Hv.
  destruct (a !! i) as [w|] eqn:Hw; simpl in Hv; [|done]. injection Hv as <-.
  exists i, w. split; [done|]. split; [done|].
  intros x Hx Hn. destruct Hmax as [Hnan|Hmax].
  - exfalso. destruct (Np.isnan w) eqn:E; [done|congruence].
  - apply Hmax. unfold Np.replace_nan. apply list_elem_of_fmap.
    exists x. by rewrite Hn.
Qed.

Lemma nanargmin_spec a :
  Np.all_nan a = false ->
  exists i w, Np.nanargmin a = Ok i /\ a !! i = Some w
    /\ forall x, x ∈ a -> Np.isnan x = false ->
         PrimFloat.leb (if Np.isnan w then Np.infinity else w) x = true.
Proof.
  intros Hall. unfold Np.nanargmin. rewrite Hall.
  apply all_nan_false in Hall as (x0 & Hx0 & Hn0).
  destruct (argmin_spec (Np.replace_nan Np.infinity a)) as (i & v & Hi & Hv & Hmax).
  { intros E. apply (f_equal length) in E. unfold Np.replace_nan in E.
    rewrite length_map in E. destruct a; [by apply elem_of_nil in Hx0|done]. }
  rewrite replace_nan_lookup in Hv.
  destruct (a !! i) as [w|] eqn:Hw; simpl in Hv; [|done]. injection Hv as <-.
  exists i, w. split; [done|]. split; [done|].
  intros x Hx Hn. destruct Hmax as [Hnan|Hmax].
  - exfalso. destruct (Np.isnan w) eqn:E; [done|congruence].
  - apply Hmax. unfold Np.replace_nan. apply list_elem_of_fmap.
    exists x. by rewrite Hn.
Qed.

(** ** The estimator *)

Lemma count_split d : length d = (Np.count_nan d + length (Np.drop_nan d))%nat.
Proof.
  unfold Np.count_nan, Np.drop_nan. induction d as [|x d IH]; [done|].
  rewrite !filter_cons. simpl. destruct (Np.isnan x); repeat case_decide; simpl; try done; lia.
Qed.

Lemma num_usable_drop_nan d : num_usable d = Z.of_nat (length (Np.drop_nan d)).
Proof. unfold num_usable. pose proof (count_split d). lia. Qed.

Lemma elem_of_drop_nan d x : x ∈ Np.drop_nan d <-> x ∈ d /\ Np.isnan x = false.
Proof. unfold Np.drop_nan. by rewrite list_elem_of_filter, (comm and). Qed.

Lemma usable_not_all_nan d : 0 < num_usable d -> Np.all_nan d = false.
Proof.
  rewrite num_usable_drop_nan. intros H. apply all_nan_false.
  destruct (Np.drop_nan d) as [|x t] eqn:E; [simpl in H; lia|].
  exists x. apply elem_of_drop_nan. rewrite E. by left.
Qed.

Lemma all_nan_map_abs d : Np.all_nan (map PrimFloat.abs d) = Np.all_nan d.
Proof.
  unfold Np.all_nan. induction d as [|x d IH]; [done|]. simpl.
  by rewrite isnan_abs_eq, IH.
Qed.

(** [np.nanargmax(np.abs(d))] of data with a usable value: the index of a
    usable value of largest magnitude. *)
Lemma nanargmax_abs_spec d :
  0 < num_usable d ->
  exists i v, Np.nanargmax (map PrimFloat.abs d) = Ok i /\ d !! i = Some v
    /\ Np.isnan v = false
    /\ forall x, x ∈ d -> Np.isnan x = false ->
         PrimFloat.leb (PrimFloat.abs x) (PrimFloat.abs v) = true.
Proof.
  intros Hu. pose proof (usable_not_all_nan d Hu) as Hall.
  destruct (nanargmax_spec (map PrimFloat.abs d)) as (i & w & Hi & Hw & Hmax).
  { by rewrite all_nan_map_abs. }
  rewrite list_lookup_fmap in Hw.
  destruct (d !! i) as [v|] eqn:Hv; simpl in Hw; [|done]. injection Hw as <-.
  apply all_nan_false in Hall as (x0 & Hx0 & Hn0).
  assert (Hnv : Np.isnan v = false).
  { destruct (Np.isnan v) eqn:E; [|done]. exfalso.
    specialize (Hmax (PrimFloat.abs x0)).
    rewrite !isnan_abs_eq, E in Hmax.
    rewrite abs_not_neg_infinity in Hmax by done.
    assert (false = true); [|done]. apply Hmax; [|done].
    apply list_elem_of_fmap. eauto. }
  exists i, v. repeat split; try done.
  intros x Hx Hn. specialize (Hmax (PrimFloat.abs x)).
  rewrite !isnan_abs_eq, Hnv in Hmax. apply Hmax; [|done].
  apply list_elem_of_fmap. eauto.
Qed.

Lemma leb_infinity_is_infinite x :
  PrimFloat.leb Np.infinity (PrimFloat.abs x) = true -> is_infinite x = true.
Proof.
  unfold is_infinite. rewrite leb_spec, FloatAxioms.eqb_spec, abs_spec.
  change (Prim2SF Np.infinity) with (S754_infinity false).
  by destruct (Prim2SF x) as [s|s| |s m e].
Qed.

(** [np.nanargmin(np.abs(d))] of data with a usable value that is not
    infinite: the index of a usable value of smallest magnitude. *)
Lemma nanargmin_abs_spec d :
  (exists x, x ∈ d /\ Np.isnan x = false /\ is_infinite x = false) ->
  exists i v, Np.nanargmin (map PrimFloat.abs d) = Ok i /\ d !! i = Some v
    /\ Np.isnan v = false
    /\ forall x, x ∈ d -> Np.isnan x = false ->
         PrimFloat.leb (PrimFloat.abs v) (PrimFloat.abs x) = true.
Proof.
  intros (x0 & Hx0 & Hn0 & Hf0).
  destruct (nanargmin_spec (map PrimFloat.abs d)) as (i & w & Hi & Hw & Hmin).
  { rewrite all_nan_map_abs. apply all_nan_false. eauto. }
  rewrite list_lookup_fmap in Hw.
  destruct (d !! i) as [v|] eqn:Hv; simpl in Hw; [|done]. injection Hw as <-.
  assert (Hnv : Np.isnan v = false).
  { destruct (Np.isnan v) eqn:E; [|done]. exfalso.
    specialize (Hmin (PrimFloat.abs x0)).
    rewrite !isnan_abs_eq, E in Hmin.
    assert (is_infinite x0 = true); [|congruence].
    apply leb_infinity_is_infinite. apply Hmin; [|done].
    apply list_elem_of_fmap. eauto. }
  exists i, v. repeat split; try done.
  intros x Hx Hn. specialize (Hmin (PrimFloat.abs x)).
  rewrite !isnan_abs_eq, Hnv in Hmin. apply Hmin; [|done].
  apply list_elem_of_fmap. eauto.
Qed.

(** *** The 1-D form, tier by tier *)

Lemma dim1_ge4 d :
  4 <= num_usable d ->
  exists i v, Np.nanargmax (map PrimFloat.abs d) = Ok i /\ d !! i = Some v
    /\ Np.isnan v = false
    /\ (forall x, x ∈ d -> Np.isnan x = false ->
          PrimFloat.leb (PrimFloat.abs x) (PrimFloat.abs v) = true)
    /\ calc_med_first_diffs_dim1 d = Ok (Np.nanmedian (Np.remove_at i d)).
Proof.
  intros Hu. destruct (nanargmax_abs_spec d) as (i & v & Hi & Hv & Hn & Hmax); [lia|].
  exists i, v. repeat split; try done.
  unfold calc_med_first_diffs_dim1. fold (num_usable d).
  replace (4 <=? num_usable d) with true by lia. by rewrite Hi.
Qed.

Lemma dim1_two d :
  num_usable d = 2 ->
  (exists x, x ∈ d /\ Np.isnan x = false /\ is_infinite x = false) ->
  exists i v, d !! i = Some v /\ Np.isnan v = false
    /\ (forall x, x ∈ d -> Np.isnan x = false ->
          PrimFloat.leb (PrimFloat.abs v) (PrimFloat.abs x) = true)
    /\ calc_med_first_diffs_dim1 d = Ok v.
Proof.
  intros Hu Hfin. destruct (nanargmin_abs_spec d Hfin) as (i & v & Hi & Hv & Hn & Hmin).
  exists i, v. repeat split; try done.
  unfold calc_med_first_diffs_dim1. fold (num_usable d). rewrite Hu. simpl.
  rewrite Hi. simpl. by rewrite (nth_lookup_Some _ _ _ _ Hv).
Qed.

Lemma dim1_lt2 d : num_usable d < 2 -> calc_med_first_diffs_dim1 d = Ok PrimFloat.nan.
Proof.
  intros Hu. unfold calc_med_first_diffs_dim1. fold (num_usable d).
  replace (4 <=? num_usable d) with false by lia.
  replace (num_usable d =? 3) with false by lia.
  by replace (num_usable d =? 2) with false by lia.
Qed.

Lemma dim1_returns d : exists m, calc_med_first_diffs_dim1 d = Ok m.
Proof.
  destruct (Z_le_gt_dec 4 (num_usable d)) as [H4|H4].
  { destruct (dim1_ge4 d H4) as (i & v & _ & _ & _ & _ & ->). eauto. }
  unfold calc_med_first_diffs_dim1. fold (num_usable d).
  replace (4 <=? num_usable d) with false by lia.
  destruct (num_usable d =? 3); [eauto|].
  destruct (num_usable d =? 2) eqn:E2; [|eauto].
  destruct (Np.nanargmin (map PrimFloat.abs d)) as [i|e] eqn:Hi; simpl; [eauto|].
  exfalso. unfold Np.nanargmin in Hi. rewrite all_nan_map_abs in Hi.
  rewrite usable_not_all_nan in Hi by (apply Z.eqb_eq in E2; lia).
  destruct (argmin_spec (Np.replace_nan Np.infinity (map PrimFloat.abs d))) as (j & w & Hj & _).
  - intros E. apply (f_equal length) in E. unfold Np.replace_nan in E.
    rewrite !length_map in E. apply Z.eqb_eq in E2. unfold num_usable in E2. simpl in E. lia.
  - congruence.
Qed.

(** *** The 2-D form *)

Lemma drop_nan_remove_nan a i v :
  a !! i = Some v -> Np.isnan v = true -> Np.drop_nan (Np.remove_at i a) = Np.drop_nan a.
Proof.
  intros Hi Hv. unfold Np.remove_at, Np.drop_nan.
  rewrite <- (take_drop_middle a i v Hi) at 3.
  rewrite !filter_app, filter_cons. case_decide; [congruence|done].
Qed.

Lemma dim2_unfold slab :
  calc_med_first_diffs_dim2 slab
  = let flat := concat slab in
    if 4 <=? num_usable flat then
      location ← Np.argmax flat; Ok (Np.nanmedian (Np.remove_at location flat))
    else if num_usable flat =? 3 then Ok (Np.nanmedian flat)
    else if num_usable flat =? 2 then
      _ ← Np.nanargmin (map PrimFloat.abs flat);
      diff_min_idx ← Np.nanargmin flat;
      Ok (nth diff_min_idx flat PrimFloat.nan)
    else Ok PrimFloat.nan.
Proof. reflexivity. Qed.

Lemma usable_nonempty d : 0 < num_usable d -> d <> [].
Proof. intros H ->. unfold num_usable in H. simpl in H. lia. Qed.

(** With four or more usable values and a NaN in the slab, [argmax]
    returns the position of a NaN and nothing is clipped. *)
Lemma dim2_ge4_nan slab :
  4 <= num_usable (concat slab) ->
  (exists y, y ∈ concat slab /\ Np.isnan y = true) ->
  calc_med_first_diffs_dim2 slab = Ok (Np.nanmedian (concat slab)).
Proof.
  intros Hu (y & Hy & Hn). rewrite dim2_unfold. cbv zeta.
  replace (4 <=? num_usable (concat slab)) with true by lia.
  destruct (argmax_spec (concat slab)) as (i & v & Hi & Hv & Hmax).
  { apply usable_nonempty. lia. }
  rewrite Hi. simpl. f_equal. unfold Np.nanmedian. f_equal. f_equal.
  apply (drop_nan_remove_nan _ _ v Hv).
  destruct Hmax as [?|Hmax]; [done|].
  apply Hmax, leb_true_not_nan in Hy. destruct Hy. congruence.
Qed.

(** With four or more values and no NaN, the value clipped is a largest
    signed value. *)
Lemma dim2_ge4_clean slab :
  4 <= num_usable (concat slab) ->
  (forall y, y ∈ concat slab -> Np.isnan y = false) ->
  exists i v, concat slab !! i = Some v
    /\ (forall x, x ∈ concat slab -> PrimFloat.leb x v = true)
    /\ calc_med_first_diffs_dim2 slab = Ok (Np.nanmedian (Np.remove_at i (concat slab))).
Proof.
  intros Hu Hclean. rewrite dim2_unfold. cbv zeta.
  replace (4 <=? num_usable (concat slab)) with true by lia.
  destruct (argmax_spec (concat slab)) as (i & v & Hi & Hv & Hmax).
  { apply usable_nonempty. lia. }
  exists i, v. rewrite Hi. simpl. repeat split; try done.
  destruct Hmax as [Hn|Hmax]; [|done].
  rewrite Hclean in Hn; [done|]. by eapply list_elem_of_lookup_2.
Qed.

Lemma leb_infinity_pos x :
  PrimFloat.leb Np.infinity x = true -> is_infinite x = true.
Proof.
  unfold is_infinite. rewrite leb_spec, FloatAxioms.eqb_spec, abs_spec.
  change (Prim2SF Np.infinity) with (S754_infinity false).
  by destruct (Prim2SF x) as [s|[|]| |s m e].
Qed.

(** [np.nanargmin(d)] of data with a usable value that is not infinite:
    the index of a smallest usable value. *)
Lemma nanargmin_signed_spec d :
  (exists x, x ∈ d /\ Np.isnan x = false /\ is_infinite x = false) ->
  exists i v, Np.nanargmin d = Ok i /\ d !! i = Some v
    /\ Np.isnan v = false
    /\ forall x, x ∈ d -> Np.isnan x = false -> PrimFloat.leb v x = true.
Proof.
  intros (x0 & Hx0 & Hn0 & Hf0).
  destruct (nanargmin_spec d) as (i & v & Hi & Hv & Hmin).
  { apply all_nan_false. eauto. }
  assert (Hnv : Np.isnan v = false).
  { destruct (Np.isnan v) eqn:E; [|done]. exfalso.
    assert (is_infinite x0 = true); [|congruence].
    apply leb_infinity_pos. by apply Hmin. }
  exists i, v. repeat split; try done.
  intros x Hx Hn. specialize (Hmin x Hx Hn). by rewrite Hnv in Hmin.
Qed.

Lemma dim2_two slab :
  num_usable (concat slab) = 2 ->
  (exists x, x ∈ concat slab /\ Np.isnan x = false /\ is_infinite x = false) ->
  exists i v, concat slab !! i = Some v /\ Np.isnan v = false
    /\ (forall x, x ∈ concat slab -> Np.isnan x = false -> PrimFloat.leb v x = true)
    /\ calc_med_first_diffs_dim2 slab = Ok v.
Proof.
  intros Hu Hfin. rewrite dim2_unfold. cbv zeta. rewrite Hu. simpl.
  destruct (nanargmin_abs_spec _ Hfin) as (j & w & Hj & _).
  destruct (nanargmin_signed_spec _ Hfin) as (i & v & Hi & Hv & Hn & Hmin).
  exists i, v. rewrite Hj, Hi. simpl. repeat split; try done.
  by rewrite (nth_lookup_Some _ _ _ _ Hv).
Qed.

Lemma nanargmin_returns d : 0 < num_usable d -> exists i, Np.nanargmin d = Ok i.
Proof.
  intros Hu. unfold Np.nanargmin. rewrite usable_not_all_nan by done.
  destruct (argmin_spec (Np.replace_nan Np.infinity d)) as (j & w & Hj & _); [|eauto].
  intros E. apply (f_equal length) in E. unfold Np.replace_nan in E.
  rewrite length_map in E. by apply (usable_nonempty d Hu), nil_length_inv.
Qed.

Lemma num_usable_map_abs d : num_usable (map PrimFloat.abs d) = num_usable d.
Proof.
  unfold num_usable, Np.count_nan. rewrite length_map. do 2 f_equal.
  induction d as [|x d IH]; [done|]. simpl. rewrite !filter_cons, isnan_abs_eq.
  case_decide; simpl; by rewrite IH.
Qed.

Lemma dim2_returns slab : exists m, calc_med_first_diffs_dim2 slab = Ok m.
Proof.
  rewrite dim2_unfold. cbv zeta.
  destruct (4 <=? num_usable (concat slab)) eqn:E4.
  { destruct (argmax_spec (concat slab)) as (i & v & -> & _); [|simpl; eauto].
    apply usable_nonempty. apply Z.leb_le in E4. lia. }
  destruct (num_usable (concat slab) =? 3); [eauto|].
  destruct (num_usable (concat slab) =? 2) eqn:E2; [|eauto].
  apply Z.eqb_eq in E2.
  destruct (nanargmin_returns (map PrimFloat.abs (concat slab))) as [j ->].
  { rewrite num_usable_map_abs. lia. }
  destruct (nanargmin_returns (concat slab)) as [i ->]; [lia|].
  simpl. eauto.
Qed.

(** *** The 4-D form, pixel by pixel *)

Lemma dim4_pixel_unfold column :
  calc_med_first_diffs_dim4_pixel column
  = if 4 <=? num_usable column then
      loc0 ← Np.nanargmax column; Ok (Np.nanmedian (<[loc0 := PrimFloat.nan]> column))
    else if num_usable column =? 3 then Ok (Np.nanmedian column)
    else if num_usable column =? 2 then
      i ← Np.nanargmax (map PrimFloat.abs column);
      Ok (Np.nanmin (<[i := PrimFloat.nan]> column))
    else Ok PrimFloat.nan.
Proof. reflexivity. Qed.

Lemma nanargmax_returns d : 0 < num_usable d -> exists i, Np.nanargmax d = Ok i /\ (i < length d)%nat.
Proof.
  intros Hu. destruct (nanargmax_spec d) as (i & w & Hi & Hw & _).
  - by apply usable_not_all_nan.
  - exists i. split; [done|]. by eapply lookup_lt_Some.
Qed.

Lemma dim4_pixel_returns column : exists m, calc_med_first_diffs_dim4_pixel column = Ok m.
Proof.
  rewrite dim4_pixel_unfold.
  destruct (4 <=? num_usable column) eqn:E4.
  { apply Z.leb_le in E4. destruct (nanargmax_returns column) as (i & -> & _); [lia|].
    simpl. eauto. }
  destruct (num_usable column =? 3); [eauto|].
  destruct (num_usable column =? 2) eqn:E2; [|eauto].
  apply Z.eqb_eq in E2.
  destruct (nanargmax_returns (map PrimFloat.abs column)) as (i & -> & _).
  { rewrite num_usable_map_abs. lia. }
  simpl. eauto.
Qed.

Lemma fmin_nan_l a b : Np.isnan a = true -> Np.fmin a b = b.
Proof. intros H. unfold Np.fmin. by rewrite H. Qed.

Lemma nanmin_drop_nan l : Np.nanmin l = Np.nanmin (Np.drop_nan l).
Proof.
  unfold Np.nanmin, Np.drop_nan. induction l as [|x l IH]; [done|].
  rewrite filter_cons. case_decide as Hx; simpl.
  - by rewrite IH.
  - rewrite fmin_nan_l by (by destruct (Np.isnan x)). done.
Qed.

Lemma nanmin_singleton x : Np.isnan x = false -> Np.nanmin [x] = x.
Proof. intros H. unfold Np.nanmin. simpl. unfold Np.fmin. by rewrite H. Qed.

Lemma drop_nan_insert_nan l i :
  (i < length l)%nat -> Np.drop_nan (<[i := PrimFloat.nan]> l) = Np.drop_nan (Np.remove_at i l).
Proof.
  intros Hi. rewrite insert_take_drop by done. unfold Np.remove_at, Np.drop_nan.
  rewrite !filter_app, filter_cons. case_decide as H; [|done].
  by rewrite isnan_nan in H.
Qed.

Lemma dim4_pixel_two column :
  num_usable column = 2 ->
  exists v, v ∈ column /\ Np.isnan v = false
    /\ (forall x, x ∈ column -> Np.isnan x = false ->
          PrimFloat.leb (PrimFloat.abs v) (PrimFloat.abs x) = true)
    /\ calc_med_first_diffs_dim4_pixel column = Ok v.
Proof.
  intros Hu. rewrite dim4_pixel_unfold, Hu. simpl.
  destruct (nanargmax_abs_spec column) as (i & w & Hi & Hw & Hnw & Hmax); [lia|].
  rewrite Hi. simpl.
  set (rest := <[i := PrimFloat.nan]> column).
  assert (Hlen : length (Np.drop_nan rest) = 1%nat).
  { pose proof (count_split (<[i := PrimFloat.nan]> column)) as Hc.
    pose proof (count_split column) as Hc0.
    rewrite length_insert, (count_nan_insert _ _ _ Hw Hnw) in Hc. fold rest in Hc.
    rewrite num_usable_drop_nan in Hu. lia. }
  destruct (Np.drop_nan rest) as [|r [|]] eqn:Hd; try done.
  assert (Hr : r ∈ rest /\ Np.isnan r = false).
  { apply elem_of_drop_nan. rewrite Hd. by left. }
  destruct Hr as [Hr Hnr].
  exists r. rewrite nanmin_drop_nan, Hd, nanmin_singleton by done.
  assert (Hin : forall x, x ∈ rest -> Np.isnan x = false -> x ∈ column).
  { intros x [j Hj]%list_elem_of_lookup Hx. unfold rest in Hj.
    destruct (decide (i = j)) as [<-|Hne].
    - rewrite list_lookup_insert_eq in Hj by (by eapply lookup_lt_Some).
      injection Hj as <-. done.
    - rewrite list_lookup_insert_ne in Hj by done. by eapply list_elem_of_lookup_2. }
  repeat split; try done; [by apply Hin|].
  intros x [j Hj]%list_elem_of_lookup Hx.
  destruct (decide (i = j)) as [<-|Hne].
  - assert (x = w) as -> by congruence. apply Hmax; [by apply Hin|done].
  - assert (x ∈ Np.drop_nan rest) as Hxr.
    { apply elem_of_drop_nan. split; [|done]. apply (list_elem_of_lookup_2 _ j).
      unfold rest. by rewrite list_lookup_insert_ne. }
    rewrite Hd in Hxr. apply list_elem_of_singleton in Hxr as ->.
    apply leb_refl. by rewrite isnan_abs_eq.
Qed.

(** On a column of magnitudes that holds no infinity the 4-D form and the
    1-D form return the same value. *)
Lemma dim4_pixel_dim1_abs d :
  Forall (fun x => is_infinite x = false) d ->
  calc_med_first_diffs_dim4_pixel (map PrimFloat.abs d)
  = calc_med_first_diffs_dim1 (map PrimFloat.abs d).
Proof.
  intros Hfin. set (col := map PrimFloat.abs d).
  assert (Habs : map PrimFloat.abs col = col).
  { unfold col. rewrite map_map. apply map_ext. intros. apply abs_abs. }
  assert (Hself : forall x, x ∈ col -> PrimFloat.abs x = x).
  { intros x (y & -> & _)%list_elem_of_fmap. apply abs_abs. }
  destruct (Z_le_gt_dec 4 (num_usable col)) as [H4|H4].
  { destruct (dim1_ge4 col H4) as (i & v & Hi & Hv & _ & _ & ->).
    rewrite dim4_pixel_unfold. replace (4 <=? num_usable col) with true by lia.
    rewrite Habs in Hi. rewrite Hi. simpl. f_equal. unfold Np.nanmedian.
    rewrite drop_nan_insert_nan; [done|]. by eapply lookup_lt_Some. }
  destruct (decide (num_usable col = 2)) as [H2|H2].
  { destruct (dim4_pixel_two col H2) as (v4 & Hv4 & Hn4 & Hmin4 & ->).
    destruct (dim1_two col H2) as (i & v1 & Hv1 & Hn1 & Hmin1 & ->).
    { destruct (Np.drop_nan col) as [|x t] eqn:E.
      - rewrite num_usable_drop_nan, E in H2. simpl in H2. lia.
      - exists x. assert (Hx : x ∈ col /\ Np.isnan x = false).
        { apply elem_of_drop_nan. rewrite E. by left. }
        destruct Hx as [Hx Hnx]. repeat split; try done.
        apply list_elem_of_fmap in Hx as (y & -> & Hy).
        rewrite Forall_forall in Hfin. unfold is_infinite. rewrite abs_abs.
        by apply (Hfin y). }
    f_equal. apply list_elem_of_lookup_2 in Hv1.
    rewrite <- (Hself v4 Hv4), <- (Hself v1 Hv1).
    apply abs_leb_antisym; [by apply Hmin4|by apply Hmin1]. }
  rewrite dim4_pixel_unfold. unfold calc_med_first_diffs_dim1. fold (num_usable col).
  replace (4 <=? num_usable col) with false by lia.
  destruct (num_usable col =? 3); [done|].
  by replace (num_usable col =? 2) with false by lia.
Qed.

(** *** The 4-D form on a cube *)

Lemma mapM_Ok_inv {A B} (f : A -> result B) l ys :
  mapM f l = Ok ys -> Forall2 (fun x y => f x = Ok y) l ys.
Proof.
  revert ys. induction l as [|x l IH]; intros ys H; simpl in H.
  - injection H as <-. constructor.
  - apply bind_Ok in H as (y & Hy & H). apply bind_Ok in H as (k & Hk & H).
    injection H as <-. constructor; [done|by apply IH].
Qed.

Lemma mapM_returns {A B} (f : A -> result B) l :
  (forall x, x ∈ l -> exists y, f x = Ok y) -> exists ys, mapM f l = Ok ys.
Proof.
  induction l as [|x l IH]; intros H; simpl; [eauto|].
  destruct (H x) as [y ->]; [by left|]. simpl.
  destruct IH as [ys ->]; [intros; apply H; by right|]. simpl. eauto.
Qed.

Lemma dim4_returns first_diffs : exists median_diffs, calc_med_first_diffs_dim4 first_diffs = Ok median_diffs.
Proof.
  unfold calc_med_first_diffs_dim4. destruct (shape4 first_diffs) as [[[ni nd] nr] nc].
  apply mapM_returns. intros r _. apply mapM_returns. intros c _.
  apply dim4_pixel_returns.
Qed.

(** The entries of the array returned by the 4-D form. *)
Lemma dim4_entries first_diffs median_diffs r c :
  calc_med_first_diffs_dim4 first_diffs = Ok median_diffs ->
  (r < (shape4 first_diffs).1.2)%nat -> (c < (shape4 first_diffs).2)%nat ->
  exists m, get2 median_diffs r c = Some m
            /\ calc_med_first_diffs_dim4_pixel (pixel_vec first_diffs r c) = Ok m.
Proof.
  unfold calc_med_first_diffs_dim4. destruct (shape4 first_diffs) as [[[ni nd] nr] nc].
  simpl. intros H Hr Hc. apply mapM_Ok_inv in H.
  destruct (Forall2_lookup_l _ _ _ r r H) as (row & Hrow & Hm).
  { by apply lookup_seq_lt. }
  apply mapM_Ok_inv in Hm.
  destruct (Forall2_lookup_l _ _ _ c c Hm) as (m & Hmc & Hp).
  { by apply lookup_seq_lt. }
  exists m. unfold get2. rewrite Hrow. simpl. done.
Qed.

Lemma imap_ignore {A B} (g : A -> B) (l : list A) : imap (fun _ x => g x) l = map g l.
Proof. apply (imap_const g). Qed.

Lemma imap4_ignore {T U} (g : T -> U) (a : arr4 T) :
  imap4 (fun _ _ _ _ x => g x) a = map (map (map (map g))) a.
Proof.
  unfold imap4, imap3, imap2.
  rewrite <- imap_ignore. apply imap_ext. intros i x _.
  rewrite <- imap_ignore. apply imap_ext. intros k pl _.
  rewrite <- imap_ignore. apply imap_ext. intros r row _.
  apply imap_ignore.
Qed.

Lemma getf2_map_abs pl r c :
  getf2 (map (map PrimFloat.abs) pl) r c = PrimFloat.abs (getf2 pl r c).
Proof.
  unfold getf2, get2. rewrite list_lookup_fmap.
  destruct (pl !! r) as [row|]; simpl; [|done].
  rewrite list_lookup_fmap. by destruct (row !! c).
Qed.

Lemma pixel_vec_abs cube r c :
  pixel_vec (imap4 (fun _ _ _ _ x => PrimFloat.abs x) cube) r c
  = map PrimFloat.abs (pixel_vec cube r c).
Proof.
  rewrite imap4_ignore. unfold pixel_vec, pixel_slab.
  rewrite concat_map, !map_map. f_equal. apply map_ext. intros x.
  rewrite !map_map. apply map_ext. intros pl. apply getf2_map_abs.
Qed.

Lemma all4_get4 {T} (P : T -> bool) (a : arr4 T) i g r c x :
  all4 P a = true -> get4 a i g r c = Some x -> P x = true.
Proof.
  unfold all4, get4, get3, get2. intros H Hx.
  destruct (a !! i) as [y|] eqn:Ei; simpl in Hx; [|done].
  destruct (y !! g) as [pl|] eqn:Eg; simpl in Hx; [|done].
  destruct (pl !! r) as [row|] eqn:Er; simpl in Hx; [|done].
  rewrite forallb_forall in H. apply list_elem_of_lookup_2, list_elem_of_In, H in Ei.
  rewrite forallb_forall in Ei. apply list_elem_of_lookup_2, list_elem_of_In, Ei in Eg.
  rewrite forallb_forall in Eg. apply list_elem_of_lookup_2, list_elem_of_In, Eg in Er.
  rewrite forallb_forall in Er. by apply list_elem_of_lookup_2, list_elem_of_In, Er in Hx.
Qed.

Lemma elem_of_pixel_vec a r c x :
  x ∈ pixel_vec a r c -> x = PrimFloat.nan \/ exists i g, get4 a i g r c = Some x.
Proof.
  unfold pixel_vec, pixel_slab. intros H.
  apply list_elem_of_In, in_concat in H as (l & Hl & Hx).
  apply list_elem_of_In, list_elem_of_fmap in Hl as (y & -> & Hy).
  apply list_elem_of_In, list_elem_of_fmap in Hx as (pl & -> & Hpl).
  apply list_elem_of_lookup in Hy as [i Hi]. apply list_elem_of_lookup in Hpl as [g Hg].
  unfold getf2. destruct (get2 pl r c) as [v|] eqn:E; simpl; [right|by left].
  exists i, g. unfold get4, get3. rewrite Hi. simpl. by rewrite Hg.
Qed.

Lemma pixel_vec_no_infinity cube r c :
  all4 (fun x => negb (is_infinite x)) cube = true ->
  Forall (fun x => is_infinite x = false) (pixel_vec cube r c).
Proof.
  intros H. apply Forall_forall. intros x [->|(i & g & Hx)]%elem_of_pixel_vec; [done|].
  apply (all4_get4 _ _ _ _ _ _ _ H) in Hx. by apply negb_true_iff.
Qed.

Lemma concat_reshape2 {T} (n w : nat) (flat : list T) :
  length flat = (n * w)%nat -> concat (reshape2 n w flat) = flat.
Proof.
  unfold reshape2. revert flat. induction n as [|n IH]; intros flat Hlen.
  - simpl in *. by destruct flat.
  - rewrite <- cons_seq, <- fmap_S_seq. simpl. rewrite drop_0.
    transitivity (take w flat ++ drop w flat); [|apply take_drop]. f_equal.
    etransitivity; [|apply (IH (drop w flat)); rewrite length_drop; lia].
    f_equal. rewrite map_map. apply map_ext. intros i. simpl.
    by rewrite drop_drop.
Qed.

(** *** The estimator, shape by shape *)

(** X1.  The estimator returns for every argument.  Whatever the array of
    first differences, of one, two or four dimensions,
    [calc_med_first_diffs] raises no exception: the all-NaN and
    empty-array errors of [np.nanargmax], [np.nanargmin] and [argmax]
    cannot occur in the tiers that call them.  An array of three
    dimensions falls through the dispatch, which yields [None]. *)
Theorem calc_med_first_diffs_returns in_first_diffs :
  exists v, calc_med_first_diffs in_first_diffs = Ok v.
Proof.
  destruct in_first_diffs as [d|a|a|a]; simpl.
  - destruct (dim1_returns d) as [m ->]. simpl. eauto.
  - destruct (dim2_returns a) as [m ->]. simpl. eauto.
  - eauto.
  - destruct (dim4_returns a) as [m ->]. simpl. eauto.
Qed.

(** X2.  Fewer than two usable differences.  A vector, a slab, or the
    column of a pixel of a cube, with fewer than two usable differences
    (the empty one included) yields NaN. *)
Theorem calc_med_first_diffs_few_usable :
  (forall d, num_usable d < 2 ->
     calc_med_first_diffs (Diffs1 d) = Ok (MedianFloat PrimFloat.nan))
  /\ (forall a, num_usable (concat a) < 2 ->
        calc_med_first_diffs (Diffs2 a) = Ok (MedianFloat PrimFloat.nan))
  /\ (forall cube median_diffs r c,
        calc_med_first_diffs (Diffs4 cube) = Ok (MedianArray median_diffs) ->
        (r < (shape4 cube).1.2)%nat -> (c < (shape4 cube).2)%nat ->
        num_usable (pixel_vec cube r c) < 2 ->
        get2 median_diffs r c = Some PrimFloat.nan).
Proof.
  split; [|split].
  - intros d Hu. simpl. by rewrite (dim1_lt2 d Hu).
  - intros a Hu. simpl. rewrite dim2_unfold. cbv zeta.
    replace (4 <=? num_usable (concat a)) with false by lia.
    replace (num_usable (concat a) =? 3) with false by lia.
    by replace (num_usable (concat a) =? 2) with false by lia.
  - intros cube md r c H Hr Hc Hu. simpl in H.
    apply bind_Ok in H as (md' & Hmd & H). injection H as ->.
    destruct (dim4_entries _ _ r c Hmd Hr Hc) as (m & Hm & Hp).
    rewrite dim4_pixel_unfold in Hp.
    replace (4 <=? num_usable (pixel_vec cube r c)) with false in Hp by lia.
    replace (num_usable (pixel_vec cube r c) =? 3) with false in Hp by lia.
    replace (num_usable (pixel_vec cube r c) =? 2) with false in Hp by lia.
    injection Hp as <-. done.
Qed.

(** X3.  Four or more usable differences, 1-D form.  The value left out
    of the median is a usable difference of largest magnitude, and the
    result is the median of the usable differences that remain. *)
Theorem dim1_clips_largest_magnitude d :
  4 <= num_usable d ->
  exists i v,
    d !! i = Some v /\ Np.isnan v = false
    /\ (forall x, x ∈ d -> Np.isnan x = false ->
          PrimFloat.leb (PrimFloat.abs x) (PrimFloat.abs v) = true)
    /\ calc_med_first_diffs (Diffs1 d)
       = Ok (MedianFloat (Np.nanmedian (Np.remove_at i d))).
Proof.
  intros Hu. destruct (dim1_ge4 d Hu) as (i & v & _ & Hv & Hn & Hmax & Hr).
  exists i, v. repeat split; try done. simpl. by rewrite Hr.
Qed.

(** X4.  Two usable differences, 1-D and 4-D forms.  When a usable
    difference is finite, each of the two forms returns a usable
    difference of smallest magnitude. *)
Theorem two_usable_smaller_magnitude d :
  num_usable d = 2 ->
  (exists x, x ∈ d /\ Np.isnan x = false /\ is_infinite x = false) ->
  exists v1 v4,
    calc_med_first_diffs_dim1 d = Ok v1 /\ smallest_magnitude d v1
    /\ calc_med_first_diffs_dim4_pixel d = Ok v4 /\ smallest_magnitude d v4.
Proof.
  intros Hu Hfin.
  destruct (dim1_two d Hu Hfin) as (i & v1 & Hv1 & Hn1 & Hmin1 & H1).
  destruct (dim4_pixel_two d Hu) as (v4 & Hv4 & Hn4 & Hmin4 & H4).
  exists v1, v4. repeat split; try done. by eapply list_elem_of_lookup_2.
Qed.

(** X5.  The 4-D form against the 1-D form on magnitudes.  On a cube of
    absolute values that holds no infinity, as [find_crs] builds it with
    [np.abs(np.diff(dat))], the 4-D form returns, and its entry for a
    pixel is the value that the 1-D form returns for the vector of that
    pixel. *)
Theorem dim4_agrees_with_dim1_on_magnitudes cube r c :
  all4 (fun x => negb (is_infinite x)) cube = true ->
  let first_diffs := imap4 (fun _ _ _ _ x => PrimFloat.abs x) cube in
  (r < (shape4 first_diffs).1.2)%nat -> (c < (shape4 first_diffs).2)%nat ->
  exists median_diffs m,
    calc_med_first_diffs (Diffs4 first_diffs) = Ok (MedianArray median_diffs)
    /\ get2 median_diffs r c = Some m
    /\ calc_med_first_diffs (Diffs1 (pixel_vec first_diffs r c)) = Ok (MedianFloat m).
Proof.
  intros Hfin first_diffs Hr Hc.
  destruct (dim4_returns first_diffs) as [md Hmd].
  destruct (dim4_entries _ _ r c Hmd Hr Hc) as (m & Hm & Hp).
  exists md, m. simpl. rewrite Hmd. simpl. repeat split; try done.
  unfold first_diffs in *. rewrite pixel_vec_abs in *.
  rewrite <- dim4_pixel_dim1_abs by (by apply pixel_vec_no_infinity).
  by rewrite Hp.
Qed.

(** X6.  The 2-D form on a slab that holds a NaN.  With four or more
    usable differences [first_diffs.argmax()] returns the position of a
    NaN, so that no usable difference is left out: the result is the
    median of all the usable differences. *)
Theorem dim2_nan_slab_not_clipped slab :
  4 <= num_usable (concat slab) ->
  (exists y, y ∈ concat slab /\ Np.isnan y = true) ->
  calc_med_first_diffs (Diffs2 slab) = Ok (MedianFloat (Np.nanmedian (concat slab))).
Proof. intros Hu Hn. simpl. by rewrite (dim2_ge4_nan slab Hu Hn). Qed.

(** X7.  Two usable differences, 2-D form.  When a usable difference is
    finite, the value returned is a usable difference that no usable
    difference is below in signed order. *)
Theorem dim2_two_usable_smallest_signed slab :
  num_usable (concat slab) = 2 ->
  (exists x, x ∈ concat slab /\ Np.isnan x = false /\ is_infinite x = false) ->
  exists v,
    calc_med_first_diffs (Diffs2 slab) = Ok (MedianFloat v)
    /\ v ∈ concat slab /\ Np.isnan v = false
    /\ forall x, x ∈ concat slab -> Np.isnan x = false -> PrimFloat.leb v x = true.
Proof.
  intros Hu Hfin. destruct (dim2_two slab Hu Hfin) as (i & v & Hv & Hn & Hmin & H).
  exists v. simpl. rewrite H. repeat split; try done. by eapply list_elem_of_lookup_2.
Qed.

(** X8.  The median inside the refinement loop.  The slab handed to
    [calc_med_first_diffs] in the loop holds a NaN at every difference
    marked so far; once a difference of the slab is marked and four or
    more usable differences remain, the median is that of all the usable
    differences that remain. *)
Theorem refinement_median_not_clipped nints nd (first_diffs : list float) (cr_mask : list bool) :
  length first_diffs = (nints * nd)%nat ->
  (exists k, (k < length first_diffs)%nat /\ cr_mask !! k = Some false) ->
  4 <= num_usable (clip_marked first_diffs cr_mask) ->
  calc_med_first_diffs (Diffs2 (reshape2 nints nd (clip_marked first_diffs cr_mask)))
  = Ok (MedianFloat (Np.nanmedian (clip_marked first_diffs cr_mask))).
Proof.
  intros Hlen (k & Hk & Hm) Hu. simpl.
  assert (Hc : concat (reshape2 nints nd (clip_marked first_diffs cr_mask))
               = clip_marked first_diffs cr_mask).
  { apply concat_reshape2. by rewrite length_clip_marked. }
  rewrite dim2_ge4_nan; rewrite Hc; [done|done|].
  exists PrimFloat.nan. split; [|done]. apply (list_elem_of_lookup_2 _ k).
  rewrite clip_marked_lookup, Hm. simpl.
  by destruct (lookup_lt_is_Some_2 first_diffs k Hk) as [x ->].
Qed.

(** ** Totals and the gate *)

Lemma nflagged_planes_bounds (P : arr2 Z -> bool) (integ : list (arr2 Z)) n :
  n <= foldl (fun n pl => if P pl then n + 1 else n) n integ <= n + Z.of_nat (length integ).
Proof.
  revert n. induction integ as [|pl integ IH]; intros n; simpl; [lia|].
  pose proof (IH (n + 1)). pose proof (IH n). destruct (P pl); lia.
Qed.

Lemma nflagged_planes_none (P : arr2 Z -> bool) (integ : list (arr2 Z)) n :
  Forall (fun pl => P pl = false) integ ->
  foldl (fun n pl => if P pl then n + 1 else n) n integ = n.
Proof.
  intros H. revert n. induction H as [|pl integ Hpl _ IH]; intros n; simpl; [done|].
  by rewrite Hpl.
Qed.

Lemma nflagged_groups_bounds (P : arr2 Z -> bool) (gdq : arr4 Z) n :
  n <= foldl (fun n integ => foldl (fun n pl => if P pl then n + 1 else n) n integ) n gdq
    <= n + Z.of_nat (length (concat gdq)).
Proof.
  revert n. induction gdq as [|integ gdq IH]; intros n; simpl; [lia|].
  pose proof (nflagged_planes_bounds P integ n).
  pose proof (IH (foldl (fun n pl => if P pl then n + 1 else n) n integ)).
  rewrite length_app. lia.
Qed.

Lemma length_concat_shape {T} (a : arr4 T) ni ng nr nc :
  has_shape4 a ni ng nr nc -> length (concat a) = (ni * ng)%nat.
Proof.
  intros [<- Ha]. induction Ha as [|x a [Hx _] _ IH]; simpl; [done|].
  rewrite length_app, IH, Hx. lia.
Qed.

(** [compute_nflagged_groups] counts planes: between none and all. *)
Lemma compute_nflagged_groups_bounds gdq p :
  0 <= compute_nflagged_groups gdq p <= Z.of_nat (length (concat gdq)).
Proof.
  unfold compute_nflagged_groups.
  pose proof (nflagged_groups_bounds (plane_all (fun x => has_flag x (fl_dnu p))) gdq 0). lia.
Qed.

Lemma compute_nflagged_groups_none gdq p :
  Forall (Forall (fun pl => plane_all (fun x => has_flag x (fl_dnu p)) pl = false)) gdq ->
  compute_nflagged_groups gdq p = 0.
Proof.
  unfold compute_nflagged_groups. intros H. generalize 0.
  induction H as [|integ gdq Hi _ IH]; intros n; simpl; [done|].
  rewrite (nflagged_planes_none _ _ _ Hi). apply IH.
Qed.


(** X9.  Totals.  For a rectangular quality array the count of groups
    flagged do-not-use on every pixel lies between 0 and nints * ngroups,
    and the totals of [compute_totals] satisfy
    total_usable_diffs <= total_diffs = total_groups - nints and
    total_groups <= nints * ngroups. *)
Theorem compute_totals_bounds gdq p ni ng nr nc :
  has_shape4 gdq ni ng nr nc ->
  let '(total_groups, total_diffs, total_usable_diffs) :=
    compute_totals (Z.of_nat ni) (Z.of_nat ng) gdq p in
  0 <= compute_nflagged_groups gdq p <= Z.of_nat ni * Z.of_nat ng
  /\ total_usable_diffs <= total_diffs
  /\ total_diffs = total_groups - Z.of_nat ni
  /\ total_groups <= Z.of_nat ni * Z.of_nat ng.
Proof.
  intros Hq. unfold compute_totals. cbv zeta.
  pose proof (compute_nflagged_groups_bounds gdq p) as Hb.
  rewrite (length_concat_shape _ _ _ _ _ Hq) in Hb.
  set (n := compute_nflagged_groups gdq p) in *. nia.
Qed.

(** X10.  Totals without a fully flagged group.  When no plane of the
    quality array has do-not-use on every pixel, the totals are
    nints * ngroups groups and nints * (ngroups - 1) differences, all of
    them usable. *)
Theorem compute_totals_unflagged gdq p nints ngroups :
  Forall (Forall (fun pl => plane_all (fun x => has_flag x (fl_dnu p)) pl = false)) gdq ->
  compute_totals nints ngroups gdq p
  = (nints * ngroups, nints * (ngroups - 1), nints * (ngroups - 1)).
Proof.
  intros H. unfold compute_totals. rewrite (compute_nflagged_groups_none _ _ H).
  cbv zeta. by rewrite !Z.sub_0_r.
Qed.

(** X11.  The gate against the sigma-clip test.  With the total of usable
    groups that [compute_totals] yields, no call is both skipped by
    [too_few_groups] and accepted by [enough_sigclip_groups]. *)
Theorem skip_excludes_sigma_clip p (nints ngroups : nat) gdq :
  too_few_groups (Z.of_nat nints) (Z.of_nat ngroups) (usable_groups p nints ngroups gdq) p
  && enough_sigclip_groups (Z.of_nat nints) (usable_groups p nints ngroups gdq) p = false.
Proof.
  destruct (too_few_groups _ _ _ _) eqn:E1; [|done].
  destruct (enough_sigclip_groups _ _ _) eqn:E2; [|done]. exfalso.
  apply too_few_groups_spec in E1. apply enough_sigclip_groups_spec in E2.
  unfold spec_skip_condition, spec_sigma_clip_eligible, usable_groups in *.
  pose proof (compute_nflagged_groups_bounds gdq p) as [Hb _].
  set (n := compute_nflagged_groups gdq p) in *.
  destruct E1 as [(Hm & ? & ?)|(Hm & ? & ?)], E2 as [(Hm' & ?)|(Hm' & ?)];
    try congruence; nia.
Qed.

(** ** Preprocessing *)

Lemma imap_imap {A B C} (f : nat -> B -> C) (g : nat -> A -> B) (l : list A) :
  imap f (imap g l) = imap (fun k x => f k (g k x)) l.
Proof.
  apply list_eq. intros k. rewrite !list_lookup_imap. by destruct (l !! k).
Qed.

Lemma imap4_imap4 {T U V} (f : nat -> nat -> nat -> nat -> U -> V)
      (h : nat -> nat -> nat -> nat -> T -> U) (a : arr4 T) :
  imap4 f (imap4 h a) = imap4 (fun i g r c x => f i g r c (h i g r c x)) a.
Proof.
  unfold imap4, imap3, imap2.
  rewrite imap_imap. apply imap_ext. intros i x _.
  rewrite imap_imap. apply imap_ext. intros g pl _.
  rewrite imap_imap. apply imap_ext. intros r row _.
  apply imap_imap.
Qed.

Lemma imap4_ext {T U} (f f' : nat -> nat -> nat -> nat -> T -> U) (a : arr4 T) :
  (forall i g r c x, f i g r c x = f' i g r c x) -> imap4 f a = imap4 f' a.
Proof.
  intros H. unfold imap4, imap3, imap2.
  apply imap_ext. intros i x _. apply imap_ext. intros g pl _.
  apply imap_ext. intros r row _. apply imap_ext. intros c v _. apply H.
Qed.

Lemma nan_invalid_data_imap4 dat gdq p :
  nan_invalid_data dat gdq p
  = imap4 (fun i g r c x =>
             if has_flag (getz4 gdq i g r c) (fl_sat p)
                || has_flag (getz4 gdq i g r c) (fl_dnu p)
                || has_flag (getz4 gdq i g r c) (fl_dnu p + fl_sat p)
             then PrimFloat.nan else x) dat.
Proof.
  unfold nan_invalid_data, nan_where. rewrite !imap4_imap4. apply imap4_ext.
  intros i g r c x.
  by destruct (has_flag _ (fl_sat p)), (has_flag _ (fl_dnu p)), (has_flag _ (fl_dnu p + fl_sat p)).
Qed.

Lemma remask_imap4 dat gdq p :
  remask p dat gdq
  = imap4 (fun i g r c x =>
             if has_flag (getz4 gdq i g r c) (fl_sat p)
                || has_flag (getz4 gdq i g r c) (fl_dnu p)
             then PrimFloat.nan else x) dat.
Proof.
  unfold remask, nan_where. rewrite !imap4_imap4. apply imap4_ext.
  intros i g r c x.
  by destruct (has_flag _ (fl_sat p)), (has_flag _ (fl_dnu p)).
Qed.

Lemma remask_nan_invalid_data dat gdq p :
  remask p (nan_invalid_data dat gdq p) gdq = nan_invalid_data dat gdq p.
Proof.
  rewrite remask_imap4, nan_invalid_data_imap4, imap4_imap4. apply imap4_ext.
  intros i g r c x.
  by destruct (has_flag _ (fl_sat p)), (has_flag _ (fl_dnu p)), (has_flag _ (fl_dnu p + fl_sat p)).
Qed.

Lemma nan_invalid_data_idem dat gdq p :
  nan_invalid_data (nan_invalid_data dat gdq p) gdq p = nan_invalid_data dat gdq p.
Proof.
  rewrite !nan_invalid_data_imap4, imap4_imap4. apply imap4_ext.
  intros i g r c x.
  by destruct (has_flag _ (fl_sat p)), (has_flag _ (fl_dnu p)), (has_flag _ (fl_dnu p + fl_sat p)).
Qed.

Lemma has_flag_sum x a b :
  Z.land a b = 0 -> has_flag x (a + b) = has_flag x a || has_flag x b.
Proof.
  intros H. unfold has_flag.
  rewrite (Z.add_nocarry_lxor a b H), (Z.lxor_lor a b H), Z.land_lor_distr_r.
  destruct (Z.land x a =? 0) eqn:Ea, (Z.land x b =? 0) eqn:Eb; simpl;
    rewrite ?Z.eqb_eq, ?Z.eqb_neq in *.
  - apply negb_false_iff, Z.eqb_eq. apply Z.lor_eq_0_iff. done.
  - apply negb_true_iff, Z.eqb_neq. rewrite Z.lor_eq_0_iff. tauto.
  - apply negb_true_iff, Z.eqb_neq. rewrite Z.lor_eq_0_iff. tauto.
  - apply negb_true_iff, Z.eqb_neq. rewrite Z.lor_eq_0_iff. tauto.
Qed.

(** X12.  Masking twice.  [nan_invalid_data] applied to its own result
    changes nothing, and neither do the two assignments that [find_crs]
    repeats ahead of the single-pass and iterative blocks: the first
    differences taken there are those taken before. *)
Theorem masking_idempotent dat gdq p :
  nan_invalid_data (nan_invalid_data dat gdq p) gdq p = nan_invalid_data dat gdq p
  /\ remask p (nan_invalid_data dat gdq p) gdq = nan_invalid_data dat gdq p.
Proof. split; [apply nan_invalid_data_idem|apply remask_nan_invalid_data]. Qed.

(** X13.  The third assignment of [nan_invalid_data].  When the
    saturated and do-not-use flags share no bit, masking with their sum
    adds nothing to masking with each of them. *)
Theorem nan_invalid_data_disjoint_flags dat gdq p :
  Z.land (fl_dnu p) (fl_sat p) = 0 ->
  nan_invalid_data dat gdq p = nan_where (fl_dnu p) gdq (nan_where (fl_sat p) gdq dat).
Proof.
  intros H. change (nan_where (fl_dnu p) gdq (nan_where (fl_sat p) gdq dat)) with (remask p dat gdq).
  rewrite nan_invalid_data_imap4, remask_imap4. apply imap4_ext. intros i g r c x.
  rewrite (has_flag_sum _ _ _ H).
  by destruct (has_flag _ (fl_sat p)), (has_flag _ (fl_dnu p)).
Qed.

(** ** Flags *)

Lemma jump_added_refl p x : jump_added p x x.
Proof. exists 0. by rewrite Z.lor_0_r, Z.land_0_l. Qed.

Lemma jump_added_flag p x : jump_added p x (Z.lor x (fl_jump p)).
Proof. exists (fl_jump p). by rewrite Z.land_diag. Qed.

Lemma jump_added_uint8 p x : jump_added p x (Z.lor x (np_uint8 (fl_jump p))).
Proof.
  exists (np_uint8 (fl_jump p)). split; [done|]. unfold np_uint8.
  change 256 with (2 ^ 8). rewrite <- Z.land_ones by lia.
  rewrite <- Z.land_assoc, (Z.land_comm (Z.ones 8)), Z.land_assoc, Z.land_diag. done.
Qed.

Lemma jump_added_trans p x y z : jump_added p x y -> jump_added p y z -> jump_added p x z.
Proof.
  intros (k1 & -> & H1) (k2 & -> & H2). exists (Z.lor k1 k2).
  by rewrite Z.lor_assoc, Z.land_lor_distr_l, H1, H2.
Qed.

Lemma or_jump_if_clear_added p x : jump_added p x (or_jump_if_clear p x).
Proof.
  unfold or_jump_if_clear. destruct (not_sat_dnu p x);
    [apply jump_added_flag|apply jump_added_refl].
Qed.

(** *** What each stage does to a sample *)

Lemma single_pass_get p read_noise_2 nrows ncols first_diffs first_diffs_masked gdq i g r c x :
  get4 gdq i g r c = Some x ->
  exists y, get4 (single_pass p read_noise_2 nrows ncols first_diffs first_diffs_masked gdq)
                 i g r c = Some y
            /\ jump_added p x y /\ (g = 0%nat -> y = x).
Proof.
  intros Hx. unfold single_pass, or_into_later_groups. rewrite get4_imap4, Hx. simpl.
  eexists. split; [reflexivity|]. destruct g as [|g']; [split; [apply jump_added_refl|done]|].
  split; [|done]. destruct (_ && _); [apply jump_added_uint8|].
  rewrite Z.lor_0_r. apply jump_added_refl.
Qed.

Lemma refine_pixel_get p read_noise_2 ndiffs nints nd ratio fd gdq rc fd' gdq' i g r c x :
  refine_pixel p read_noise_2 ndiffs nints nd ratio (fd, gdq) rc = Ok (fd', gdq') ->
  get4 gdq i g r c = Some x ->
  exists y, get4 gdq' i g r c = Some y /\ jump_added p x y /\ (g = 0%nat -> y = x).
Proof.
  unfold refine_pixel. destruct rc as [row col]. intros H Hx.
  apply bind_Ok in H as (location & _ & H).
  apply bind_Ok in H as (fin & _ & H). injection H as _ <-.
  rewrite get4_imap4, Hx. simpl. eexists. split; [reflexivity|].
  destruct g as [|g']; [split; [apply jump_added_refl|done]|].
  split; [|done]. destruct (_ && _); [|apply jump_added_refl].
  destruct (nth _ _ _); [|apply jump_added_flag].
  rewrite Z.lor_0_r. apply jump_added_refl.
Qed.

Lemma iterative_path_get p read_noise_2 nints ngroups nrows ncols dat gdq gdq' i g r c x :
  iterative_path p read_noise_2 nints ngroups nrows ncols dat gdq = Ok gdq' ->
  get4 gdq i g r c = Some x ->
  exists y, get4 gdq' i g r c = Some y /\ jump_added p x y /\ (g = 0%nat -> y = x).
Proof.
  unfold iterative_path. intros H Hx.
  apply bind_Ok in H as (median_diffs & _ & H).
  apply bind_Ok in H as ([fd' gdq2] & Hloop & H). injection H as <-. simpl.
  set (body := refine_pixel p read_noise_2 _ nints (ngroups - 1) _) in Hloop.
  set (Inv := fun (_ : list (nat * nat)) (st : arr4 float * arr4 Z) =>
                exists y, get4 st.2 i g r c = Some y /\ jump_added p x y /\ (g = 0%nat -> y = x)).
  assert (Hstep : forall seen rc s s', Inv seen s -> body s rc = Ok s' -> Inv (seen ++ [rc]) s').
  { intros seen rc [fd1 g1] [fd2 g2] (y & Hy & Ha & H0) Hb. simpl in *.
    destruct (refine_pixel_get _ _ _ _ _ _ _ _ _ _ _ i g r c y Hb Hy) as (z & Hz & Hb1 & Hb0).
    exists z. split; [done|]. split; [by eapply jump_added_trans|].
    intros E. rewrite Hb0, H0; done. }
  refine (for_each_invariant body Inv Hstep _ [] _ _ _ Hloop).
  exists x. split; [done|]. split; [apply jump_added_refl|done].
Qed.

Lemma detect_get stats clip p rn2 nints ngroups nrows ncols tg tud fdm dat gdq dat' gdq' s
      i g r c x :
  detect stats clip p rn2 nints ngroups nrows ncols tg tud fdm dat gdq = Ok (dat', gdq', s) ->
  get4 gdq i g r c = Some x ->
  exists y, get4 gdq' i g r c = Some y /\ jump_added p x y /\ (g = 0%nat -> y = x).
Proof.
  unfold detect, sigma_clip_path, single_pass_path, iterative_path_branch. intros H Hx.
  destruct (enough_sigclip_groups _ _ _).
  - apply bind_Ok in H as ([[[? ?] ?] ?] & _ & H).
    apply bind_Ok in H as (? & Hm & _). discriminate.
  - destruct (_ <=? _).
    + injection H as _ <- _. by apply single_pass_get.
    + apply bind_Ok in H as (gdq1 & Hit & H). injection H as _ <- _.
      by eapply iterative_path_get.
Qed.

(** One after-jump tier: a sample is left as it was, or it carried
    neither saturated nor do-not-use, got the jump flag, and a jump-flagged
    sample of the same pixel and integration lies at or before it. *)
Lemma after_jump_tier_get p e_jump_4d ngroups gdq tier gdq' i k r c x :
  after_jump_tier p e_jump_4d ngroups gdq tier = Ok gdq' ->
  get4 gdq i k r c = Some x ->
  get4 gdq' i k r c = Some x
  \/ (get4 gdq' i k r c = Some (Z.lor x (fl_jump p)) /\ not_sat_dnu p x = true
      /\ exists g xg, (g <= k)%nat /\ get4 gdq i g r c = Some xg
                      /\ has_flag xg (fl_jump p) = true).
Proof.
  destruct tier as [cthres cgroup]. intros H Hx.
  destruct (decide (0 < cgroup)) as [Hc|Hc].
  - pose proof (after_jump_tier_covers _ _ _ _ _ _ _ Hc H i k r c) as Hcov.
    rewrite Hx in Hcov. simpl in Hcov.
    destruct (existsb _ _) eqn:E; [|by left].
    unfold or_jump_if_clear in Hcov. destruct (not_sat_dnu p x) eqn:Hn; [|by left].
    right. split; [done|]. split; [done|].
    apply after_jump_covers_spec in E as (g & xg & e & Hg & Hf & _ & _ & Hle & _).
    eauto.
  - unfold after_jump_tier in H. replace (0 <? cgroup) with false in H by lia.
    injection H as <-. by left.
Qed.

Lemma flag_after_jumps_get p e_jump_4d ngroups gdq gdq' i k r c x :
  flag_after_jumps p e_jump_4d ngroups gdq = Ok gdq' ->
  get4 gdq i k r c = Some x ->
  get4 gdq' i k r c = Some x
  \/ (get4 gdq' i k r c = Some (Z.lor x (fl_jump p)) /\ not_sat_dnu p x = true).
Proof.
  rewrite flag_after_jumps_unfold. intros H Hx.
  apply bind_Ok in H as (g1 & H1 & H). apply bind_Ok in H as (g2 & H2 & H).
  injection H as <-.
  destruct (after_jump_tier_get _ _ _ _ _ _ _ _ _ _ _ H1 Hx) as [Hy|(Hy & Hn & _)].
  - destruct (after_jump_tier_get _ _ _ _ _ _ _ _ _ _ _ H2 Hy) as [Hz|(Hz & Hn & _)]; auto.
  - destruct (after_jump_tier_get _ _ _ _ _ _ _ _ _ _ _ H2 Hy) as [Hz|(Hz & Hn2 & _)]; auto.
    right. split; [|done]. rewrite Hz. f_equal.
    rewrite <- Z.lor_assoc. f_equal. apply Z.lor_diag.
Qed.

(** *** The stages of a call that returns *)

Lemma find_crs_stages_of stats clip dataa group_dq read_noise p ni ng nr nc out :
  shape4 dataa = (ni, ng, nr, nc) ->
  find_crs stats clip dataa group_dq read_noise p = Ok out ->
  ret_gdq (returned out) = group_dq
  \/ exists rn2 tg tud dat' s ratio_all e_jump_4d gdq1 gdq2 below above,
       detect stats clip p rn2 ni ng nr nc tg tud
              (np_diff (nan_invalid_data dataa group_dq p))
              (nan_invalid_data dataa group_dq p) group_dq
       = Ok (dat', gdq1, s)
       /\ flag_neighbors p ratio_all nr nc gdq1 (zeros3 0 ni ng nc) (zeros3 0 ni ng nc)
          = Ok (gdq2, below, above)
       /\ flag_after_jumps p e_jump_4d ng gdq2 = Ok (ret_gdq (returned out)).
Proof.
  intros Hs H. unfold find_crs, possibly_copy, compute_totals in H. rewrite Hs in H.
  cbv zeta in H. destruct (too_few_groups _ _ _ _).
  - apply bind_Ok in H as (dummy & _ & H). injection H as <-. by left.
  - apply bind_Ok in H as ([[dat' gdq1] s] & Hd & H).
    apply bind_Ok in H as ([[gdq2 below] above] & Hn & H).
    apply bind_Ok in H as (gdq3 & Ha & H).
    apply bind_Ok in H as (stat & _ & H). injection H as <-. simpl.
    right. do 11 eexists. split; [exact Hd|]. split; [exact Hn|exact Ha].
Qed.

(** X14.  Only the jump flag is added.  In every call that returns, each
    word of the returned quality array is the word given, possibly with
    bits of the jump flag OR'd in: no flag is cleared and no other flag
    is set. *)
Theorem find_crs_only_adds_jump_flag stats clip dataa group_dq read_noise p out :
  find_crs stats clip dataa group_dq read_noise p = Ok out ->
  forall i g r c x,
    get4 group_dq i g r c = Some x ->
    exists y, get4 (ret_gdq (returned out)) i g r c = Some y /\ jump_added p x y.
Proof.
  intros H i g r c x Hx.
  destruct (shape4 dataa) as [[[ni ng] nr] nc] eqn:Hs.
  destruct (find_crs_stages_of _ _ _ _ _ _ _ _ _ _ _ Hs H)
    as [->|(rn2 & tg & tud & dat' & s & ratio & e & gdq1 & gdq2 & b & a & Hd & Hn & Ha)].
  { exists x. split; [done|apply jump_added_refl]. }
  destruct (detect_get _ _ _ _ _ _ _ _ _ _ _ _ _ _ _ _ _ _ _ _ _ Hd Hx) as (y1 & Hy1 & J1 & _).
  destruct (flag_neighbors_effect _ _ _ _ _ _ _ _ _ _ Hn) as (Hg & _).
  assert (exists y2, get4 gdq2 i g r c = Some y2 /\ jump_added p y1 y2) as (y2 & Hy2 & J2).
  { destruct (Hg _ _ _ _ _ Hy1) as [Hy|(Hy & _)]; eexists; (split; [exact Hy|]);
      [apply jump_added_refl|apply jump_added_flag]. }
  assert (exists y3, get4 (ret_gdq (returned out)) i g r c = Some y3 /\ jump_added p y2 y3)
    as (y3 & Hy3 & J3).
  { destruct (flag_after_jumps_get _ _ _ _ _ _ _ _ _ _ Ha Hy2) as [Hy|(Hy & _)];
      eexists; (split; [exact Hy|]); [apply jump_added_refl|apply jump_added_flag]. }
  exists y3. split; [done|]. eapply jump_added_trans; [|exact J3].
  by eapply jump_added_trans.
Qed.


(** *** Group 0 *)

Lemma fmap_id_option {A} (o : option A) : (fun x => x) <$> o = o.
Proof. by destruct o. Qed.

Lemma refine_pixel_group0 p read_noise_2 ndiffs nints nd ratio fd gdq rc fd' gdq' i r c :
  refine_pixel p read_noise_2 ndiffs nints nd ratio (fd, gdq) rc = Ok (fd', gdq') ->
  get4 gdq' i 0 r c = get4 gdq i 0 r c.
Proof.
  unfold refine_pixel. destruct rc as [row col]. intros H.
  apply bind_Ok in H as (location & _ & H).
  apply bind_Ok in H as (fin & _ & H). injection H as _ <-.
  rewrite get4_imap4. apply fmap_id_option.
Qed.

Lemma detect_group0 stats clip p rn2 nints ngroups nrows ncols tg tud fdm dat gdq dat' gdq' s
      i r c :
  detect stats clip p rn2 nints ngroups nrows ncols tg tud fdm dat gdq = Ok (dat', gdq', s) ->
  get4 gdq' i 0 r c = get4 gdq i 0 r c.
Proof.
  unfold detect, sigma_clip_path, single_pass_path, iterative_path_branch. intros H.
  destruct (enough_sigclip_groups _ _ _).
  - apply bind_Ok in H as ([[[? ?] ?] ?] & _ & H).
    apply bind_Ok in H as (? & Hm & _). discriminate.
  - destruct (_ <=? _).
    + injection H as _ <- _. unfold single_pass, or_into_later_groups.
      rewrite get4_imap4. apply fmap_id_option.
    + apply bind_Ok in H as (gdq1 & Hit & H). injection H as _ <- _.
      unfold iterative_path in Hit.
      apply bind_Ok in Hit as (median_diffs & _ & Hit).
      apply bind_Ok in Hit as ([fd' gdq2] & Hloop & Hit). injection Hit as <-.
      set (body := refine_pixel p rn2 _ nints (ngroups - 1) _) in Hloop.
      set (Inv := fun (_ : list (nat * nat)) (st : arr4 float * arr4 Z) =>
                    get4 st.2 i 0 r c = get4 gdq i 0 r c).
      assert (Hstep : forall seen rc s s', Inv seen s -> body s rc = Ok s' -> Inv (seen ++ [rc]) s').
      { intros seen rc [fd1 g1] [fd2 g2] Hi Hb. unfold Inv in *. simpl in *.
        by rewrite (refine_pixel_group0 _ _ _ _ _ _ _ _ _ _ _ _ _ _ Hb). }
      by refine (for_each_invariant body Inv Hstep _ [] _ _ _ Hloop).
Qed.

Lemma flag_neighbors_none p ratio_all nrows ncols gdq below above gdq' below' above' i g r c :
  flag_neighbors p ratio_all nrows ncols gdq below above = Ok (gdq', below', above') ->
  get4 gdq i g r c = None -> get4 gdq' i g r c = None.
Proof.
  intros H Hx. destruct (flag_4_neighbors p) eqn:Hf.
  - destruct (flag_neighbors_inv _ _ _ _ _ _ _ _ Hf H) as (Hg & _). simpl in Hg.
    by rewrite Hg, Hx.
  - unfold flag_neighbors in H. rewrite Hf in H. by injection H as <- _ _.
Qed.

Lemma after_jump_tier_none p e_jump_4d ngroups gdq tier gdq' i g r c :
  after_jump_tier p e_jump_4d ngroups gdq tier = Ok gdq' ->
  get4 gdq i g r c = None -> get4 gdq' i g r c = None.
Proof.
  destruct tier as [cthres cgroup]. intros H Hx.
  destruct (decide (0 < cgroup)) as [Hc|Hc].
  - by rewrite (after_jump_tier_covers _ _ _ _ _ _ _ Hc H i g r c), Hx.
  - unfold after_jump_tier in H. replace (0 <? cgroup) with false in H by lia.
    by injection H as <-.
Qed.

(** Group 0 under after-jump flagging and under neighbour propagation:
    untouched when no sample of group 0 carries the jump flag. *)
Lemma after_jump_tier_group0 p e_jump_4d ngroups gdq tier gdq' :
  after_jump_tier p e_jump_4d ngroups gdq tier = Ok gdq' ->
  (forall i r c x, get4 gdq i 0 r c = Some x -> has_flag x (fl_jump p) = false) ->
  forall i r c, get4 gdq' i 0 r c = get4 gdq i 0 r c.
Proof.
  intros H Hno i r c. destruct (get4 gdq i 0 r c) as [x|] eqn:Hx;
    [|by eapply after_jump_tier_none].
  destruct (after_jump_tier_get _ _ _ _ _ _ _ _ _ _ _ H Hx)
    as [Hy|(_ & _ & g & xg & Hle & Hg & Hf)]; [done|].
  assert (g = 0%nat) as -> by lia. rewrite (Hno _ _ _ _ Hg) in Hf. done.
Qed.

Lemma flag_neighbors_group0 p ratio_all nrows ncols gdq below above gdq' below' above' :
  flag_neighbors p ratio_all nrows ncols gdq below above = Ok (gdq', below', above') ->
  (forall i r c x, get4 gdq i 0 r c = Some x -> has_flag x (fl_jump p) = false) ->
  forall i r c, get4 gdq' i 0 r c = get4 gdq i 0 r c.
Proof.
  intros H Hno i r c. destruct (get4 gdq i 0 r c) as [x|] eqn:Hx;
    [|by eapply flag_neighbors_none].
  destruct (flag_neighbors_effect _ _ _ _ _ _ _ _ _ _ H) as (Hg & _).
  destruct (Hg _ _ _ _ _ Hx) as [Hy|(_ & _ & r0 & c0 & _ & x0 & ratio & Hx0 & Hf & _)]; [done|].
  rewrite (Hno _ _ _ _ Hx0) in Hf. done.
Qed.

Lemma find_crs_first_group_untouched stats clip dataa group_dq read_noise p out :
  find_crs stats clip dataa group_dq read_noise p = Ok out ->
  (forall i r c x, get4 group_dq i 0 r c = Some x -> has_flag x (fl_jump p) = false) ->
  forall i r c, get4 (ret_gdq (returned out)) i 0 r c = get4 group_dq i 0 r c.
Proof.
  intros H Hno i r c.
  destruct (shape4 dataa) as [[[ni ng] nr] nc] eqn:Hs.
  destruct (find_crs_stages_of _ _ _ _ _ _ _ _ _ _ _ Hs H)
    as [->|(rn2 & tg & tud & dat' & s & ratio & e & gdq1 & gdq2 & b & a & Hd & Hn & Ha)]; [done|].
  pose proof (fun i r c => detect_group0 _ _ _ _ _ _ _ _ _ _ _ _ _ _ _ _ i r c Hd) as E1.
  assert (Hno1 : forall i r c x, get4 gdq1 i 0 r c = Some x -> has_flag x (fl_jump p) = false).
  { intros i' r' c' x'. rewrite E1. apply Hno. }
  pose proof (flag_neighbors_group0 _ _ _ _ _ _ _ _ _ _ Hn Hno1) as E2.
  assert (Hno2 : forall i r c x, get4 gdq2 i 0 r c = Some x -> has_flag x (fl_jump p) = false).
  { intros i' r' c' x'. rewrite E2. apply Hno1. }
  rewrite flag_after_jumps_unfold in Ha.
  apply bind_Ok in Ha as (g1 & H1 & Ha). apply bind_Ok in Ha as (g2 & H2 & Ha).
  injection Ha as <-.
  pose proof (after_jump_tier_group0 _ _ _ _ _ _ H1 Hno2) as E3.
  assert (Hno3 : forall i r c x, get4 g1 i 0 r c = Some x -> has_flag x (fl_jump p) = false).
  { intros i' r' c' x'. rewrite E3. apply Hno2. }
  pose proof (after_jump_tier_group0 _ _ _ _ _ _ H2 Hno3) as E4.
  by rewrite E4, E3, E2, E1.
Qed.

Lemma no_jump_in_group0_spec p gdq :
  no_jump_in_group0 p gdq = true ->
  forall i r c x, get4 gdq i 0 r c = Some x -> has_flag x (fl_jump p) = false.
Proof.
  unfold no_jump_in_group0, get4, get3, get2, plane_all. intros H i r c x Hx.
  destruct (gdq !! i) as [integ|] eqn:Ei; simpl in Hx; [|done].
  rewrite forallb_forall in H.
  apply list_elem_of_lookup_2, list_elem_of_In, H in Ei.
  rewrite <- head_lookup in Hx.
  destruct (head integ) as [pl|]; simpl in *; [|done].
  destruct (pl !! r) as [row|] eqn:Er; simpl in Hx; [|done].
  rewrite forallb_forall in Ei. apply list_elem_of_lookup_2, list_elem_of_In, Ei in Er.
  rewrite forallb_forall in Er. apply list_elem_of_lookup_2, list_elem_of_In, Er in Hx.
  by apply negb_true_iff.
Qed.

(** X15.  The first group.  When no sample of the first group carries
    the jump flag on input, a call that returns gives back the first
    group of every integration as it was. *)
Theorem find_crs_keeps_first_group stats clip dataa group_dq read_noise p out :
  no_jump_in_group0 p group_dq = true ->
  find_crs stats clip dataa group_dq read_noise p = Ok out ->
  forall i r c, get4 (ret_gdq (returned out)) i 0 r c = get4 group_dq i 0 r c.
Proof.
  intros Hno H. apply (find_crs_first_group_untouched _ _ _ _ _ _ _ H).
  by apply no_jump_in_group0_spec.
Qed.

(** *** The caller's arrays when the inputs are copied *)


(** ** Shapes *)

Lemma Forall_imap {A B} (P : B -> Prop) (f : nat -> A -> B) (l : list A) :
  (forall k x, l !! k = Some x -> P (f k x)) -> Forall P (imap f l).
Proof.
  intros H. apply Forall_lookup_2. intros k y Hy.
  rewrite list_lookup_imap in Hy. destruct (l !! k) as [x|] eqn:E; simpl in Hy; [|done].
  injection Hy as <-. by apply H.
Qed.

Lemma has_shape4_imap4 {T U} (f : nat -> nat -> nat -> nat -> T -> U) (a : arr4 T) ni ng nr nc :
  has_shape4 a ni ng nr nc -> has_shape4 (imap4 f a) ni ng nr nc.
Proof.
  intros [Hi Ha]. unfold imap4, imap3, imap2. split; [by rewrite length_imap|].
  apply Forall_imap. intros i x Hx.
  destruct (Forall_lookup_1 _ _ _ _ Ha Hx) as [Hg Hb]. split; [by rewrite length_imap|].
  apply Forall_imap. intros g pl Hpl.
  destruct (Forall_lookup_1 _ _ _ _ Hb Hpl) as [Hr Hc]. split; [by rewrite length_imap|].
  apply Forall_imap. intros r row Hrow.
  pose proof (Forall_lookup_1 _ _ _ _ Hc Hrow) as Hl. simpl in *. by rewrite length_imap.
Qed.

Lemma has_shape4_np_diff dat ni ng nr nc :
  has_shape4 dat ni ng nr nc -> has_shape4 (np_diff dat) ni (ng - 1) nr nc.
Proof.
  intros [Hi Ha]. unfold np_diff, imap2. split; [by rewrite length_imap|].
  apply Forall_imap. intros i x Hx.
  destruct (Forall_lookup_1 _ _ _ _ Ha Hx) as [Hg Hb].
  split; [rewrite length_imap, length_tl; lia|].
  apply Forall_imap. intros g pl Hpl. rewrite lookup_tail in Hpl.
  destruct (Forall_lookup_1 _ _ _ _ Hb Hpl) as [Hr Hc]. split; [by rewrite length_imap|].
  apply Forall_imap. intros r row Hrow.
  pose proof (Forall_lookup_1 _ _ _ _ Hc Hrow) as Hl. simpl in *. by rewrite length_imap.
Qed.

Lemma has_shape4_nan_invalid_data dat gdq p ni ng nr nc :
  has_shape4 dat ni ng nr nc -> has_shape4 (nan_invalid_data dat gdq p) ni ng nr nc.
Proof. intros H. unfold nan_invalid_data, nan_where. by do 3 apply has_shape4_imap4. Qed.

Lemma has_shape4_remask dat gdq p ni ng nr nc :
  has_shape4 dat ni ng nr nc -> has_shape4 (remask p dat gdq) ni ng nr nc.
Proof. intros H. unfold remask, nan_where. by do 2 apply has_shape4_imap4. Qed.

Lemma has_shape4_same_cells (a b : arr4 Z) ni ng nr nc :
  has_shape4 a ni ng nr nc -> has_shape4 b ni ng nr nc -> same_cells a b.
Proof.
  intros Ha Hb i g r c.
  by rewrite (has_shape4_get _ _ _ _ _ _ _ _ _ Ha), (has_shape4_get _ _ _ _ _ _ _ _ _ Hb).
Qed.

Lemma flag_neighbors_same_cells p ratio_all nrows ncols gdq below above gdq' below' above' :
  flag_neighbors p ratio_all nrows ncols gdq below above = Ok (gdq', below', above') ->
  same_cells gdq gdq'.
Proof.
  intros H i g r c. destruct (get4 gdq i g r c) as [x|] eqn:Hx.
  - destruct (flag_neighbors_effect _ _ _ _ _ _ _ _ _ _ H) as (Hg & _).
    destruct (Hg _ _ _ _ _ Hx) as [->|[-> _]]; split; eauto.
  - rewrite (flag_neighbors_none _ _ _ _ _ _ _ _ _ _ _ _ _ _ H Hx). done.
Qed.

(** The stages after detection return on rectangular arrays. *)
Lemma flagging_stages_return p ratio_all e_jump_4d gdq below above ni ng nr nc :
  (2 <= ng)%nat ->
  has_shape4 ratio_all ni (ng - 1) nr nc ->
  has_shape4 e_jump_4d ni (ng - 1) nr nc ->
  has_shape4 gdq ni ng nr nc ->
  exists gdq2 below' above' gdq3,
    flag_neighbors p ratio_all nr nc gdq below above = Ok (gdq2, below', above')
    /\ flag_after_jumps p e_jump_4d ng gdq2 = Ok gdq3.
Proof.
  intros Hng Hr He Hq.
  destruct (flag_neighbors_returns p ratio_all nr nc gdq below above)
    as ([[gdq2 below'] above'] & Hn).
  { by eapply neighbors_ready_shapes. }
  destruct (flag_after_jumps_returns p e_jump_4d ng gdq2) as [gdq3 Ha].
  { eapply after_jump_ready_same_cells; [by eapply flag_neighbors_same_cells|].
    by eapply after_jump_ready_shapes. }
  by exists gdq2, below', above', gdq3.
Qed.

(** X17.  The single-pass path returns.  For rectangular inputs with at
    least two groups, when the gate is passed, the sigma-clip test fails
    and the usable differences reach the single-pass minimum, [find_crs]
    returns, and its fifth value is a zero-filled array: nrows x ncols,
    or (ngroups - 1) x nrows x ncols in only-use-integrations mode. *)
Theorem find_crs_single_pass_returns stats clip dataa group_dq read_noise p ni ng nr nc :
  shape4 dataa = (ni, ng, nr, nc) ->
  has_shape4 dataa ni ng nr nc ->
  has_shape4 group_dq ni ng nr nc ->
  (2 <= ng)%nat ->
  too_few_groups (Z.of_nat ni) (Z.of_nat ng) (usable_groups p ni ng group_dq) p = false ->
  enough_sigclip_groups (Z.of_nat ni) (usable_groups p ni ng group_dq) p = false ->
  min_diffs_single_pass p <= (compute_totals (Z.of_nat ni) (Z.of_nat ng) group_dq p).2 ->
  exists out,
    find_crs stats clip dataa group_dq read_noise p = Ok out
    /\ ret_stat (returned out)
       = (if only_use_ints p then Stat3 (zeros3 0%float (ng - 1) nr nc)
          else Stat2 (zeros2 0%float nr nc)).
Proof.
  intros Hs Hd Hq Hng Hgate Hsel Hsp.
  unfold find_crs, possibly_copy. rewrite Hs.
  unfold compute_totals in *. unfold usable_groups in Hgate, Hsel. cbv zeta in *. simpl in Hsp.
  rewrite Hgate. unfold detect. rewrite Hsel.
  replace (min_diffs_single_pass p <=? _) with true by lia.
  unfold single_pass_path. cbn [mbind result_bind].
  set (dat := nan_invalid_data dataa group_dq p).
  set (first_diffs := np_diff dat).
  set (median_diffs := reduce01 Np.nanmedian first_diffs nr nc).
  set (e_jump_4d := sub_median first_diffs median_diffs).
  set (ratio_all := ratio_of e_jump_4d _).
  set (gdq1 := single_pass _ _ _ _ _ _ _).
  assert (Hfd : has_shape4 first_diffs ni (ng - 1) nr nc).
  { by apply has_shape4_np_diff, has_shape4_nan_invalid_data. }
  destruct (flagging_stages_return p ratio_all e_jump_4d gdq1
              (zeros3 0 ni ng nc) (zeros3 0 ni ng nc) ni ng nr nc)
    as (gdq2 & below & above & gdq3 & Hn & Ha); try done.
  { unfold ratio_all, ratio_of, e_jump_4d, sub_median. by do 2 apply has_shape4_imap4. }
  { unfold e_jump_4d, sub_median. by apply has_shape4_imap4. }
  { unfold gdq1, single_pass, or_into_later_groups. by apply has_shape4_imap4. }
  rewrite Hn. cbn [mbind result_bind]. rewrite Ha. cbn [mbind result_bind].
  destruct (only_use_ints p).
  - unfold np_zeros3. replace (Z.of_nat ng - 1 <? 0) with false by lia.
    cbn [mbind result_bind]. eexists. split; [reflexivity|]. simpl.
    by replace (Z.to_nat (Z.of_nat ng - 1)) with (ng - 1)%nat by lia.
  - cbn [mbind result_bind]. eexists. split; [reflexivity|]. done.
Qed.

(** ** Flattened pixel slabs *)

Lemma lookup_concat_uniform {A} (ls : list (list A)) n i g l x :
  Forall (fun l => length l = n) ls ->
  ls !! i = Some l -> l !! g = Some x -> concat ls !! (i * n + g)%nat = Some x.
Proof.
  intros H. revert i. induction H as [|l0 ls Hl0 _ IH]; intros [|i] Hi Hg; simpl in *; try done.
  - injection Hi as ->. rewrite lookup_app_l; [done|]. by eapply lookup_lt_Some.
  - rewrite lookup_app_r by lia. replace (n + i * n + g - length l0)%nat with (i * n + g)%nat by lia.
    by apply IH.
Qed.

Lemma length_concat_uniform {A} (ls : list (list A)) n :
  Forall (fun l => length l = n) ls -> length (concat ls) = (length ls * n)%nat.
Proof.
  induction 1 as [|l0 ls Hl0 _ IH]; simpl; [done|]. rewrite length_app. lia.
Qed.

Lemma pixel_slab_uniform a ni nd nr nc r c :
  has_shape4 a ni nd nr nc -> Forall (fun l => length l = nd) (pixel_slab a r c).
Proof.
  intros [_ Ha]. unfold pixel_slab. apply Forall_fmap.
  eapply Forall_impl; [exact Ha|]. intros x [Hx _]. simpl. by rewrite length_map.
Qed.

Lemma length_pixel_vec a ni nd nr nc r c :
  has_shape4 a ni nd nr nc -> length (pixel_vec a r c) = (ni * nd)%nat.
Proof.
  intros Ha. unfold pixel_vec.
  rewrite (length_concat_uniform _ nd) by (by eapply pixel_slab_uniform).
  unfold pixel_slab. rewrite length_map. by destruct Ha as [-> _].
Qed.

(** The flat index [i * nd + g] of the slab of a pixel addresses the
    difference [g] of integration [i]. *)
Lemma pixel_vec_lookup a ni nd nr nc i g r c :
  has_shape4 a ni nd nr nc -> (i < ni)%nat -> (g < nd)%nat ->
  pixel_vec a r c !! (i * nd + g)%nat = Some (getf4 a i g r c).
Proof.
  intros Ha Hi Hg. pose proof (pixel_slab_uniform a ni nd nr nc r c Ha) as Hu.
  destruct Ha as [Hlen Ha].
  destruct (lookup_lt_is_Some_2 a i) as [x Hx]; [lia|].
  destruct (Forall_lookup_1 _ _ _ _ Ha Hx) as [Hxl _].
  destruct (lookup_lt_is_Some_2 x g) as [pl Hpl]; [lia|].
  unfold pixel_vec. eapply lookup_concat_uniform; [exact Hu| |].
  - unfold pixel_slab. by rewrite list_lookup_fmap, Hx.
  - rewrite list_lookup_fmap, Hpl. simpl. f_equal.
    unfold getf4, getf2, get4, get3. rewrite Hx. simpl. by rewrite Hpl.
Qed.

(** ** First differences *)

Lemma np_diff_get dat i g r c :
  get4 (np_diff dat) i g r c
  = (fun v => PrimFloat.sub v (getf4 dat i g r c)) <$> get4 dat i (S g) r c.
Proof.
  unfold np_diff, get4. rewrite list_lookup_imap.
  destruct (dat !! i) as [x|]; simpl; [|done].
  unfold get3. rewrite list_lookup_imap, lookup_tail.
  destruct (x !! S g) as [pl|]; simpl; [|done]. apply get2_imap2.
Qed.

(** A usable magnitude of a first difference comes from a usable sample. *)
Lemma abs_diff_usable dat i g r c v :
  get4 (imap4 (fun _ _ _ _ x => PrimFloat.abs x) (np_diff dat)) i g r c = Some v ->
  Np.isnan v = false ->
  exists u, get4 dat i (S g) r c = Some u /\ Np.isnan u = false.
Proof.
  rewrite get4_imap4, np_diff_get. intros H Hv.
  destruct (get4 dat i (S g) r c) as [u|]; simpl in H; [|done]. injection H as <-.
  exists u. split; [done|]. destruct (Np.isnan u) eqn:E; [|done].
  rewrite isnan_abs in Hv; [done|]. by apply isnan_sub_l.
Qed.

(** A sample that is not NaN after the masking of lines 173-174 carries
    neither saturated nor do-not-use. *)
Lemma remask_usable_clear p dat gdq i g r c u x :
  get4 (remask p dat gdq) i g r c = Some u -> Np.isnan u = false ->
  get4 gdq i g r c = Some x -> not_sat_dnu p x = true.
Proof.
  unfold remask. rewrite !get4_nan_where. intros Hu Hn Hx.
  rewrite (getz4_Some _ _ _ _ _ _ Hx) in Hu.
  destruct (get4 dat i g r c) as [v|]; simpl in Hu; [|done]. injection Hu as <-.
  unfold not_sat_dnu. unfold has_flag in *.
  destruct (Z.land x (fl_dnu p) =? 0); simpl in *; [|done].
  destruct (Z.land x (fl_sat p) =? 0); simpl in *; done.
Qed.

(** A ratio that is not NaN belongs to a usable difference. *)
Lemma ratio_usable first_diffs median_diffs sigma i g r c :
  Np.isnan (getf4 (ratio_of (sub_median first_diffs median_diffs) sigma) i g r c) = false ->
  exists v, get4 first_diffs i g r c = Some v /\ Np.isnan v = false.
Proof.
  unfold getf4, ratio_of, sub_median. rewrite !get4_imap4.
  destruct (get4 first_diffs i g r c) as [v|]; simpl; [|done].
  intros H. exists v. split; [done|]. by eapply pix_ratio_not_nan.
Qed.

(** ** What the refinement loop marks *)

(** The mask left by the loop marks only differences that were marked at
    entry or usable at entry, and a difference that is usable when the
    loop ends was not touched. *)
Lemma refine_loop_marks p pix_rn2 ndiffs nints nd fuel : forall st fin,
  length (pix_cr_mask st) = length (pix_first_diffs st) ->
  refine_loop p pix_rn2 ndiffs nints nd fuel st = Ok fin ->
  (forall k, pix_cr_mask fin !! k = Some false ->
     pix_cr_mask st !! k = Some false
     \/ exists d, pix_first_diffs st !! k = Some d /\ Np.isnan d = false)
  /\ (forall k d, pix_first_diffs fin !! k = Some d -> Np.isnan d = false ->
        pix_first_diffs st !! k = Some d).
Proof.
  induction fuel as [|fuel IH]; intros st fin Hlen H; simpl in H.
  - destruct (loop_guard ndiffs st); injection H as <-; auto.
  - destruct (loop_guard ndiffs st); [|injection H as <-; auto].
    apply bind_Ok in H as (st' & Hb & H).
    pose proof (loop_body_effect _ _ _ _ _ _ _ Hlen Hb) as Heff.
    pose proof (pass_effect_lengths _ _ Hlen Heff) as Hlen'.
    destruct (IH _ _ Hlen' H) as [Hm Hd].
    destruct Heff as [Hdiffs Hmask].
    assert (Hback : forall k d, pix_first_diffs st' !! k = Some d -> Np.isnan d = false ->
                      pix_first_diffs st !! k = Some d).
    { intros k d Hk Hn. rewrite Hdiffs, clip_marked_lookup in Hk.
      destruct (pix_first_diffs st !! k) as [x|]; simpl in Hk; [|done].
      destruct (default true (pix_cr_mask st !! k)); injection Hk as <-; [done|].
      by rewrite isnan_nan in Hn. }
    split.
    + intros k Hk. destruct (Hm k Hk) as [Hk'|(d & Hk' & Hn)].
      * destruct Hmask as [[_ E]|[_ (k0 & d & Hk0 & E & Hd0 & Hn0)]];
          rewrite E in Hk'; [by left|].
        apply list_lookup_insert_Some in Hk' as [(<- & _ & _)|[_ ?]]; [|by left].
        right. exists d. split; [|done]. by apply Hback.
      * right. exists d. split; [|done]. by apply Hback.
    + intros k d Hk Hn. apply Hback; [|done]. by apply Hd.
Qed.

(** ** The first mark of a candidate pixel *)

Lemma fmax_choice a b : Np.fmax a b = a \/ Np.fmax a b = b.
Proof.
  unfold Np.fmax. destruct (Np.isnan a); [by right|].
  destruct (Np.isnan b); [by left|]. destruct (PrimFloat.leb b a); auto.
Qed.

Lemma nanmax_elem l : Np.isnan (Np.nanmax l) = false -> Np.nanmax l ∈ l.
Proof.
  unfold Np.nanmax. induction l as [|x l IH]; simpl; [by rewrite isnan_nan|].
  destruct (fmax_choice x (foldr Np.fmax PrimFloat.nan l)) as [E|E]; rewrite E.
  - intros _. by left.
  - intros H. right. by apply IH.
Qed.

Lemma ltb_not_neg_infinity t m :
  PrimFloat.ltb t m = true -> PrimFloat.leb m Np.neg_infinity = false.
Proof.
  rewrite ltb_spec, leb_spec. change (Prim2SF Np.neg_infinity) with (S754_infinity true).
  unfold SFltb, SFleb, SFcompare.
  destruct (Prim2SF t) as [?|[|]| |[|] ? ?], (Prim2SF m) as [?|[|]| |[|] ? ?]; try done.
Qed.

(** A pixel is entered into refinement because, in some integration, its
    largest ratio exceeds a threshold. *)
Lemma candidates_max_ratio p ndiffs first_diffs ratio nints nrows ncols row col :
  (row, col) ∈ candidates p ndiffs first_diffs ratio nints nrows ncols ->
  exists i thresh,
    PrimFloat.ltb thresh
      (Np.nanmax (map (fun pl => getf2 pl row col) (default [] (ratio !! i)))) = true.
Proof.
  unfold candidates. cbv zeta.
  assert (Htier : forall count_ok thresh,
            (row, col) ∈ (i ← seq 0 nints; r0 ← seq 0 nrows; c0 ← seq 0 ncols;
                          if count_ok (ndiffs - Z.of_nat (Np.count_nan (pixel_vec first_diffs r0 c0)))
                             && PrimFloat.ltb thresh
                                  (Np.nanmax (map (fun pl => getf2 pl r0 c0)
                                                  (default [] (ratio !! i))))
                          then [(r0, c0)] else []) ->
            exists i, PrimFloat.ltb thresh
                        (Np.nanmax (map (fun pl => getf2 pl row col)
                                        (default [] (ratio !! i)))) = true).
  { intros count_ok thresh Hi.
    apply list_elem_of_bind in Hi as (i & Hi & _).
    apply list_elem_of_bind in Hi as (r0 & Hi & _).
    apply list_elem_of_bind in Hi as (c0 & Hi & _).
    destruct (count_ok _ && _) eqn:E; [|by apply elem_of_nil in Hi].
    apply list_elem_of_singleton in Hi. injection Hi as <- <-.
    apply andb_true_iff in E as [_ E]. eauto. }
  rewrite !elem_of_app. intros [Hin|[Hin|Hin]].
  - destruct (Htier (fun n => 4 <=? n) _ Hin) as [i Hi]. eauto.
  - destruct (Htier (fun n => n =? 3) _ Hin) as [i Hi]. eauto.
  - destruct (Htier (fun n => n =? 2) _ Hin) as [i Hi]. eauto.
Qed.

(** The first difference marked for a candidate pixel, the one of largest
    ratio, has a ratio that is not NaN. *)
Lemma candidate_location_usable p ndiffs first_diffs ratio nints nrows ncols row col location :
  (row, col) ∈ candidates p ndiffs first_diffs ratio nints nrows ncols ->
  Np.nanargmax (pixel_vec ratio row col) = Ok location ->
  exists w, pixel_vec ratio row col !! location = Some w /\ Np.isnan w = false.
Proof.
  intros Hc Hloc. destruct (candidates_max_ratio _ _ _ _ _ _ _ _ _ Hc) as (i & thresh & Hlt).
  set (m := Np.nanmax _) in Hlt.
  pose proof (ltb_true_not_nan _ _ Hlt) as Hnm.
  pose proof (ltb_not_neg_infinity _ _ Hlt) as Hninf.
  assert (Hm : m ∈ pixel_vec ratio row col).
  { pose proof (nanmax_elem _ Hnm) as Hin. fold m in Hin.
    destruct (ratio !! i) as [x|] eqn:Ex; simpl in Hin; [|by apply elem_of_nil in Hin].
    unfold pixel_vec, pixel_slab. apply list_elem_of_In, in_concat.
    exists (map (fun pl => getf2 pl row col) x). split; [|by apply list_elem_of_In].
    apply list_elem_of_In, list_elem_of_fmap. exists x. split; [done|].
    by eapply list_elem_of_lookup_2. }
  destruct (nanargmax_spec (pixel_vec ratio row col)) as (j & w & Hj & Hw & Hmax).
  { apply all_nan_false. eauto. }
  assert (j = location) as -> by congruence.
  exists w. split; [done|]. specialize (Hmax m Hm Hnm).
  destruct (Np.isnan w); [congruence|done].
Qed.

(** ** The loop over the candidate pixels *)

Lemma for_each_invariant_elem {S B} (body : S -> B -> result S) (Inv : S -> Prop)
      (items : list B) :
  (forall x s s', x ∈ items -> Inv s -> body s x = Ok s' -> Inv s') ->
  forall s fin, Inv s -> for_each body s items = Ok fin -> Inv fin.
Proof.
  intros Hstep.
  assert (H : forall rest, (forall x, x ∈ rest -> x ∈ items) ->
            forall s fin, Inv s -> for_each body s rest = Ok fin -> Inv fin).
  { induction rest as [|x rest IH]; intros Hsub s fin Hinv Hrun; simpl in Hrun.
    - by injection Hrun as <-.
    - apply bind_Ok in Hrun as (s' & Hb & Hrest).
      apply (IH (fun y Hy => Hsub y (list_elem_of_further _ _ _ Hy)) s'); [|done].
      eapply Hstep; eauto. apply Hsub. by left. }
  by apply H.
Qed.

Lemma lor_flag_twice x fl : Z.lor (Z.lor x fl) fl = Z.lor x fl.
Proof. rewrite <- Z.lor_assoc. f_equal. apply Z.lor_diag. Qed.

(** One candidate pixel: the invariant is kept. *)
Lemma refine_pixel_inv p read_noise_2 ndiffs ni ng nr nc D0 ratio gdq0 st row col st' :
  has_shape4 gdq0 ni ng nr nc ->
  has_shape4 ratio ni (ng - 1) nr nc ->
  (forall i g r c, Np.isnan (getf4 ratio i g r c) = false -> usable_at D0 i g r c) ->
  (forall location, Np.nanargmax (pixel_vec ratio row col) = Ok location ->
     exists w, pixel_vec ratio row col !! location = Some w /\ Np.isnan w = false) ->
  refine_inv p ni (ng - 1) nr nc D0 gdq0 st ->
  refine_pixel p read_noise_2 ndiffs ni (ng - 1) ratio st (row, col) = Ok st' ->
  refine_inv p ni (ng - 1) nr nc D0 gdq0 st'.
Proof.
  intros Hq Hrs Hratio Hcand (I1 & I2 & I3) H. destruct st as [fd gcur]. simpl in I1, I2, I3.
  unfold refine_pixel in H.
  apply bind_Ok in H as (location & Hloc & H).
  apply bind_Ok in H as (fin & Hloop & H). injection H as <-.
  set (diffs0 := pixel_vec fd row col) in *.
  set (mask0 := <[location := false]> (replicate (length diffs0) true)) in *.
  assert (Hlen0 : length mask0 = length diffs0).
  { unfold mask0. by rewrite length_insert, length_replicate. }
  destruct (refine_loop_marks _ _ _ _ _ _
              {| pix_first_diffs := diffs0; pix_cr_mask := mask0; new_CR_found := true |}
              fin Hlen0 Hloop) as [Hm Hd].
  cbn [pix_cr_mask pix_first_diffs] in Hm, Hd.
  assert (Hflat : forall i g v0, get4 fd i g row col = Some v0 ->
            diffs0 !! (i * (ng - 1) + g)%nat = Some v0).
  { intros i g v0 E0.
    assert (Hs : is_Some (get4 fd i g row col)) by eauto.
    apply (has_shape4_get _ _ _ _ _ _ _ _ _ I1) in Hs as (Hi & Hg & _).
    unfold diffs0. rewrite (pixel_vec_lookup _ _ _ _ _ _ _ _ _ I1 Hi Hg).
    unfold getf4. by rewrite E0. }
  assert (Hmarked : forall i g' x, get4 gdq0 i (S g') row col = Some x ->
            nth (i * (ng - 1) + g') (pix_cr_mask fin) true = false ->
            usable_at D0 i g' row col).
  { intros i g' x Hx Hnth.
    assert (Hs : is_Some (get4 gdq0 i (S g') row col)) by eauto.
    apply (has_shape4_get _ _ _ _ _ _ _ _ _ Hq) in Hs as (Hi & Hg & Hr & Hc).
    assert (Hg' : (g' < ng - 1)%nat) by lia.
    rewrite nth_lookup in Hnth.
    destruct (pix_cr_mask fin !! (i * (ng - 1) + g')%nat) as [[|]|] eqn:Ek; simpl in Hnth; try done.
    destruct (Hm _ Ek) as [Hk|(d & Hk & Hn)].
    - unfold mask0 in Hk. apply list_lookup_insert_Some in Hk as [(E & _ & _)|[_ Hk]].
      + destruct (Hcand _ Hloc) as (w & Hw & Hnw). rewrite E in Hw.
        rewrite (pixel_vec_lookup _ _ _ _ _ _ _ _ _ Hrs Hi Hg') in Hw. injection Hw as <-.
        by apply Hratio.
      + apply lookup_replicate in Hk as [? _]. done.
    - assert (Hs : is_Some (get4 fd i g' row col)).
      { apply (has_shape4_get _ _ _ _ _ _ _ _ _ I1). lia. }
      destruct Hs as [v0 E0]. rewrite (Hflat _ _ _ E0) in Hk. injection Hk as ->.
      exists d. split; [by apply I2|done]. }
  split; [|split]; simpl.
  - by apply has_shape4_imap4.
  - intros i g r c v Hv Hn. rewrite get4_imap4 in Hv.
    destruct (get4 fd i g r c) as [v0|] eqn:E0; simpl in Hv; [|done]. injection Hv as Hv.
    destruct ((r =? row)%nat && (c =? col)%nat) eqn:Hh; [|subst v0; by apply I2].
    apply andb_true_iff in Hh as [->%Nat.eqb_eq ->%Nat.eqb_eq].
    rewrite nth_lookup in Hv.
    destruct (pix_first_diffs fin !! (i * (ng - 1) + g)%nat) as [d|] eqn:Ek; simpl in Hv;
      [|subst v; by rewrite isnan_nan in Hn].
    subst d. pose proof (Hd _ _ Ek Hn) as Hk. rewrite (Hflat _ _ _ E0) in Hk.
    injection Hk as ->. by apply I2.
  - intros i g r c x Hx. rewrite get4_imap4.
    destruct (I3 _ _ _ _ _ Hx) as [Hy|(g' & -> & Hy & Hu)]; rewrite Hy; simpl.
    + destruct g as [|g']; [by left|].
      destruct ((r =? row)%nat && (c =? col)%nat) eqn:Hh; [|by left].
      apply andb_true_iff in Hh as [->%Nat.eqb_eq ->%Nat.eqb_eq].
      destruct (nth _ _ _) eqn:Hnth; [left; by rewrite Z.lor_0_r|].
      right. exists g'. split; [done|]. split; [done|]. by eapply Hmarked.
    + right. exists g'. split; [done|]. split; [|done].
      destruct ((r =? row)%nat && (c =? col)%nat); [|done].
      destruct (nth _ _ _); [by rewrite Z.lor_0_r|by rewrite lor_flag_twice].
Qed.

(** The iterative path flags a sample only after a difference that is
    usable. *)
Lemma iterative_path_marks p read_noise_2 ni ng nr nc dat gdq gdq' :
  has_shape4 dat ni ng nr nc -> has_shape4 gdq ni ng nr nc ->
  iterative_path p read_noise_2 ni ng nr nc dat gdq = Ok gdq' ->
  forall i g r c x, get4 gdq i g r c = Some x ->
    get4 gdq' i g r c = Some x
    \/ exists g', g = S g' /\ get4 gdq' i g r c = Some (Z.lor x (fl_jump p))
                  /\ usable_at (imap4 (fun _ _ _ _ x => PrimFloat.abs x) (np_diff dat)) i g' r c.
Proof.
  intros Hd Hq H. unfold iterative_path in H.
  apply bind_Ok in H as (median_diffs & _ & H).
  apply bind_Ok in H as ([fd' gdq2] & Hloop & H). injection H as <-.
  set (D0 := imap4 (fun _ _ _ _ x => PrimFloat.abs x) (np_diff dat)) in *.
  set (sigma := sigma_array p median_diffs read_noise_2) in *.
  set (ratio := ratio_of (sub_median D0 median_diffs) sigma) in *.
  set (ndiffs := (Z.of_nat ng - 1) * Z.of_nat ni) in *.
  assert (HD0 : has_shape4 D0 ni (ng - 1) nr nc).
  { unfold D0. by apply has_shape4_imap4, has_shape4_np_diff. }
  assert (Hrs : has_shape4 ratio ni (ng - 1) nr nc).
  { unfold ratio, ratio_of, sub_median. by do 2 apply has_shape4_imap4. }
  assert (Hfin : refine_inv p ni (ng - 1) nr nc D0 gdq (fd', gdq2)).
  { refine (for_each_invariant_elem _ (refine_inv p ni (ng - 1) nr nc D0 gdq) _ _ _ _ _ Hloop).
    - intros [row col] s s' Hin Hinv Hb.
      eapply (refine_pixel_inv p read_noise_2 ndiffs ni ng nr nc D0 ratio); eauto.
      + intros i g r c. apply ratio_usable.
      + intros location. by eapply candidate_location_usable.
    - split; [done|]. split; [auto|]. intros; by left. }
  destruct Hfin as (_ & _ & I3). exact I3.
Qed.

(** ** Saturated and do-not-use samples *)

Lemma not_sat_dnu_false_nan p dat gdq i g r c x :
  get4 gdq i g r c = Some x -> not_sat_dnu p x = false ->
  Np.isnan (getf4 (remask p dat gdq) i g r c) = true.
Proof.
  intros Hx Hn. unfold getf4.
  destruct (get4 (remask p dat gdq) i g r c) as [u|] eqn:Hu; simpl; [|done].
  destruct (Np.isnan u) eqn:E; [done|].
  by rewrite (remask_usable_clear _ _ _ _ _ _ _ _ _ Hu E Hx) in Hn.
Qed.

(** The single-pass block leaves a sample that carries saturated or
    do-not-use as it was. *)
Lemma single_pass_invalid_kept p read_noise_2 nrows ncols dat first_diffs_masked gdq i g r c x :
  get4 gdq i g r c = Some x -> not_sat_dnu p x = false ->
  get4 (single_pass p read_noise_2 nrows ncols (np_diff (remask p dat gdq))
                    first_diffs_masked gdq) i g r c = Some x.
Proof.
  intros Hx Hn. unfold single_pass, or_into_later_groups. rewrite get4_imap4, Hx. simpl.
  destruct g as [|g']; [done|]. f_equal.
  set (ratio := ratio_of _ _).
  assert (Hr : Np.isnan (getf4 ratio i g' r c) = true).
  { destruct (Np.isnan (getf4 ratio i g' r c)) eqn:E; [done|]. exfalso.
    apply ratio_usable in E as (v & Hv & Hnv).
    rewrite np_diff_get in Hv.
    pose proof (not_sat_dnu_false_nan p dat gdq i (S g') r c x Hx Hn) as Hnan.
    unfold getf4 in Hnan.
    destruct (get4 (remask p dat gdq) i (S g') r c) as [u|]; simpl in *; [|done].
    injection Hv as <-. by rewrite isnan_sub_l in Hnv. }
  rewrite (ltb_nan_r _ _ Hr). simpl. apply Z.lor_0_r.
Qed.

Lemma iterative_path_invalid_kept p read_noise_2 ni ng nr nc dat gdq gdq' i g r c x :
  has_shape4 dat ni ng nr nc -> has_shape4 gdq ni ng nr nc ->
  iterative_path p read_noise_2 ni ng nr nc (remask p dat gdq) gdq = Ok gdq' ->
  get4 gdq i g r c = Some x -> not_sat_dnu p x = false ->
  get4 gdq' i g r c = Some x.
Proof.
  intros Hd Hq H Hx Hn.
  destruct (iterative_path_marks _ _ _ _ _ _ _ _ _ (has_shape4_remask _ _ _ _ _ _ _ Hd) Hq H
              _ _ _ _ _ Hx) as [Hy|(g' & -> & _ & v & Hv & Hnv)]; [done|].
  exfalso. apply abs_diff_usable in Hv as (u & Hu & Hnu); [|done].
  by rewrite (remask_usable_clear _ _ _ _ _ _ _ _ _ Hu Hnu Hx) in Hn.
Qed.

Lemma detect_invalid_kept stats clip p rn2 ni ng nr nc tg tud fdm dat gdq dat' gdq' s i g r c x :
  has_shape4 dat ni ng nr nc -> has_shape4 gdq ni ng nr nc ->
  detect stats clip p rn2 ni ng nr nc tg tud fdm dat gdq = Ok (dat', gdq', s) ->
  get4 gdq i g r c = Some x -> not_sat_dnu p x = false ->
  get4 gdq' i g r c = Some x.
Proof.
  unfold detect, sigma_clip_path, single_pass_path, iterative_path_branch. intros Hd Hq H Hx Hn.
  destruct (enough_sigclip_groups _ _ _).
  - apply bind_Ok in H as ([[[? ?] ?] ?] & _ & H).
    apply bind_Ok in H as (? & Hm & _). discriminate.
  - destruct (_ <=? _).
    + injection H as _ <- _. by apply single_pass_invalid_kept.
    + apply bind_Ok in H as (gdq1 & Hit & H). injection H as _ <- _.
      by eapply iterative_path_invalid_kept.
Qed.

(** X18.  Saturated and do-not-use samples.  For rectangular inputs, a
    call that returns gives back every quality word that carries
    saturated or do-not-use exactly as it was given: neither detection
    nor neighbour propagation nor after-jump flagging adds the jump flag
    to it. *)
Theorem find_crs_keeps_invalid_samples stats clip dataa group_dq read_noise p ni ng nr nc out :
  shape4 dataa = (ni, ng, nr, nc) ->
  has_shape4 dataa ni ng nr nc ->
  has_shape4 group_dq ni ng nr nc ->
  find_crs stats clip dataa group_dq read_noise p = Ok out ->
  forall i g r c x,
    get4 group_dq i g r c = Some x -> not_sat_dnu p x = false ->
    get4 (ret_gdq (returned out)) i g r c = Some x.
Proof.
  intros Hs Hd Hq H i g r c x Hx Hn.
  destruct (find_crs_stages_of _ _ _ _ _ _ _ _ _ _ _ Hs H)
    as [->|(rn2 & tg & tud & dat' & s & ratio & e & gdq1 & gdq2 & b & a & Hdet & Hnb & Ha)];
    [done|].
  pose proof (detect_invalid_kept _ _ _ _ _ _ _ _ _ _ _ _ _ _ _ _ _ _ _ _ _
                (has_shape4_nan_invalid_data _ _ _ _ _ _ _ Hd) Hq Hdet Hx Hn) as H1.
  destruct (flag_neighbors_effect _ _ _ _ _ _ _ _ _ _ Hnb) as (_ & Hkeep & _).
  pose proof (Hkeep _ _ _ _ _ H1 Hn) as H2.
  destruct (flag_after_jumps_get _ _ _ _ _ _ _ _ _ _ Ha H2) as [H3|(_ & H3)]; [done|].
  congruence.
Qed.

(** A difference marked when the loop is entered stays marked. *)
Lemma refine_loop_keeps_marks p pix_rn2 ndiffs nints nd fuel : forall st fin,
  length (pix_cr_mask st) = length (pix_first_diffs st) ->
  refine_loop p pix_rn2 ndiffs nints nd fuel st = Ok fin ->
  forall k, pix_cr_mask st !! k = Some false -> pix_cr_mask fin !! k = Some false.
Proof.
  induction fuel as [|fuel IH]; intros st fin Hlen H k Hk; simpl in H.
  - destruct (loop_guard ndiffs st); by injection H as <-.
  - destruct (loop_guard ndiffs st); [|by injection H as <-].
    apply bind_Ok in H as (st' & Hb & H).
    pose proof (loop_body_effect _ _ _ _ _ _ _ Hlen Hb) as Heff.
    pose proof (pass_effect_lengths _ _ Hlen Heff) as Hlen'.
    apply (IH _ _ Hlen' H).
    destruct Heff as [_ [[_ ->]|[_ (k0 & d & Hk0 & -> & _)]]]; [done|].
    destruct (decide (k0 = k)) as [->|Hne]; [congruence|].
    by rewrite list_lookup_insert_ne.
Qed.

(** X19.  The first mark of a pixel.  The sample after the difference of
    largest ratio, at which [np.nanargmax] points when the refinement of
    a pixel starts, has the jump flag OR'd in when the refinement of the
    pixel is over, whatever the loop finds. *)
Theorem refine_pixel_flags_largest_ratio p read_noise_2 ndiffs nints nd ratio
        first_diffs gdq row col first_diffs' gdq' i g x :
  refine_pixel p read_noise_2 ndiffs nints nd ratio (first_diffs, gdq) (row, col)
  = Ok (first_diffs', gdq') ->
  Np.nanargmax (pixel_vec ratio row col) = Ok (i * nd + g)%nat ->
  (g < nd)%nat ->
  (i * nd + g < length (pixel_vec first_diffs row col))%nat ->
  get4 gdq i (S g) row col = Some x ->
  get4 gdq' i (S g) row col = Some (Z.lor x (fl_jump p)).
Proof.
  unfold refine_pixel. intros H Hloc Hg Hlt Hx. rewrite Hloc in H. cbn [mbind result_bind] in H.
  apply bind_Ok in H as (fin & Hloop & H). injection H as _ <-.
  set (diffs0 := pixel_vec first_diffs row col) in *.
  set (mask0 := <[(i * nd + g)%nat := false]> (replicate (length diffs0) true)) in *.
  assert (Hlen0 : length mask0 = length diffs0).
  { unfold mask0. by rewrite length_insert, length_replicate. }
  pose proof (refine_loop_keeps_marks _ _ _ _ _ _
                {| pix_first_diffs := diffs0; pix_cr_mask := mask0; new_CR_found := true |}
                fin Hlen0 Hloop (i * nd + g)%nat) as Hk.
  cbn [pix_cr_mask] in Hk.
  rewrite get4_imap4, Hx. simpl. rewrite !Nat.eqb_refl. simpl.
  rewrite (nth_lookup_Some _ _ _ false); [done|]. apply Hk.
  unfold mask0. apply list_lookup_insert_eq. by rewrite length_replicate.
Qed.

(** ** The pixels that are not refined *)

(** X20.  Pixels outside the candidate list.  The iterative path changes
    no quality word of a pixel that is not listed for refinement, that
    is, whose largest ratio exceeds, in no integration, the threshold for
    its count of usable differences. *)
Theorem iterative_path_other_pixels p read_noise_2 nints ngroups nrows ncols dat gdq gdq' r c :
  iterative_path p read_noise_2 nints ngroups nrows ncols dat gdq = Ok gdq' ->
  (forall median_diffs,
     let first_diffs := imap4 (fun _ _ _ _ x => PrimFloat.abs x) (np_diff dat) in
     calc_med_first_diffs_dim4 first_diffs = Ok median_diffs ->
     (r, c) ∉ candidates p ((Z.of_nat ngroups - 1) * Z.of_nat nints) first_diffs
                (ratio_of (sub_median first_diffs median_diffs)
                          (sigma_array p median_diffs read_noise_2))
                nints nrows ncols) ->
  forall i g, get4 gdq' i g r c = get4 gdq i g r c.
Proof.
  unfold iterative_path. intros H Hnot i g.
  apply bind_Ok in H as (median_diffs & Hm & H).
  apply bind_Ok in H as ([fd' gdq2] & Hloop & H). injection H as <-. simpl.
  specialize (Hnot _ Hm). cbv zeta in Hnot.
  set (body := refine_pixel p read_noise_2 ((Z.of_nat ngroups - 1) * Z.of_nat nints) nints
                            (ngroups - 1) _) in Hloop.
  set (Inv := fun (seen : list (nat * nat)) (st : arr4 float * arr4 Z) =>
                (r, c) ∉ seen -> get4 st.2 i g r c = get4 gdq i g r c).
  assert (Hstep : forall seen x s s', Inv seen s -> body s x = Ok s' -> Inv (seen ++ [x]) s').
  { intros seen [row col] [fd1 g1] [fd2 g2] Hi Hb Hn. simpl.
    rewrite not_elem_of_app in Hn. destruct Hn as [Hn1 Hn2].
    rewrite (refine_pixel_other _ _ _ _ _ _ _ _ _ _ _ _ r c Hb).
    - by apply Hi.
    - intros E. apply Hn2. rewrite E. by apply list_elem_of_singleton. }
  refine (for_each_invariant body Inv Hstep _ [] _ _ _ Hloop Hnot).
  by intros _.
Qed.

(** * The theorems at concrete inputs *)

Import Examples.

(** ** The robust median estimator on signed differences *)

(** C1.  The 4-D form against the 1-D form.  For the pixel with the four
    usable differences -100, 1, 2, 3 the 1-D form clips the value of
    largest magnitude, -100, and returns the median 2 of the other three,
    while the 4-D form clips the largest signed value, 3, and returns the
    median 1 of -100, 1, 2: the two forms do not agree. *)
Theorem dim4_differs_from_dim1 :
  pixel_vec signed_cube 0 0 = signed_vector
  /\ calc_med_first_diffs (Diffs1 signed_vector) = Ok (MedianFloat 2%float)
  /\ calc_med_first_diffs (Diffs4 signed_cube) = Ok (MedianArray [[1%float]]).
Proof. repeat split; vm_compute; reflexivity. Qed.

(** C2.  Two usable differences.  For the differences -5 and 1 the 1-D and
    4-D forms return 1, the value of smaller magnitude, and the 2-D form
    returns -5, the value of larger magnitude. *)
Theorem dim2_returns_larger_magnitude :
  calc_med_first_diffs (Diffs1 two_vector) = Ok (MedianFloat 1%float)
  /\ calc_med_first_diffs (Diffs4 two_cube) = Ok (MedianArray [[1%float]])
  /\ calc_med_first_diffs (Diffs2 two_slab) = Ok (MedianFloat (-5)%float)
  /\ PrimFloat.ltb (PrimFloat.abs 1%float) (PrimFloat.abs (-5)%float) = true.
Proof. repeat split; vm_compute; reflexivity. Qed.

(** ** The sigma-clip path *)

Lemma mask_gdq_unbound_name clipped_mask first_diffs_mask p :
  mask_gdq module_level_gdq clipped_mask first_diffs_mask p = Raise NameError.
Proof. reflexivity. Qed.

Lemma sigma_clip_path_raises stats clip p first_diffs_masked dat :
  exists e, sigma_clip_path stats clip p first_diffs_masked dat = Raise e.
Proof.
  unfold sigma_clip_path.
  destruct (run_sigma_clipping stats clip first_diffs_masked p) as [[[[mean median] stddev] cm]|e];
    simpl; eauto.
Qed.

(** C4.  The sigma-clip path.  Every call that passes the eligibility gate
    and selects the sigma-clip path ends in an exception: [mask_gdq]
    reads the name [gdq], which is bound neither in the function nor in
    the module, so no jump flag is applied and none is cleared. *)
Theorem find_crs_sigma_clip_raises stats clip dataa group_dq read_noise p
        nints ngroups nrows ncols :
  shape4 dataa = (nints, ngroups, nrows, ncols) ->
  too_few_groups (Z.of_nat nints) (Z.of_nat ngroups)
                 (usable_groups p nints ngroups group_dq) p = false ->
  enough_sigclip_groups (Z.of_nat nints) (usable_groups p nints ngroups group_dq) p = true ->
  exists e, find_crs stats clip dataa group_dq read_noise p = Raise e.
Proof.
  intros Hs Hgate Hsel. unfold find_crs, possibly_copy, compute_totals. rewrite Hs.
  unfold usable_groups in Hgate, Hsel. cbv zeta. rewrite Hgate.
  unfold detect. rewrite Hsel.
  destruct (sigma_clip_path_raises stats clip p
              (np_diff (nan_invalid_data dataa group_dq p))
              (nan_invalid_data dataa group_dq p)) as [e He].
  rewrite He. simpl. eauto.
Qed.

Lemma find_crs_sigma_clip_raises_witness :
  exists e, find_crs no_stats no_clip jump_ramp jump_gdq jump_noise sigclip_params = Raise e.
Proof.
  apply (find_crs_sigma_clip_raises no_stats no_clip jump_ramp jump_gdq jump_noise
           sigclip_params 1 5 1 2); vm_compute; reflexivity.
Defined.

(** ** Division by a zero sigma in the refinement loop *)

(** C6.  Zero sigma.  In the refinement loop of the iterative path the
    sigma recomputed for a pixel is not reset when it is zero.  For the
    pixel with zero read noise and first differences 20, 0, 5 the second
    pass has median 0 and sigma exactly 0, the ratio 5 / 0 is formed and
    is infinite, and the group of the difference 5 is returned
    jump-flagged along with the group of the difference 20. *)
Theorem refinement_divides_by_zero stats clip :
  calc_med_first_diffs_dim2 [clip_marked (pix_first_diffs zero_noise_state)
                                         (pix_cr_mask zero_noise_state)] = Ok 0%float
  /\ PrimFloat.eqb (sigma_of iterative_params 0%float 0%float) 0%float = true
  /\ pix_ratio_of 0%float (sigma_of iterative_params 0%float 0%float)
                  (clip_marked (pix_first_diffs zero_noise_state) (pix_cr_mask zero_noise_state))
     = [PrimFloat.nan; PrimFloat.nan; PrimFloat.infinity]
  /\ loop_body iterative_params 0%float 3 1 3 zero_noise_state
     = Ok {| pix_first_diffs := [PrimFloat.nan; 0%float; 5%float];
             pix_cr_mask := [false; true; false];
             new_CR_found := true |}
  /\ exists out,
       find_crs stats clip zero_noise_ramp zero_noise_gdq zero_noise iterative_params = Ok out
       /\ ret_gdq (returned out) = [[ [[0]]; [[4]]; [[0]]; [[4]] ]]
       /\ ret_num_primary_crs (returned out) = 2.
Proof.
  split; [vm_compute; reflexivity|].
  split; [vm_compute; reflexivity|].
  split; [vm_compute; reflexivity|].
  split; [vm_compute; reflexivity|].
  eexists. split; [vm_compute; reflexivity|].
  split; vm_compute; reflexivity.
Qed.

(** ** The theorems at concrete inputs *)

Lemma find_crs_skip_witness :
  exists out,
    find_crs no_stats no_clip short_ramp short_gdq short_noise skip_params = Ok out
    /\ ret_gdq (returned out) = short_gdq
    /\ ret_row_below_gdq (returned out) = zeros3 0 1 3 1
    /\ ret_row_above_gdq (returned out) = zeros3 0 1 3 1
    /\ ret_num_primary_crs (returned out) = 0
    /\ ret_stat (returned out) = Stat3 (zeros3 0%float (3 - 1) 1 1)
    /\ caller_group_dq out = short_gdq.
Proof.
  apply (find_crs_skip no_stats no_clip short_ramp short_gdq short_noise skip_params 1 3 1 1).
  - reflexivity.
  - lia.
  - right. vm_compute. repeat split; reflexivity.
Defined.

Lemma find_crs_overwrites_in_place_witness :
  (forall out,
     find_crs no_stats no_clip short_ramp short_gdq short_noise skip_params = Ok out ->
     forall i g r c x,
       get4 short_gdq i g r c = Some x ->
       has_flag x (fl_sat skip_params) = true \/ has_flag x (fl_dnu skip_params) = true ->
       is_Some (get4 short_ramp i g r c) ->
       get4 (caller_dataa out) i g r c = Some PrimFloat.nan)
  /\ ((1 <= 3)%nat ->
      spec_skip_condition skip_params (Z.of_nat 1) (Z.of_nat 3)
                          (usable_groups skip_params 1 3 short_gdq) ->
      exists out,
        find_crs no_stats no_clip short_ramp short_gdq short_noise skip_params = Ok out
        /\ caller_dataa out = nan_invalid_data short_ramp short_gdq skip_params
        /\ caller_group_dq out = short_gdq
        /\ ret_gdq (returned out) = short_gdq).
Proof.
  apply (find_crs_overwrites_in_place no_stats no_clip short_ramp short_gdq short_noise
           skip_params 1 3 1 1); reflexivity.
Defined.


Lemma flag_after_jumps_tiers_witness :
  exists gdq1 gdq2,
    flag_after_jumps after_params after_e_jump 4 after_gdq = Ok gdq2
    /\ after_jump_tier_post after_params after_e_jump 4
         (after_jump_flag_e1 after_params, after_jump_flag_n1 after_params) after_gdq gdq1
    /\ after_jump_tier_post after_params after_e_jump 4
         (after_jump_flag_e2 after_params, after_jump_flag_n2 after_params) gdq1 gdq2.
Proof.
  apply (flag_after_jumps_tiers after_params after_e_jump after_gdq 1 4 1 1).
  - lia.
  - unfold has_shape4. simpl. repeat constructor.
  - unfold has_shape4. simpl. repeat constructor.
Defined.

Lemma refine_loop_terminates_witness :
  (forall st',
     loop_guard 3 zero_noise_state = true ->
     loop_body iterative_params 0%float 3 1 3 zero_noise_state = Ok st' ->
     (new_CR_found st' = false /\ loop_guard 3 st' = false)
     \/ (new_CR_found st' = true
         /\ (unmarked st' + 1 = unmarked zero_noise_state)%nat
         /\ usable_diffs 3 (clip_marked (pix_first_diffs st') (pix_cr_mask st'))
            = usable_diffs 3 (pix_first_diffs st') - 1))
  /\ exists r,
       refine_exec iterative_params 0%float 3 1 3 zero_noise_state r
       /\ forall fuel, (unmarked zero_noise_state < fuel)%nat ->
                       refine_loop iterative_params 0%float 3 1 3 fuel zero_noise_state = r.
Proof.
  apply (refine_loop_terminates iterative_params 0%float 3 1 3 zero_noise_state).
  reflexivity.
Defined.

(** ** The further theorems at concrete inputs *)

Lemma calc_med_first_diffs_few_usable_witness :
  calc_med_first_diffs (Diffs1 few_vector) = Ok (MedianFloat PrimFloat.nan)
  /\ calc_med_first_diffs (Diffs1 []) = Ok (MedianFloat PrimFloat.nan).
Proof.
  split; apply (proj1 calc_med_first_diffs_few_usable); vm_compute; reflexivity.
Defined.

Lemma dim1_clips_largest_magnitude_witness :
  exists i v,
    signed_vector !! i = Some v /\ Np.isnan v = false
    /\ (forall x, x ∈ signed_vector -> Np.isnan x = false ->
          PrimFloat.leb (PrimFloat.abs x) (PrimFloat.abs v) = true)
    /\ calc_med_first_diffs (Diffs1 signed_vector)
       = Ok (MedianFloat (Np.nanmedian (Np.remove_at i signed_vector))).
Proof.
  apply (dim1_clips_largest_magnitude signed_vector). vm_compute. discriminate.
Defined.

Lemma two_usable_smaller_magnitude_witness :
  exists v1 v4,
    calc_med_first_diffs_dim1 two_vector = Ok v1 /\ smallest_magnitude two_vector v1
    /\ calc_med_first_diffs_dim4_pixel two_vector = Ok v4 /\ smallest_magnitude two_vector v4.
Proof.
  apply (two_usable_smaller_magnitude two_vector).
  - reflexivity.
  - exists 1%float. split; [|split; reflexivity]. apply list_elem_of_lookup. by exists 1%nat.
Defined.

Lemma dim4_agrees_with_dim1_on_magnitudes_witness :
  exists median_diffs m,
    calc_med_first_diffs (Diffs4 (imap4 (fun _ _ _ _ x => PrimFloat.abs x) signed_cube))
    = Ok (MedianArray median_diffs)
    /\ get2 median_diffs 0 0 = Some m
    /\ calc_med_first_diffs
         (Diffs1 (pixel_vec (imap4 (fun _ _ _ _ x => PrimFloat.abs x) signed_cube) 0 0))
       = Ok (MedianFloat m).
Proof.
  apply (dim4_agrees_with_dim1_on_magnitudes signed_cube 0 0).
  - reflexivity.
  - vm_compute. lia.
  - vm_compute. lia.
Defined.

Lemma dim2_nan_slab_not_clipped_witness :
  calc_med_first_diffs (Diffs2 nan_slab) = Ok (MedianFloat (Np.nanmedian (concat nan_slab))).
Proof.
  apply (dim2_nan_slab_not_clipped nan_slab).
  - vm_compute. discriminate.
  - exists PrimFloat.nan. split; [|reflexivity]. apply list_elem_of_lookup. by exists 0%nat.
Defined.

Lemma dim2_two_usable_smallest_signed_witness :
  exists v,
    calc_med_first_diffs (Diffs2 two_slab) = Ok (MedianFloat v)
    /\ v ∈ concat two_slab /\ Np.isnan v = false
    /\ forall x, x ∈ concat two_slab -> Np.isnan x = false -> PrimFloat.leb v x = true.
Proof.
  apply (dim2_two_usable_smallest_signed two_slab).
  - reflexivity.
  - exists 1%float. split; [|split; reflexivity]. apply list_elem_of_lookup. by exists 1%nat.
Defined.

Lemma compute_totals_bounds_witness :
  let '(total_groups, total_diffs, total_usable_diffs) :=
    compute_totals (Z.of_nat 1) (Z.of_nat 4) after_gdq after_params in
  0 <= compute_nflagged_groups after_gdq after_params <= Z.of_nat 1 * Z.of_nat 4
  /\ total_usable_diffs <= total_diffs
  /\ total_diffs = total_groups - Z.of_nat 1
  /\ total_groups <= Z.of_nat 1 * Z.of_nat 4.
Proof.
  apply (compute_totals_bounds after_gdq after_params 1 4 1 1).
  unfold has_shape4. simpl. repeat constructor.
Defined.

Lemma compute_totals_unflagged_witness :
  compute_totals 1 5 jump_gdq sigclip_params = (1 * 5, 1 * (5 - 1), 1 * (5 - 1)).
Proof.
  apply (compute_totals_unflagged jump_gdq sigclip_params 1 5).
  repeat constructor.
Defined.

Lemma nan_invalid_data_disjoint_flags_witness :
  nan_invalid_data short_ramp short_gdq skip_params
  = nan_where (fl_dnu skip_params) short_gdq (nan_where (fl_sat skip_params) short_gdq short_ramp).
Proof.
  apply (nan_invalid_data_disjoint_flags short_ramp short_gdq skip_params). reflexivity.
Defined.


Lemma find_crs_keeps_first_group_witness :
  exists out,
    find_crs no_stats no_clip zero_noise_ramp zero_noise_gdq zero_noise iterative_params = Ok out
    /\ forall i r c, get4 (ret_gdq (returned out)) i 0 r c = get4 zero_noise_gdq i 0 r c.
Proof.
  eexists. split; [vm_compute; reflexivity|].
  apply (find_crs_keeps_first_group no_stats no_clip zero_noise_ramp zero_noise_gdq zero_noise
           iterative_params); [reflexivity|vm_compute; reflexivity].
Defined.

Lemma refinement_median_not_clipped_witness :
  calc_med_first_diffs (Diffs2 (reshape2 1 5 (clip_marked marked_diffs marked_mask)))
  = Ok (MedianFloat (Np.nanmedian (clip_marked marked_diffs marked_mask))).
Proof.
  apply (refinement_median_not_clipped 1 5 marked_diffs marked_mask).
  - reflexivity.
  - exists 0%nat. split; [simpl; lia|reflexivity].
  - vm_compute. discriminate.
Defined.

Lemma find_crs_only_adds_jump_flag_witness :
  exists out,
    find_crs no_stats no_clip zero_noise_ramp zero_noise_gdq zero_noise iterative_params = Ok out
    /\ forall i g r c x,
         get4 zero_noise_gdq i g r c = Some x ->
         exists y, get4 (ret_gdq (returned out)) i g r c = Some y
                   /\ jump_added iterative_params x y.
Proof.
  eexists. split; [vm_compute; reflexivity|].
  apply (find_crs_only_adds_jump_flag no_stats no_clip zero_noise_ramp zero_noise_gdq zero_noise
           iterative_params). vm_compute; reflexivity.
Defined.

Lemma find_crs_single_pass_returns_witness :
  exists out,
    find_crs no_stats no_clip jump_ramp jump_gdq jump_noise single_pass_params = Ok out
    /\ ret_stat (returned out)
       = (if only_use_ints single_pass_params then Stat3 (zeros3 0%float (5 - 1) 1 2)
          else Stat2 (zeros2 0%float 1 2)).
Proof.
  apply (find_crs_single_pass_returns no_stats no_clip jump_ramp jump_gdq jump_noise
           single_pass_params 1 5 1 2).
  - reflexivity.
  - unfold has_shape4. simpl. repeat constructor.
  - unfold has_shape4. simpl. repeat constructor.
  - lia.
  - reflexivity.
  - reflexivity.
  - vm_compute. discriminate.
Defined.


Lemma refine_pixel_flags_largest_ratio_witness :
  exists first_diffs' gdq',
    refine_pixel iterative_params zero_noise 3 1 3 pixel_ratio (pixel_diffs, zero_noise_gdq) (0%nat, 0%nat)
    = Ok (first_diffs', gdq')
    /\ get4 gdq' 0 1 0 0 = Some (Z.lor 0 (fl_jump iterative_params)).
Proof.
  do 2 eexists. split; [vm_compute; reflexivity|].
  eapply (refine_pixel_flags_largest_ratio iterative_params zero_noise 3 1 3 pixel_ratio
            pixel_diffs zero_noise_gdq 0 0 _ _ 0 0 0).
  - vm_compute. reflexivity.
  - reflexivity.
  - lia.
  - simpl. lia.
  - reflexivity.
Defined.

Lemma find_crs_keeps_invalid_samples_witness :
  exists out,
    find_crs no_stats no_clip sat_ramp sat_gdq jump_noise single_pass_params = Ok out
    /\ get4 (ret_gdq (returned out)) 0 4 0 0 = Some 2
    /\ get4 (ret_gdq (returned out)) 0 2 0 0 = Some 4.
Proof.
  eexists. split; [vm_compute; reflexivity|]. split; [|reflexivity].
  apply (find_crs_keeps_invalid_samples no_stats no_clip sat_ramp sat_gdq jump_noise
           single_pass_params 1 5 1 2).
  - reflexivity.
  - unfold has_shape4. simpl. repeat constructor.
  - unfold has_shape4. simpl. repeat constructor.
  - vm_compute. reflexivity.
  - reflexivity.
  - reflexivity.
Defined.

Lemma iterative_path_other_pixels_witness :
  exists gdq',
    iterative_path iterative_params [[25%float; 25%float]] 1 5 1 2 jump_ramp jump_gdq = Ok gdq'
    /\ get4 gdq' 0 2 0 0 = Some 4
    /\ forall i g, get4 gdq' i g 0 1 = get4 jump_gdq i g 0 1.
Proof.
  eexists. split; [vm_compute; reflexivity|]. split; [reflexivity|].
  apply (iterative_path_other_pixels iterative_params [[25%float; 25%float]] 1 5 1 2
           jump_ramp jump_gdq _ 0 1).
  - vm_compute. reflexivity.
  - intros median_diffs first_diffs Hm. vm_compute in Hm. injection Hm as <-.
    match goal with |- _ ∉ ?l => replace l with [(0%nat, 0%nat)] by (vm_compute; reflexivity) end.
    intros Hin. apply list_elem_of_singleton in Hin. discriminate.
Defined.
